(** * Two plotting utilities: [draw_zigzag] and [plot_lattice_hex]

    A shallow embedding of
      - nils/conventional_propulsive_motor/draw_zigzag.py
      - nils/conventional_propulsive_motor/plot_lattice_hex.py

    Both functions compute arrays of float64 coordinates and hand them to
    [ax.plot].  The embedding is written once over an interface [Arith] of
    the scalar operations the code uses, and read at two instances:

      - [B64]: IEEE-754 binary64, the arithmetic the code runs on
        (Rocq's primitive floats);
      - [Exact]: the rationals, i.e. the same code without rounding.

    The drawing surface is a log of [ax.plot] calls threaded through a small
    state-and-exception monad, so that what has been drawn when an exception
    is raised stays visible.  What numpy cannot supply is a parameter of the
    embedding: the functions [np.hypot], [np.cos] and [np.sin], and the
    [Memory] of the machine, which decides whether a large array can be
    had. *)

From Stdlib Require Import ZArith List Bool Lia QArith Qround Floats.
Import ListNotations.

Set Warnings "-inexact-float".

Set Implicit Arguments.

(** ** Python exceptions raised by the code or by the numpy calls it makes *)

Inductive exn : Type :=
| ValueError
| OverflowError
| ZeroDivisionError
| IndexError
| MemoryError.

(** ** The machine

    numpy refuses an array it cannot hold: beyond its own limit on the
    number of elements it raises [ValueError] ("Maximum allowed size
    exceeded"), and when the machine has no memory left for the array it
    raises [MemoryError].  Both limits belong to the machine the code runs
    on.  An array of at most [small_array] elements (512 KiB of float64)
    is taken to be granted on every machine. *)
Class Memory : Type := {
  max_size : Z;       (* numpy's limit on the number of elements *)
  capacity : Z        (* the largest array the machine has memory for *)
}.

Definition small_array : Z := 65536.

(** What a request for an array of [n] elements raises, if anything. *)
Definition refusal {MEM : Memory} (n : Z) : option exn :=
  if (n <=? small_array)%Z then None
  else if (max_size <? n)%Z then Some ValueError
  else if (capacity <? n)%Z then Some MemoryError
  else None.

(** An array of [n] elements can be had. *)
Definition fits {MEM : Memory} (n : Z) : bool :=
  match refusal n with None => true | Some _ => false end.

(** ** Scalar arithmetic *)

(** The operations on scalars that occur in the two source files.
    [int_floor x] is [int(np.floor(x))]: it raises on an infinity
    ([OverflowError]) and on a NaN ([ValueError]). *)
Class Arith (F : Type) : Type := {
  of_int : Z -> F;
  half : F;                       (* the literal 0.5 *)
  add : F -> F -> F;
  sub : F -> F -> F;
  mul : F -> F -> F;
  div : F -> F -> F;              (* numpy's true division: never raises *)
  neg : F -> F;
  eqb : F -> F -> bool;
  ltb : F -> F -> bool;
  leb : F -> F -> bool;
  int_floor : F -> exn + Z
}.

Declare Scope arith_scope.
Delimit Scope arith_scope with A.
Infix "+" := add : arith_scope.
Infix "-" := sub : arith_scope.
Infix "*" := mul : arith_scope.
Infix "/" := div : arith_scope.
Notation "- x" := (neg x) : arith_scope.
Infix "==" := eqb (at level 70, no associativity) : arith_scope.
Infix "<?" := ltb : arith_scope.
Infix "<=?" := leb : arith_scope.
Notation "x >=? y" := (leb y x) (at level 70, no associativity) : arith_scope.
Notation "0" := (of_int 0%Z) : arith_scope.
Notation "1" := (of_int 1%Z) : arith_scope.
Notation "2" := (of_int 2%Z) : arith_scope.

(** *** binary64 *)

Module B64.

(** Conversion of a Python [int] to [float]: round to nearest, ties to
    even (exact below 2^53). *)
Definition of_Z (z : Z) : float :=
  SF2Prim (binary_normalize prec emax z 0 false).

(** [int(np.floor(x))]. A finite float [(-1)^s * m * 2^e] floors to
    [(-1)^s * m] shifted by [e] ([Z.shiftl] with a negative count is the
    flooring right shift). *)
Definition floor_spec (x : spec_float) : exn + Z :=
  match x with
  | S754_nan => inl ValueError
  | S754_infinity _ => inl OverflowError
  | S754_zero _ => inr 0%Z
  | S754_finite s m e => inr (Z.shiftl (cond_Zopp s (Zpos m)) e)
  end.

Definition floor_int (x : float) : exn + Z := floor_spec (Prim2SF x).

#[export] Instance arith : Arith float := {|
  of_int := of_Z;
  half := 0.5%float;
  add := PrimFloat.add;
  sub := PrimFloat.sub;
  mul := PrimFloat.mul;
  div := PrimFloat.div;
  neg := PrimFloat.opp;
  eqb := PrimFloat.eqb;
  ltb := PrimFloat.ltb;
  leb := PrimFloat.leb;
  int_floor := floor_int
|}.

(** Shapes of a float, read off its specification value. *)
Definition SF_finite (x : spec_float) : bool :=
  match x with S754_zero _ | S754_finite _ _ _ => true | _ => false end.

Definition SF_zero (x : spec_float) : bool :=
  match x with S754_zero _ => true | _ => false end.

Definition SF_nan (x : spec_float) : bool :=
  match x with S754_nan => true | _ => false end.

(** Negative: a negative infinity or a negative non-zero number. *)
Definition SF_neg (x : spec_float) : bool :=
  match x with
  | S754_infinity true | S754_finite true _ _ => true
  | _ => false
  end.

(** Positive, non-zero and finite. *)
Definition SF_posfin (x : spec_float) : bool :=
  match x with S754_finite false _ _ => true | _ => false end.

(** Negative, non-zero and finite. *)
Definition SF_negfin (x : spec_float) : bool :=
  match x with S754_finite true _ _ => true | _ => false end.

(** [x] is neither an infinity nor a NaN. *)
Definition finite (x : float) : bool := SF_finite (Prim2SF x).

(** "For whatever [np.cos] and [np.sin] compute". *)
Definition forall_trig (P : (float -> float) -> (float -> float) -> Prop)
  : Prop :=
  forall cos sin, P cos sin.

(** "On whatever machine". *)
Definition on_every_machine (P : Memory -> Prop) : Prop :=
  forall MEM, P MEM.

(** What C's Annex F fixes of [hypot], and so of [np.hypot]:
    [hypot(x, +-0)] is [fabs(x)]. *)
Definition exact_on_axis (hypot : float -> float -> float) : Prop :=
  forall x y, PrimFloat.eqb y 0%float = true -> hypot x y = abs x.

(** "For whatever [np.hypot] computes off the axes". *)
Definition forall_hypot (P : (float -> float -> float) -> Prop) : Prop :=
  forall hypot, exact_on_axis hypot -> P hypot.

(** The default [angle_end = 2 * np.pi]. *)
Definition twopi : float := 6.283185307179586.

End B64.

(** *** Specification of the rounding of a quotient

    The integers through which the division of two binary64 numbers is
    described: the exact quotient as a fraction, its rounding to nearest
    even, and the value of the float that results. *)

Module Round64.

Local Open Scope Z_scope.

(** [A / B] rounded to the nearest integer, ties to even. *)
Definition rne (A B : Z) : Z :=
  let q := A / B in
  let r := A mod B in
  if 2 * r <? B then q
  else if B <? 2 * r then q + 1
  else if Z.even q then q else q + 1.

(** The shift record [rec] holds the integer part of [A / B] and the
    position of its fractional part with respect to one half. *)
Definition located (A B : Z) (rec : shr_record) : Prop :=
  shr_m rec = A / B
  /\ shr_r rec = (B <=? 2 * (A mod B))
  /\ shr_s rec = negb ((A mod B =? 0) || (2 * (A mod B) =? B)).

(** [m] at exponent [E] is in canonical form: below 2^53, and at least
    2^52 unless [E] is the smallest exponent. *)
Definition canonical (m E : Z) : Prop :=
  (E = -1074 /\ 0 <= m < 2 ^ 53) \/ (-1074 < E /\ 2 ^ 52 <= m < 2 ^ 53).

(** A non-negative mantissa and its exponent as a float. *)
Definition assemble (m E : Z) : spec_float :=
  match m with
  | Z0 => S754_zero false
  | Zpos p => if E <=? 971 then S754_finite false p E
              else S754_infinity false
  | Zneg _ => S754_nan
  end.

(** The value of a positive finite float in units of 2^-1074; an
    infinity counts as 2^2098, above every finite value. *)
Definition SFV (x : spec_float) : Z :=
  match x with
  | S754_finite false m e => Z.pos m * 2 ^ (e + 1074)
  | S754_infinity false => 2 ^ 2098
  | _ => 0
  end.

(** Positive: a positive non-zero number or the positive infinity. *)
Definition SF_pos (x : spec_float) : bool :=
  match x with
  | S754_finite false _ _ | S754_infinity false => true
  | _ => false
  end.

End Round64.

(** *** exact rational arithmetic *)

Module Exact.

#[export] Instance arith : Arith Q := {|
  of_int := inject_Z;
  half := 1 # 2;
  add := Qplus;
  sub := Qminus;
  mul := Qmult;
  div := Qdiv;
  neg := Qopp;
  eqb := Qeq_bool;
  ltb := fun x y => negb (Qle_bool y x);
  leb := Qle_bool;
  int_floor := fun x => inr (Qfloor x)
|}.

End Exact.

(** ** The drawing surface and the monad of effects *)

Section Canvas.

Variable F : Type.

(** One call of [ax.plot(x, y, ...)]: with 1-D arrays it draws one
    polyline, with 2-D arrays one polyline per column.  Colour, line
    width and opacity are styling and are not recorded. *)
Inductive plot_call : Type :=
| Plot (xs ys : list F)
| PlotColumns (xs ys : list (list F)).

Definition canvas : Type := list plot_call.

Inductive result (A : Type) : Type :=
| Ok (a : A)
| Raise (e : exn).
Arguments Raise {A} e.

(** A computation receives the canvas as drawn so far and returns its
    result with the canvas as it leaves it. *)
Definition M (A : Type) : Type := canvas -> result A * canvas.

Definition ret {A} (a : A) : M A := fun c => (Ok a, c).

Definition raise {A} (e : exn) : M A := fun c => (Raise e, c).

Definition bind {A B} (m : M A) (k : A -> M B) : M B :=
  fun c =>
    match m c with
    | (Ok a, c') => k a c'
    | (Raise e, c') => (Raise e, c')
    end.

Definition lift {A} (r : exn + A) : M A :=
  match r with
  | inl e => raise e
  | inr a => ret a
  end.

Definition ax_plot (xs ys : list F) : M unit :=
  fun c => (Ok tt, c ++ [Plot xs ys]).

Definition ax_plot_columns (xs ys : list (list F)) : M unit :=
  fun c => (Ok tt, c ++ [PlotColumns xs ys]).



(** A computation fails fast when on every canvas it raises and leaves
    the canvas as it found it. *)
Definition fails_fast (m : M unit) : Prop :=
  forall c, exists e, m c = (Raise e, c).

(** [for i in range(n): body i] *)
Fixpoint for_range_from (i : nat) (n : nat) (body : nat -> M unit) : M unit :=
  match n with
  | O => ret tt
  | S n' => bind (body i) (fun _ => for_range_from (S i) n' body)
  end.

Definition for_range (n : nat) (body : nat -> M unit) : M unit :=
  for_range_from 0 n body.

End Canvas.

Arguments Ok {A} a.
Arguments Raise {A} e.
Arguments ret {F A} a.
Arguments raise {F A} e.
Arguments lift {F A} r.

Notation "x <- m ;; k" := (bind m (fun x => k))
  (at level 61, m at next level, right associativity).
Notation "m ;;; k" := (bind m (fun _ => k))
  (at level 61, right associativity).

(** ** numpy helpers *)

Section Numpy.

Context {F : Type} {AF : Arith F} {MEM : Memory}.
Local Open Scope arith_scope.

(** Every numpy call that builds an array of a new size asks for it
    first. *)
Definition allocate (n : Z) : M F unit :=
  match refusal n with
  | None => ret tt
  | Some e => raise e
  end.

(** The entries of [np.arange(n)]: the integers 0 .. n-1, none when
    n <= 0. *)
Definition arange_values (n : Z) : list Z :=
  map Z.of_nat (seq 0 (Z.to_nat n)).

(** [np.arange(n)]. *)
Definition arange (n : Z) : M F (list Z) :=
  allocate n ;;; ret (arange_values n).

(** [y[-1] = v] on a non-empty array. *)
Definition set_last (y : list F) (v : F) : list F :=
  removelast y ++ [v].

(** The entries of [np.linspace(start, stop, num, endpoint)] for scalar
    [start] and [stop], following numpy's function_base.linspace: the
    samples are [i * step + start] with [step = (stop - start) / div], the
    last one overwritten by [stop] when the end point is included; a zero
    step falls back to [(i / div) * delta]. *)
Definition linspace_samples (start stop : F) (num : Z) (endpoint : bool)
  : list F :=
  let div_ := if endpoint then (num - 1)%Z else num in
  let delta := stop - start in
  let y := map of_int (arange_values num) in
  let y :=
    if (0 <? div_)%Z then
      let step := delta / of_int div_ in
      if step == 0 then map (fun v => (v / of_int div_) * delta) y
      else map (fun v => v * step) y
    else map (fun v => v * delta) y in
  let y := map (fun v => v + start) y in
  if endpoint && (1 <? num)%Z then set_last y stop else y.

(** [np.linspace]: a negative [num] raises; the array is built from
    [np.arange(0, num)]. *)
Definition linspace (start stop : F) (num : Z) (endpoint : bool)
  : M F (list F) :=
  if (num <? 0)%Z then raise ValueError
  else
    allocate num ;;;
    ret (linspace_samples start stop num endpoint).

(** [a + t * (b - a)] over an array [t] of parameters. *)
Definition interp (a b : F) (t : list F) : list F :=
  map (fun ti => a + ti * (b - a)) t.

(** [np.outer(a, b)]: one row per element of [a]. *)
Definition outer_values (a b : list F) : list (list F) :=
  map (fun ai => map (fun bj => ai * bj) b) a.

Definition outer (a b : list F) : M F (list (list F)) :=
  allocate (Z.of_nat (length a * length b)) ;;;
  ret (outer_values a b).

(** [np.concatenate(parts)] and [np.append(a, v)]. *)
Definition concatenate (parts : list (list F)) : M F (list F) :=
  allocate (Z.of_nat (length (concat parts))) ;;;
  ret (concat parts).

Definition append (a : list F) (v : F) : M F (list F) :=
  allocate (Z.of_nat (length a) + 1) ;;;
  ret (a ++ [v]).

(** [x[i] += v] on an array; out of range (never the case below,
    where Python would raise) the array is left as it is. *)
Fixpoint add_at (i : nat) (v : F) (x : list F) {struct x} : list F :=
  match x, i with
  | [], _ => []
  | a :: x', O => (a + v) :: x'
  | a :: x', S i' => a :: add_at i' v x'
  end.

(** Division of two Python scalars: a zero divisor raises. *)
Definition py_div (a b : F) : M F F :=
  if b == 0 then raise ZeroDivisionError else ret (a / b).

(** Division of a Python float by a Python int. *)
Definition py_div_int (a : F) (n : Z) : M F F :=
  if (n =? 0)%Z then raise ZeroDivisionError else ret (a / of_int n).

End Numpy.

(** ** draw_zigzag.py *)

Section DrawZigzag.

Context {F : Type} {AF : Arith F} {MEM : Memory}.
Variable hypot : F -> F -> F.       (* np.hypot *)
Local Open Scope arith_scope.

Definition point : Type := (F * F)%type.

(** Overall length (line 30), the quantity tested by [if L_total == 0]. *)
Definition L_total (start end_ : point) : F :=
  hypot (fst end_ - fst start) (snd end_ - snd start).

(** [straight_frac], [p_zig_start] and [p_zig_end] (lines 32-36). *)
Definition straight_frac (fraction_zigzag : F) : F :=
  (1 - fraction_zigzag) / 2.

Definition p_zig_start (start end_ : point) (fraction_zigzag : F) : point :=
  let '(x_start, y_start) := start in
  let '(x_end, y_end) := end_ in
  let dx := x_end - x_start in
  let dy := y_end - y_start in
  (x_start + straight_frac fraction_zigzag * dx,
   y_start + straight_frac fraction_zigzag * dy).

Definition p_zig_end (start end_ : point) (fraction_zigzag : F) : point :=
  let '(x_start, y_start) := start in
  let '(x_end, y_end) := end_ in
  let dx := x_end - x_start in
  let dy := y_end - y_start in
  (x_start + (1 - straight_frac fraction_zigzag) * dx,
   y_start + (1 - straight_frac fraction_zigzag) * dy).

(** Length of the zigzag region (line 39). *)
Definition L_zig (start end_ : point) (fraction_zigzag : F) : F :=
  let pzs := p_zig_start start end_ fraction_zigzag in
  let pze := p_zig_end start end_ fraction_zigzag in
  hypot (fst pze - fst pzs) (snd pze - snd pzs).

(** Number of half-cycles (lines 42-44). *)
Definition n_half (start end_ : point) (pitch fraction_zigzag : F)
  : exn + Z :=
  match int_floor (L_zig start end_ fraction_zigzag / pitch) with
  | inl e => inl e
  | inr n => inr (if (n <? 1)%Z then 1%Z else n)
  end.

(** [sign = 1 if ((i // 2) % 2 == 0) else -1] (line 64). *)
Definition sign (i : nat) : Z :=
  if Nat.eqb ((i / 2) mod 2) 0 then 1%Z else (-1)%Z.

(** The loop of lines 61-66 over the two coordinate arrays. *)
Fixpoint displace_from (i n : nat) (amplitude perp_x perp_y : F)
         (xy : list F * list F) : list F * list F :=
  match n with
  | O => xy
  | S n' =>
      let xy' :=
        if Nat.eqb (i mod 2) 1 then
          (add_at i (amplitude * of_int (sign i) * perp_x) (fst xy),
           add_at i (amplitude * of_int (sign i) * perp_y) (snd xy))
        else xy in
      displace_from (S i) n' amplitude perp_x perp_y xy'
  end.

Definition displace (num_points_zig : nat) (amplitude perp_x perp_y : F)
           (xy : list F * list F) : list F * list F :=
  displace_from 0 num_points_zig amplitude perp_x perp_y xy.

Definition draw_zigzag (start end_ : point)
           (pitch fraction_zigzag amplitude : F) : M F unit :=
  let '(x_start, y_start) := start in
  let '(x_end, y_end) := end_ in
  (* Overall displacement and length. *)
  let dx := x_end - x_start in
  let dy := y_end - y_start in
  let L_total := hypot dx dy in
  (* Coordinates for the start and end of the zigzag region. *)
  let pzs := p_zig_start start end_ fraction_zigzag in
  let pze := p_zig_end start end_ fraction_zigzag in
  (* Number of half-cycles and of points along the zigzag region. *)
  n_half <- lift (n_half start end_ pitch fraction_zigzag) ;;
  let num_points_zig := (n_half + 1)%Z in
  t <- linspace 0 1 num_points_zig true ;;
  (* Baseline coordinates along the zigzag region. *)
  let x_zig := interp (fst pzs) (fst pze) t in
  let y_zig := interp (snd pzs) (snd pze) t in
  (* Compute the normalized perpendicular vector. *)
  if L_total == 0 then ret tt
  else
    let perp_x := (- dy) / L_total in
    let perp_y := dx / L_total in
    (* For each odd-indexed point, add a perpendicular displacement. *)
    let '(x_zig, y_zig) :=
      displace (Z.to_nat num_points_zig) amplitude perp_x perp_y
               (x_zig, y_zig) in
    (* Create left (start) and right (end) straight segments. *)
    let num_straight := 5%Z in
    left_t <- linspace 0 1 num_straight true ;;
    let x_left := interp x_start (fst pzs) left_t in
    let y_left := interp y_start (snd pzs) left_t in
    right_t <- linspace 0 1 num_straight true ;;
    let x_right := interp (fst pze) x_end right_t in
    let y_right := interp (snd pze) y_end right_t in
    (* Concatenate segments (omit duplicate endpoints). *)
    x_full <- concatenate [removelast x_left; x_zig; tl x_right] ;;
    y_full <- concatenate [removelast y_left; y_zig; tl y_right] ;;
    ax_plot x_full y_full.

(** *** The pieces of the path, as functions of the half-cycle count *)

(** The baseline points of the zigzag region, before displacement. *)
Definition baseline (start end_ : point) (fraction_zigzag : F) (n : Z)
  : list F * list F :=
  let pzs := p_zig_start start end_ fraction_zigzag in
  let pze := p_zig_end start end_ fraction_zigzag in
  let t := linspace_samples 0 1 (n + 1) true in
  (interp (fst pzs) (fst pze) t, interp (snd pzs) (snd pze) t).

Definition perp (start end_ : point) : point :=
  let dx := fst end_ - fst start in
  let dy := snd end_ - snd start in
  ((- dy) / hypot dx dy, dx / hypot dx dy).

(** The zigzag sub-path: the baseline after the displacement loop. *)
Definition zigzag (start end_ : point) (fraction_zigzag amplitude : F)
           (n : Z) : list F * list F :=
  displace (Z.to_nat (n + 1)) amplitude
           (fst (perp start end_)) (snd (perp start end_))
           (baseline start end_ fraction_zigzag n).

(** The five samples of the lead-in and of the lead-out. *)
Definition lead_in (start end_ : point) (fraction_zigzag : F)
  : list F * list F :=
  let pzs := p_zig_start start end_ fraction_zigzag in
  let t := linspace_samples 0 1 5 true in
  (interp (fst start) (fst pzs) t, interp (snd start) (snd pzs) t).

Definition lead_out (start end_ : point) (fraction_zigzag : F)
  : list F * list F :=
  let pze := p_zig_end start end_ fraction_zigzag in
  let t := linspace_samples 0 1 5 true in
  (interp (fst pze) (fst end_) t, interp (snd pze) (snd end_) t).

(** The coordinate arrays handed to [ax.plot]. *)
Definition full_path (start end_ : point) (fraction_zigzag amplitude : F)
           (n : Z) : list F * list F :=
  let l := lead_in start end_ fraction_zigzag in
  let z := zigzag start end_ fraction_zigzag amplitude n in
  let r := lead_out start end_ fraction_zigzag in
  (removelast (fst l) ++ fst z ++ tl (fst r),
   removelast (snd l) ++ snd z ++ tl (snd r)).

(** The path as a sequence of points. *)
Definition points (xy : list F * list F) : list point :=
  combine (fst xy) (snd xy).

(** First and last point of a path; [==] on both coordinates. *)
Definition first_point (xy : list F * list F) : option point :=
  hd_error (points xy).

Definition last_point (xy : list F * list F) : option point :=
  hd_error (rev (points xy)).

Definition point_eqb (p q : point) : bool :=
  (fst p == fst q) && (snd p == snd q).

(** The zigzag sub-path of a plotted path: the [n + 1] points that follow
    the four of the lead-in. *)
Definition zigzag_part (xy : list F * list F) (n : Z) : list point :=
  firstn (Z.to_nat (n + 1)) (skipn 4 (points xy)).


(** "A call with [start != end] and [pitch > 0] draws a path whose zigzag
    sub-path has [n_half + 1] points, where
    [n_half = max(1, floor(L_zig / pitch))]". *)
Definition zigzag_has_n_half_plus_1_points (start end_ : point)
           (pitch fraction_zigzag amplitude : F) : Prop :=
  (L_total start end_ == 0) = false -> (0 <? pitch) = true ->
  forall c, exists k xs ys,
    int_floor (L_zig start end_ fraction_zigzag / pitch) = inr k
    /\ draw_zigzag start end_ pitch fraction_zigzag amplitude c
       = (Ok tt, c ++ [Plot xs ys])
    /\ Z.of_nat (length (zigzag_part (xs, ys) (Z.max 1 k)))
       = (Z.max 1 k + 1)%Z.


(** "A call with [start == end] returns normally and draws nothing". *)
Definition zero_length_is_noop (start : point)
           (pitch fraction_zigzag amplitude : F) : Prop :=
  forall c,
    draw_zigzag start start pitch fraction_zigzag amplitude c = (Ok tt, c).


(** "The path drawn by this call starts at [start] and ends at [end_]". *)
Definition endpoints_exact (start end_ : point)
           (pitch fraction_zigzag amplitude : F) : Prop :=
  forall c xs ys,
    draw_zigzag start end_ pitch fraction_zigzag amplitude c
      = (Ok tt, c ++ [Plot xs ys]) ->
    exists p q,
      first_point (xs, ys) = Some p /\ last_point (xs, ys) = Some q
      /\ point_eqb p start = true /\ point_eqb q end_ = true.

End DrawZigzag.

(** ** plot_lattice_hex.py *)

Section PlotLatticeHex.

Context {F : Type} {AF : Arith F} {MEM : Memory}.
Variables cos sin : F -> F.          (* np.cos, np.sin *)
Local Open Scope arith_scope.

(** Radii of the ring boundaries (lines 27-31).  The arguments are Python
    floats, so [(r_out - r_in) / h] raises on [h == 0]; indexing the
    empty array ([num_rings < 0]) raises [IndexError]. *)
Definition prepare_radii (r_in r_out h : F) : M F (list F) :=
  q <- py_div (r_out - r_in) h ;;
  num_rings <- lift (int_floor q) ;;
  ks <- arange (num_rings + 1) ;;
  let r_values := map (fun k => r_in + of_int k * h) ks in
  match rev r_values with
  | [] => raise IndexError
  | r_last :: _ =>
      if r_last <? r_out then append r_values r_out else ret r_values
  end.

(** The radii [r_in + k * h], k = 0 .. [num_rings], and the array with
    the clamped boundary appended. *)
Definition regular_radii (r_in h : F) (num_rings : Z) : list F :=
  map (fun k => r_in + of_int k * h) (arange_values (num_rings + 1)).

Definition last_regular (r_in h : F) (num_rings : Z) : F :=
  r_in + of_int num_rings * h.

Definition radii (r_in r_out h : F) (num_rings : Z) : list F :=
  if last_regular r_in h num_rings <? r_out
  then regular_radii r_in h num_rings ++ [r_out]
  else regular_radii r_in h num_rings.

(** Number of struts of the ring of mean radius [r_mid] (lines 47-48). *)
Definition n_arc (w angle_start angle_end r_mid : F) : exn + Z :=
  let dtheta_est := w / r_mid in
  int_floor ((angle_end - angle_start) / dtheta_est).

(** A boundary arc of a ring (lines 43-44): the polyline through the
    samples [angles_fine] at radius [r]. *)
Definition arc (angles_fine : list F) (r : F) : plot_call F :=
  Plot (map (fun a => r * cos a) angles_fine)
       (map (fun a => r * sin a) angles_fine).

Definition draw_arc (angles_fine : list F) (r : F) : M F unit :=
  ax_plot (map (fun a => r * cos a) angles_fine)
          (map (fun a => r * sin a) angles_fine).

(** One iteration of the loop over the rings (lines 37-66). *)
Definition ring (w angle_start angle_end : F) (angles_fine : list F)
           (r_values : list F) (i : nat) : M F unit :=
  (* Inner and outer radii for the current ring *)
  let r1 := nth i r_values 0 in
  let r2 := nth (i + 1) r_values 0 in
  let r_mid := half * (r1 + r2) in
  (* Draw partial ring boundaries (arcs at r1 and r2) *)
  draw_arc angles_fine r1 ;;;
  draw_arc angles_fine r2 ;;;
  (* Determine number of arcs based on the partial angle range *)
  n_arc <- lift (n_arc w angle_start angle_end r_mid) ;;
  dtheta <- py_div_int (angle_end - angle_start) n_arc ;;
  (* Compute radial division angles within the restricted range *)
  angles <- linspace angle_start angle_end n_arc false ;;
  (* Compute endpoints for the radial lines *)
  x_lines <- outer [r1; r2] (map cos angles) ;;
  y_lines <- outer [r1; r2] (map sin angles) ;;
  (* Draw radial lines *)
  ax_plot_columns x_lines y_lines ;;;
  (* Draw the two boundary radii (to close the section) *)
  ax_plot [r1 * cos angle_start; r2 * cos angle_start]
          [r1 * sin angle_start; r2 * sin angle_start] ;;;
  ax_plot [r1 * cos angle_end; r2 * cos angle_end]
          [r1 * sin angle_end; r2 * sin angle_end].

Definition plot_lattice_hex (r_in r_out h w angle_start angle_end : F)
  : M F unit :=
  (* Ensure valid angle range *)
  if angle_start >=? angle_end then raise ValueError
  else
    (* Prepare Radii *)
    r_values <- prepare_radii r_in r_out h ;;
    (* Precompute angles for the limited section *)
    angles_fine <- linspace angle_start angle_end 300 true ;;
    for_range (length r_values - 1)
              (ring w angle_start angle_end angles_fine r_values).

(** The outermost boundary, [r_values[-1]]. *)
Definition final_radius (r_values : list F) : option F :=
  hd_error (rev r_values).

(** "The outermost arc of this call has radius [r_out]". *)
Definition final_radius_is_r_out (r_in r_out h : F) : Prop :=
  forall c r_values,
    prepare_radii r_in r_out h c = (Ok r_values, c) ->
    exists r, final_radius r_values = Some r /\ (r == r_out) = true.

(** "Of two rings the one with the larger mean radius gets at most as many
    struts". *)
Definition struts_decrease (w angle_start angle_end r_mid1 r_mid2 : F)
  : Prop :=
  forall n1 n2,
    n_arc w angle_start angle_end r_mid1 = inr n1 ->
    n_arc w angle_start angle_end r_mid2 = inr n2 ->
    (n2 <= n1)%Z.

End PlotLatticeHex.

(** ** What the two functions hand to [ax.plot] *)

Section Shapes.

Context {F : Type}.

(** The arrays of a plot call have matching shapes: [ax.plot(x, y)] takes
    two 1-D arrays of the same length, or two 2-D arrays with the same
    rows. *)
Definition well_shaped (p : plot_call F) : Prop :=
  match p with
  | Plot xs ys => length xs = length ys
  | PlotColumns xs ys => map (@length F) xs = map (@length F) ys
  end.

End Shapes.

Section RingDrawing.

Context {F : Type} {AF : Arith F}.
Variables cos sin : F -> F.
Local Open Scope arith_scope.

(** The radial struts of a ring (lines 52-59): one segment per angle, from
    radius [r1] to radius [r2]. *)
Definition struts (r1 r2 : F) (angles : list F) : plot_call F :=
  PlotColumns (outer_values [r1; r2] (map cos angles))
              (outer_values [r1; r2] (map sin angles)).

(** The radius closing the section at [angle] (lines 62-66). *)
Definition closing_radius (r1 r2 angle : F) : plot_call F :=
  Plot [r1 * cos angle; r2 * cos angle] [r1 * sin angle; r2 * sin angle].

End RingDrawing.

(** * Properties *)

Unset Implicit Arguments.

(** ** The monad *)

Section MonadFacts.

Context {F : Type}.

Lemma bind_ret A B (a : A) (k : A -> M F B) c :
  bind (ret a) k c = k a c.
Proof. reflexivity. Qed.

Lemma bind_raise A B (e : exn) (k : A -> M F B) c :
  bind (raise e) k c = (Raise e, c).
Proof. reflexivity. Qed.

Lemma bind_lift_inr A B (a : A) (k : A -> M F B) c :
  bind (lift (inr a)) k c = k a c.
Proof. reflexivity. Qed.

Lemma bind_lift_inl A B (e : exn) (k : A -> M F B) c :
  bind (lift (inl e)) k c = (Raise e, c).
Proof. reflexivity. Qed.

End MonadFacts.

(** ** Arrays *)

Section ArrayFacts.

Context {F : Type} {AF : Arith F} {MEM : Memory}.
Local Open Scope arith_scope.

(** *** Allocation *)

Lemma fits_small n : (n <= small_array)%Z -> fits n = true.
Proof.
  intros H. unfold fits, refusal.
  destruct (Z.leb_spec n small_array); [reflexivity | lia].
Qed.

(** What fits leaves room for everything smaller. *)
Lemma fits_le n m : fits n = true -> (m <= n)%Z -> fits m = true.
Proof.
  unfold fits, refusal. intros H Hm.
  destruct (Z.leb_spec m small_array); [reflexivity|].
  destruct (Z.leb_spec n small_array); [lia|].
  destruct (Z.ltb_spec max_size n); [discriminate|].
  destruct (Z.ltb_spec capacity n); [discriminate|].
  destruct (Z.ltb_spec max_size m); [lia|].
  destruct (Z.ltb_spec capacity m); [lia | reflexivity].
Qed.

Lemma refusal_fits n : fits n = true -> refusal n = None.
Proof. unfold fits. destruct (refusal n); [discriminate | reflexivity]. Qed.

Lemma refusal_not_fits n e : refusal n = Some e -> fits n = false.
Proof. unfold fits. now intros ->. Qed.


Lemma bind_allocate A n (k : unit -> M F A) c :
  bind (allocate n) k c =
  match refusal n with
  | None => k tt c
  | Some e => (Raise e, c)
  end.
Proof. unfold bind, allocate. destruct (refusal n); reflexivity. Qed.

Lemma bind_arange A n (k : list Z -> M F A) c :
  bind (arange n) k c =
  match refusal n with
  | None => k (arange_values n) c
  | Some e => (Raise e, c)
  end.
Proof.
  unfold arange, bind, allocate. destruct (refusal n); reflexivity.
Qed.

Lemma bind_concatenate A parts (k : list F -> M F A) c :
  bind (concatenate parts) k c =
  match refusal (Z.of_nat (length (concat parts))) with
  | None => k (concat parts) c
  | Some e => (Raise e, c)
  end.
Proof.
  unfold concatenate, bind, allocate. destruct (refusal _); reflexivity.
Qed.

Lemma bind_outer A a b (k : list (list F) -> M F A) c :
  bind (outer a b) k c =
  match refusal (Z.of_nat (length a * length b)) with
  | None => k (outer_values a b) c
  | Some e => (Raise e, c)
  end.
Proof.
  unfold outer, bind, allocate. destruct (refusal _); reflexivity.
Qed.

Lemma append_eq (a : list F) v c :
  append a v c =
  match refusal (Z.of_nat (length a) + 1) with
  | None => (Ok (a ++ [v]), c)
  | Some e => (Raise e, c)
  end.
Proof.
  unfold append, bind, allocate. destruct (refusal _); reflexivity.
Qed.

Lemma length_arange_values n : length (arange_values n) = Z.to_nat n.
Proof. unfold arange_values. now rewrite length_map, length_seq. Qed.

Lemma length_removelast A (l : list A) :
  length (removelast l) = Nat.pred (length l).
Proof.
  rewrite removelast_firstn_len, length_firstn. lia.
Qed.

Lemma length_set_last (y : list F) v :
  y <> [] -> length (set_last y v) = length y.
Proof.
  intros Hy. unfold set_last.
  rewrite length_app, length_removelast. simpl.
  destruct y; [congruence | simpl; lia].
Qed.

Lemma length_linspace_samples (a b : F) num endpoint :
  length (linspace_samples a b num endpoint) = Z.to_nat num.
Proof.
  unfold linspace_samples.
  set (y1 := if (0 <? _)%Z then _ else _).
  assert (Hy1 : length y1 = Z.to_nat num).
  { subst y1. destruct (0 <? _)%Z; [destruct (_ == _)|];
      now rewrite length_map, length_map, length_arange_values. }
  destruct (endpoint && (1 <? num)%Z) eqn:E.
  - apply andb_prop in E. destruct E as [_ E]. apply Z.ltb_lt in E.
    rewrite length_set_last; rewrite ?length_map; auto.
    intros H. apply (f_equal (@length F)) in H.
    rewrite length_map, Hy1 in H. simpl in H. lia.
  - now rewrite length_map.
Qed.

(** The outcome of [np.linspace], case by case. *)
Lemma linspace_eq (a b : F) num endpoint c :
  linspace a b num endpoint c =
  if (num <? 0)%Z then (Raise ValueError, c)
  else
    match refusal num with
    | None => (Ok (linspace_samples a b num endpoint), c)
    | Some e => (Raise e, c)
    end.
Proof.
  unfold linspace. destruct (num <? 0)%Z; [reflexivity|].
  rewrite bind_allocate. destruct (refusal num); reflexivity.
Qed.

Lemma linspace_ok (a b : F) num endpoint c :
  (0 <= num)%Z -> fits num = true ->
  linspace a b num endpoint c = (Ok (linspace_samples a b num endpoint), c).
Proof.
  intros H Hf. rewrite linspace_eq, (refusal_fits _ Hf).
  destruct (num <? 0)%Z eqn:E; [apply Z.ltb_lt in E; lia | reflexivity].
Qed.

Lemma linspace_negative (a b : F) num endpoint c :
  (num < 0)%Z -> linspace a b num endpoint c = (Raise ValueError, c).
Proof.
  intros H. rewrite linspace_eq.
  destruct (num <? 0)%Z eqn:E; [reflexivity | apply Z.ltb_ge in E; lia].
Qed.

Lemma length_interp (a b : F) t : length (interp a b t) = length t.
Proof. apply length_map. Qed.

Lemma length_add_at i (v : F) x : length (add_at i v x) = length x.
Proof.
  revert i; induction x as [|a x IH]; intros [|i]; simpl; auto.
Qed.


Lemma combine_app A B (a a' : list A) (b b' : list B) :
  length a = length b ->
  combine (a ++ a') (b ++ b') = combine a b ++ combine a' b'.
Proof.
  revert b; induction a as [|x a IH]; intros [|y b] H; try discriminate.
  - reflexivity.
  - simpl. f_equal. apply IH. now injection H.
Qed.



End ArrayFacts.

(** ** draw_zigzag: what a call does *)

Section DrawZigzagFacts.

Context {F : Type} {AF : Arith F} {MEM : Memory}.
Variable hypot : F -> F -> F.
Local Open Scope arith_scope.

Local Abbreviation pt := (@point F).

Lemma n_half_max (start end_ : pt) pitch fraction_zigzag k :
  int_floor (L_zig hypot start end_ fraction_zigzag / pitch) = inr k ->
  n_half hypot start end_ pitch fraction_zigzag = inr (Z.max 1 k).
Proof.
  intros H. unfold n_half. rewrite H. f_equal.
  destruct (k <? 1)%Z eqn:E.
  - apply Z.ltb_lt in E. lia.
  - apply Z.ltb_ge in E. lia.
Qed.

Lemma n_half_inv (start end_ : pt) pitch fraction_zigzag n :
  n_half hypot start end_ pitch fraction_zigzag = inr n ->
  exists k,
    int_floor (L_zig hypot start end_ fraction_zigzag / pitch) = inr k
    /\ n = Z.max 1 k.
Proof.
  unfold n_half.
  destruct (int_floor _) as [e|k] eqn:E; [discriminate|].
  intros H. injection H as <-. exists k. split; [reflexivity|].
  destruct (k <? 1)%Z eqn:E1.
  - apply Z.ltb_lt in E1. lia.
  - apply Z.ltb_ge in E1. lia.
Qed.

Lemma n_half_pos (start end_ : pt) pitch fraction_zigzag n :
  n_half hypot start end_ pitch fraction_zigzag = inr n -> (1 <= n)%Z.
Proof.
  intros H. apply n_half_inv in H. destruct H as (k & _ & ->). lia.
Qed.

(** *** The displacement loop *)

Lemma displace_from_S n i amplitude perp_x perp_y (xy : list F * list F) :
  displace_from i (S n) amplitude perp_x perp_y xy =
  displace_from (S i) n amplitude perp_x perp_y
    (if Nat.eqb (i mod 2) 1 then
       (add_at i (amplitude * of_int (sign i) * perp_x) (fst xy),
        add_at i (amplitude * of_int (sign i) * perp_y) (snd xy))
     else xy).
Proof. reflexivity. Qed.

Lemma displace_from_length n i amplitude perp_x perp_y (x y : list F) :
  length (fst (displace_from i n amplitude perp_x perp_y (x, y))) = length x
  /\ length (snd (displace_from i n amplitude perp_x perp_y (x, y))) = length y.
Proof.
  revert i x y; induction n as [|n IH]; intros i x y; [simpl; auto|].
  rewrite displace_from_S.
  destruct (Nat.eqb (i mod 2) 1); cbn [fst snd].
  - destruct (IH (S i) (add_at i (amplitude * of_int (sign i) * perp_x) x)
                 (add_at i (amplitude * of_int (sign i) * perp_y) y)) as [H1 H2].
    now rewrite H1, H2, !length_add_at.
  - apply IH.
Qed.


(** *** Sizes of the pieces *)

Lemma length_baseline (start end_ : pt) fraction_zigzag n :
  length (fst (baseline start end_ fraction_zigzag n)) = Z.to_nat (n + 1)
  /\ length (snd (baseline start end_ fraction_zigzag n)) = Z.to_nat (n + 1).
Proof.
  unfold baseline; cbn [fst snd].
  now rewrite !length_interp, length_linspace_samples.
Qed.

Lemma length_zigzag (start end_ : pt) fraction_zigzag amplitude n :
  length (fst (zigzag hypot start end_ fraction_zigzag amplitude n))
    = Z.to_nat (n + 1)
  /\ length (snd (zigzag hypot start end_ fraction_zigzag amplitude n))
    = Z.to_nat (n + 1).
Proof.
  unfold zigzag, displace.
  destruct (baseline start end_ fraction_zigzag n) as [x y] eqn:E.
  pose proof (length_baseline start end_ fraction_zigzag n) as [Hx Hy].
  rewrite E in Hx, Hy. cbn [fst snd] in Hx, Hy.
  destruct (displace_from_length (Z.to_nat (n + 1)) 0 amplitude
              (fst (perp hypot start end_)) (snd (perp hypot start end_)) x y)
    as [H1 H2].
  now rewrite H1, H2.
Qed.

Lemma length_lead_in (start end_ : pt) fraction_zigzag :
  length (fst (lead_in start end_ fraction_zigzag)) = 5%nat
  /\ length (snd (lead_in start end_ fraction_zigzag)) = 5%nat.
Proof.
  unfold lead_in; cbn [fst snd].
  now rewrite !length_interp, length_linspace_samples.
Qed.

Lemma length_lead_out (start end_ : pt) fraction_zigzag :
  length (fst (lead_out start end_ fraction_zigzag)) = 5%nat
  /\ length (snd (lead_out start end_ fraction_zigzag)) = 5%nat.
Proof.
  unfold lead_out; cbn [fst snd].
  now rewrite !length_interp, length_linspace_samples.
Qed.

Lemma length_points (xy : list F * list F) :
  length (points xy) = Nat.min (length (fst xy)) (length (snd xy)).
Proof. apply length_combine. Qed.

(** *** The ways a call can end *)

(** The integer conversion of the half-cycle count raises; or the array
    of [n_half + 1] parameters is refused; or the connector has zero
    length and nothing is drawn; or the array of [n_half + 9] abscissas is
    refused; or the one polyline [full_path] is drawn. *)
Lemma draw_zigzag_eq (start end_ : pt) pitch fraction_zigzag amplitude c :
  draw_zigzag hypot start end_ pitch fraction_zigzag amplitude c =
  match n_half hypot start end_ pitch fraction_zigzag with
  | inl e => (Raise e, c)
  | inr n =>
      match refusal (n + 1) with
      | Some e => (Raise e, c)
      | None =>
          if L_total hypot start end_ == 0 then (Ok tt, c)
          else
            match refusal (n + 9) with
            | Some e => (Raise e, c)
            | None =>
                let p :=
                  full_path hypot start end_ fraction_zigzag amplitude n in
                (Ok tt, c ++ [Plot (fst p) (snd p)])
            end
      end
  end.
Proof.
  destruct start as [x_start y_start], end_ as [x_end y_end].
  unfold draw_zigzag, L_total. cbn [fst snd].
  destruct (n_half _ _ _ _ _) as [e|n] eqn:En; [reflexivity|].
  rewrite bind_lift_inr.
  pose proof (n_half_pos _ _ _ _ _ En) as Hn.
  unfold bind at 1. rewrite linspace_eq.
  destruct (n + 1 <? 0)%Z eqn:E; [apply Z.ltb_lt in E; lia|]. clear E.
  destruct (refusal (n + 1)); [reflexivity|].
  destruct (_ == _); [reflexivity|].
  pose proof (length_zigzag (x_start, y_start) (x_end, y_end)
                fraction_zigzag amplitude n) as [Hzx Hzy].
  pose proof (length_lead_in (x_start, y_start) (x_end, y_end)
                fraction_zigzag) as [Hlx Hly].
  pose proof (length_lead_out (x_start, y_start) (x_end, y_end)
                fraction_zigzag) as [Hrx Hry].
  unfold full_path.
  unfold zigzag, baseline, perp, lead_in, lead_out in *.
  cbn [fst snd] in *.
  destruct (displace _ _ _ _ _) as [xz yz]. cbn [fst snd] in *.
  unfold bind at 1. rewrite linspace_ok by (try apply fits_small; cbv; congruence).
  unfold bind at 1. rewrite linspace_ok by (try apply fits_small; cbv; congruence).
  set (xl := interp x_start _ _) in *. set (yl := interp y_start _ _) in *.
  set (xr := interp _ x_end _) in *. set (yr := interp _ y_end _) in *.
  assert (Lx : Z.of_nat (length (concat [removelast xl; xz; tl xr]))
               = (n + 9)%Z).
  { cbn [concat]. rewrite !length_app, length_removelast, Hlx, Hzx.
    destruct xr as [|x0 xr']; [discriminate|]. simpl in *. lia. }
  assert (Ly : Z.of_nat (length (concat [removelast yl; yz; tl yr]))
               = (n + 9)%Z).
  { cbn [concat]. rewrite !length_app, length_removelast, Hly, Hzy.
    destruct yr as [|y0 yr']; [discriminate|]. simpl in *. lia. }
  rewrite bind_concatenate, Lx.
  destruct (refusal (n + 9)) eqn:Er; [reflexivity|].
  rewrite bind_concatenate, Ly, Er.
  unfold ax_plot. cbn [concat]. rewrite !app_nil_r. reflexivity.
Qed.

(** A call depends on [np.hypot] through the two lengths only. *)
Lemma n_half_ext (hypot' : F -> F -> F) (start end_ : pt)
      pitch fraction_zigzag :
  L_zig hypot start end_ fraction_zigzag
    = L_zig hypot' start end_ fraction_zigzag ->
  n_half hypot start end_ pitch fraction_zigzag
    = n_half hypot' start end_ pitch fraction_zigzag.
Proof. intros H. unfold n_half. now rewrite H. Qed.

(** *** First and last point *)

(** The five parameters of a straight segment: the last one is [1]; the
    first one is [0 * step + 0], or [(0 / 4) * delta + 0] on a zero step. *)
Lemma linspace_5 :
  exists t0 t1 t2 t3 : F,
    linspace_samples 0 1 5 true = [t0; t1; t2; t3; 1]
    /\ (t0 = 0 * ((1 - 0) / of_int 4) + 0
        \/ t0 = (0 / of_int 4) * (1 - 0) + 0).
Proof.
  unfold linspace_samples. cbn -[of_int].
  destruct (_ == _); cbn -[of_int]; do 4 eexists; split;
    try reflexivity; auto.
Qed.

Lemma hd_error_combine_app (a a' b b' : list F) x y :
  hd_error (combine ((x :: a) ++ b) ((y :: a') ++ b')) = Some (x, y).
Proof. reflexivity. Qed.

Lemma last_combine_app (a b : list F) x y :
  length a = length b ->
  hd_error (rev (combine (a ++ [x]) (b ++ [y]))) = Some (x, y).
Proof.
  revert b; induction a as [|u a IH]; intros [|v b] H; try discriminate.
  - reflexivity.
  - simpl in H. injection H as H. simpl.
    specialize (IH b H).
    destruct (rev (combine (a ++ [x]) (b ++ [y]))); [discriminate|].
    simpl in *. assumption.
Qed.

(** The path starts with the first sample of the lead-in and ends with
    the last sample of the lead-out. *)
Lemma full_path_ends (start end_ : pt) fraction_zigzag amplitude n
      t0 t1 t2 t3 :
  linspace_samples 0 1 5 true = [t0; t1; t2; t3; 1] ->
  let pzs := p_zig_start start end_ fraction_zigzag in
  let pze := p_zig_end start end_ fraction_zigzag in
  let p := full_path hypot start end_ fraction_zigzag amplitude n in
  first_point p
    = Some (fst start + t0 * (fst pzs - fst start),
            snd start + t0 * (snd pzs - snd start))
  /\ last_point p
    = Some (fst pze + 1 * (fst end_ - fst pze),
            snd pze + 1 * (snd end_ - snd pze)).
Proof.
  intros Ht. cbv zeta.
  pose proof (length_zigzag start end_ fraction_zigzag amplitude n) as [Hx Hy].
  unfold first_point, last_point, points, full_path, lead_in, lead_out, interp.
  rewrite Ht. cbn [fst snd map removelast tl].
  split; [reflexivity|].
  set (zx := fst (zigzag _ _ _ _ _ _)) in *.
  set (zy := snd (zigzag _ _ _ _ _ _)) in *.
  match goal with
  | |- hd_error (rev (combine (?a ++ zx ++ [?r1; ?r2; ?r3; ?r4])
                              (?b ++ zy ++ [?s1; ?s2; ?s3; ?s4]))) = _ =>
      change (a ++ zx ++ [r1; r2; r3; r4])
        with (a ++ zx ++ [r1; r2; r3] ++ [r4]);
      change (b ++ zy ++ [s1; s2; s3; s4])
        with (b ++ zy ++ [s1; s2; s3] ++ [s4])
  end.
  rewrite !app_assoc. apply last_combine_app.
  rewrite !length_app, Hx, Hy. reflexivity.
Qed.

(** *** The zigzag inside the path *)

Lemma full_path_fst (start end_ : pt) fraction_zigzag amplitude n :
  fst (full_path hypot start end_ fraction_zigzag amplitude n)
  = removelast (fst (lead_in start end_ fraction_zigzag))
    ++ fst (zigzag hypot start end_ fraction_zigzag amplitude n)
    ++ tl (fst (lead_out start end_ fraction_zigzag)).
Proof. reflexivity. Qed.

Lemma full_path_snd (start end_ : pt) fraction_zigzag amplitude n :
  snd (full_path hypot start end_ fraction_zigzag amplitude n)
  = removelast (snd (lead_in start end_ fraction_zigzag))
    ++ snd (zigzag hypot start end_ fraction_zigzag amplitude n)
    ++ tl (snd (lead_out start end_ fraction_zigzag)).
Proof. reflexivity. Qed.


(** The zigzag sub-path of the plotted path is the zigzag. *)
Lemma zigzag_part_full_path (start end_ : pt) fraction_zigzag amplitude n :
  let p := full_path hypot start end_ fraction_zigzag amplitude n in
  zigzag_part (fst p, snd p) n
  = points (zigzag hypot start end_ fraction_zigzag amplitude n).
Proof.
  cbv zeta.
  pose proof (length_zigzag start end_ fraction_zigzag amplitude n) as [Hx Hy].
  pose proof (length_lead_in start end_ fraction_zigzag) as [Hlx Hly].
  unfold zigzag_part, points. cbn [fst snd].
  rewrite full_path_fst, full_path_snd.
  rewrite combine_app by (rewrite !length_removelast; congruence).
  assert (Hl : length (combine (removelast (fst (lead_in start end_
                                                        fraction_zigzag)))
                               (removelast (snd (lead_in start end_
                                                        fraction_zigzag))))
               = 4%nat).
  { rewrite length_combine, !length_removelast, Hlx, Hly. reflexivity. }
  rewrite skipn_app, Hl. cbn [Nat.sub].
  rewrite skipn_all2 by lia. cbn [app skipn].
  rewrite combine_app by congruence.
  rewrite firstn_app.
  rewrite length_combine, Hx, Hy, Nat.min_id, Nat.sub_diag.
  cbn [firstn]. rewrite app_nil_r.
  apply firstn_all2. rewrite length_combine, Hx, Hy. lia.
Qed.


(** *** Dependence on [np.hypot] *)

Lemma full_path_ext (hypot' : F -> F -> F) (start end_ : pt)
      fraction_zigzag amplitude n :
  L_total hypot start end_ = L_total hypot' start end_ ->
  full_path hypot start end_ fraction_zigzag amplitude n
  = full_path hypot' start end_ fraction_zigzag amplitude n.
Proof.
  intros H. unfold full_path, zigzag, perp. unfold L_total in H.
  now rewrite H.
Qed.

End DrawZigzagFacts.

Section DrawZigzagHypot.

Context {F : Type} {AF : Arith F} {MEM : Memory}.
Local Open Scope arith_scope.

(** A call depends on [np.hypot] through the two lengths only. *)
Lemma draw_zigzag_ext (hypot hypot' : F -> F -> F) (start end_ : @point F)
      pitch fraction_zigzag amplitude c :
  L_total hypot start end_ = L_total hypot' start end_ ->
  L_zig hypot start end_ fraction_zigzag
    = L_zig hypot' start end_ fraction_zigzag ->
  draw_zigzag hypot start end_ pitch fraction_zigzag amplitude c
  = draw_zigzag hypot' start end_ pitch fraction_zigzag amplitude c.
Proof.
  intros Ht Hz. rewrite !draw_zigzag_eq.
  rewrite (n_half_ext hypot hypot' start end_ pitch fraction_zigzag Hz), Ht.
  destruct (n_half _ _ _ _ _) as [e|n]; [reflexivity|].
  now rewrite (full_path_ext hypot hypot' start end_ fraction_zigzag
                 amplitude n Ht).
Qed.

End DrawZigzagHypot.

(** ** plot_lattice_hex: what a call does *)

Section PlotLatticeHexFacts.

Context {F : Type} {AF : Arith F} {MEM : Memory}.
Variables cos sin : F -> F.
Local Open Scope arith_scope.

Lemma arange_succ n :
  (0 <= n)%Z -> arange_values (n + 1) = arange_values n ++ [n].
Proof.
  intros Hn. unfold arange_values.
  replace (Z.to_nat (n + 1)) with (S (Z.to_nat n)) by lia.
  rewrite seq_S, map_app. simpl. now rewrite Z2Nat.id.
Qed.

Lemma arange_nonpos n : (n <= 0)%Z -> arange_values n = [].
Proof.
  intros Hn. unfold arange_values.
  now replace (Z.to_nat n) with 0%nat by lia.
Qed.

Lemma length_regular_radii r_in h n :
  length (regular_radii r_in h n) = Z.to_nat (n + 1).
Proof. unfold regular_radii. now rewrite length_map, length_arange_values. Qed.

(** The outcome of the radii preparation, case by case. *)
Lemma prepare_radii_eq (r_in r_out h : F) c :
  prepare_radii r_in r_out h c =
  if h == 0 then (Raise ZeroDivisionError, c)
  else
    match int_floor ((r_out - r_in) / h) with
    | inl e => (Raise e, c)
    | inr n =>
        match refusal (n + 1) with
        | Some e => (Raise e, c)
        | None =>
            if (n <? 0)%Z then (Raise IndexError, c)
            else if last_regular r_in h n <? r_out then
              match refusal (n + 2) with
              | Some e => (Raise e, c)
              | None => (Ok (regular_radii r_in h n ++ [r_out]), c)
              end
            else (Ok (regular_radii r_in h n), c)
        end
    end.
Proof.
  unfold prepare_radii, py_div.
  destruct (h == 0); [reflexivity|].
  rewrite bind_ret.
  destruct (int_floor _) as [e|n]; [reflexivity|].
  rewrite bind_lift_inr, bind_arange.
  destruct (refusal (n + 1)); [reflexivity|].
  destruct (n <? 0)%Z eqn:En.
  - apply Z.ltb_lt in En. rewrite arange_nonpos by lia. reflexivity.
  - apply Z.ltb_ge in En.
    pose proof (length_regular_radii r_in h n) as Hl.
    unfold regular_radii in *. unfold last_regular.
    set (rv := map _ (arange_values (n + 1))) in *.
    assert (Hrev : rev rv
                   = (r_in + of_int n * h)
                     :: rev (map (fun k => r_in + of_int k * h)
                                 (arange_values n))).
    { subst rv. rewrite arange_succ, map_app, rev_app_distr by lia.
      reflexivity. }
    rewrite Hrev.
    destruct (_ <? _); [|reflexivity].
    rewrite append_eq, Hl.
    replace (Z.of_nat (Z.to_nat (n + 1)) + 1)%Z with (n + 2)%Z by lia.
    reflexivity.
Qed.

(** When the radii are computed they are [radii], and nothing is drawn. *)
Lemma prepare_radii_ok_inv (r_in r_out h : F) c r_values c' :
  prepare_radii r_in r_out h c = (Ok r_values, c') ->
  c' = c
  /\ exists n, int_floor ((r_out - r_in) / h) = inr n /\ (0 <= n)%Z
              /\ r_values = radii r_in r_out h n.
Proof.
  rewrite prepare_radii_eq.
  destruct (h == 0); [discriminate|].
  destruct (int_floor _) as [e|n]; [discriminate|].
  destruct (refusal (n + 1)); [discriminate|].
  destruct (n <? 0)%Z eqn:En; [discriminate|]. apply Z.ltb_ge in En.
  destruct (_ <? _) eqn:El.
  - destruct (refusal (n + 2)); [discriminate|].
    intros H; injection H as <- <-. split; [reflexivity|].
    exists n. split; [reflexivity|]. split; [assumption|].
    unfold radii. now rewrite El.
  - intros H; injection H as <- <-. split; [reflexivity|].
    exists n. split; [reflexivity|]. split; [assumption|].
    unfold radii. now rewrite El.
Qed.

(** The radii preparation does not draw. *)
Lemma prepare_radii_canvas (r_in r_out h : F) c r c' :
  prepare_radii r_in r_out h c = (r, c') -> c' = c.
Proof.
  rewrite prepare_radii_eq.
  destruct (h == 0); [intros H; now inversion H|].
  destruct (int_floor _); [intros H; now inversion H|].
  destruct (refusal _); [intros H; now inversion H|].
  destruct (_ <? _)%Z; [intros H; now inversion H|].
  destruct (_ <? _); [|intros H; now inversion H].
  destruct (refusal _); intros H; now inversion H.
Qed.

(** With room for the arrays the radii are computed. *)
Lemma prepare_radii_fits (r_in r_out h : F) n c :
  (h == 0) = false ->
  int_floor ((r_out - r_in) / h) = inr n -> (0 <= n)%Z ->
  fits (n + 2) = true ->
  prepare_radii r_in r_out h c = (Ok (radii r_in r_out h n), c).
Proof.
  intros Hh Hn H0 Hf. rewrite prepare_radii_eq, Hh, Hn.
  rewrite (refusal_fits _ (fits_le _ (n + 1) Hf ltac:(lia))).
  rewrite (refusal_fits _ Hf).
  destruct (n <? 0)%Z eqn:E; [apply Z.ltb_lt in E; lia|].
  unfold radii. destruct (_ <? _); reflexivity.
Qed.

Lemma radii_app r_in r_out h n :
  radii r_in r_out h n
  = regular_radii r_in h n
    ++ (if last_regular r_in h n <? r_out then [r_out] else []).
Proof.
  unfold radii. destruct (_ <? _); [reflexivity | now rewrite app_nil_r].
Qed.

Lemma final_regular_radius r_in h n :
  (0 <= n)%Z ->
  final_radius (regular_radii r_in h n) = Some (last_regular r_in h n).
Proof.
  intros Hn. unfold final_radius, regular_radii, last_regular.
  rewrite arange_succ, map_app, rev_app_distr by lia. reflexivity.
Qed.

(** The outermost boundary is [r_out] when it was appended, and the last
    regular radius otherwise. *)
Lemma final_radius_radii r_in r_out h n :
  (0 <= n)%Z ->
  final_radius (radii r_in r_out h n)
  = Some (if last_regular r_in h n <? r_out then r_out
          else last_regular r_in h n).
Proof.
  intros Hn. unfold radii. destruct (_ <? _).
  - unfold final_radius. rewrite rev_app_distr. reflexivity.
  - now apply final_regular_radius.
Qed.

(** The ways an iteration of the ring loop can end, all of them after the
    two arcs. *)
Lemma ring_eq w angle_start angle_end angles_fine r_values i c :
  let r1 := nth i r_values 0 in
  let r2 := nth (i + 1) r_values 0 in
  let c2 := c ++ [arc cos sin angles_fine r1; arc cos sin angles_fine r2] in
  ring cos sin w angle_start angle_end angles_fine r_values i c =
  match n_arc w angle_start angle_end (half * (r1 + r2)) with
  | inl e => (Raise e, c2)
  | inr n =>
      if (n =? 0)%Z then (Raise ZeroDivisionError, c2)
      else if (n <? 0)%Z then (Raise ValueError, c2)
      else
        match refusal n with
        | Some e => (Raise e, c2)
        | None =>
            match refusal (2 * n) with
            | Some e => (Raise e, c2)
            | None =>
                (Ok tt,
                 c2 ++ [struts cos sin r1 r2
                          (linspace_samples angle_start angle_end n false);
                        closing_radius cos sin r1 r2 angle_start;
                        closing_radius cos sin r1 r2 angle_end])
            end
        end
  end.
Proof.
  cbv zeta.
  unfold ring, draw_arc, arc, bind at 1 2, ax_plot at 1 2.
  rewrite <- app_assoc. simpl app.
  destruct (n_arc _ _ _ _) as [e1|n];
    [rewrite bind_lift_inl|rewrite bind_lift_inr].
  { reflexivity. }
  unfold bind at 1, py_div_int.
  destruct (n =? 0)%Z; [reflexivity|].
  unfold ret at 1, bind at 1. rewrite linspace_eq.
  destruct (n <? 0)%Z eqn:En; [reflexivity|]. apply Z.ltb_ge in En.
  destruct (refusal n); [reflexivity|].
  rewrite bind_outer.
  rewrite length_map, length_linspace_samples. cbn [length].
  replace (Z.of_nat (2 * Z.to_nat n)) with (2 * n)%Z by lia.
  destruct (refusal (2 * n)) eqn:E2; [reflexivity|].
  rewrite bind_outer.
  rewrite length_map, length_linspace_samples. cbn [length].
  replace (Z.of_nat (2 * Z.to_nat n)) with (2 * n)%Z by lia.
  rewrite E2.
  unfold ret, bind, ax_plot_columns, ax_plot, struts, closing_radius.
  rewrite <- !app_assoc. reflexivity.
Qed.

(** An exception raised by an iteration of the ring loop leaves the two
    boundary arcs of that ring on the canvas. *)
Lemma ring_raise w angle_start angle_end angles_fine r_values i c e c' :
  ring cos sin w angle_start angle_end angles_fine r_values i c
    = (Raise e, c') ->
  c' = c ++ [arc cos sin angles_fine (nth i r_values 0);
             arc cos sin angles_fine (nth (i + 1) r_values 0)].
Proof.
  rewrite ring_eq. cbv zeta.
  destruct (n_arc _ _ _ _) as [e1|n]; [intros H; now inversion H|].
  destruct (n =? 0)%Z; [intros H; now inversion H|].
  destruct (n <? 0)%Z; [intros H; now inversion H|].
  destruct (refusal n); [intros H; now inversion H|].
  destruct (refusal (2 * n)); [intros H; now inversion H|].
  discriminate.
Qed.

(** An iteration completes exactly when its strut count is a positive
    integer and the arrays of its struts fit, and then it has appended
    five calls. *)
Lemma ring_ok_inv w angle_start angle_end angles_fine r_values i c c' :
  ring cos sin w angle_start angle_end angles_fine r_values i c
    = (Ok tt, c') ->
  (exists n, (0 < n)%Z
             /\ n_arc w angle_start angle_end
                  (half * (nth i r_values 0 + nth (i + 1) r_values 0))
                = inr n)
  /\ length c' = (length c + 5)%nat.
Proof.
  rewrite ring_eq. cbv zeta.
  destruct (n_arc _ _ _ _) as [e|n]; [discriminate|].
  destruct (n =? 0)%Z eqn:E0; [discriminate|].
  destruct (n <? 0)%Z eqn:E1; [discriminate|].
  destruct (refusal n); [discriminate|].
  destruct (refusal (2 * n)); [discriminate|].
  intros H. injection H as <-.
  apply Z.eqb_neq in E0. apply Z.ltb_ge in E1.
  split; [exists n; split; [lia|reflexivity]|].
  rewrite !length_app. simpl. lia.
Qed.


Lemma ring_ok_intro w angle_start angle_end angles_fine r_values i n c :
  n_arc w angle_start angle_end
    (half * (nth i r_values 0 + nth (i + 1) r_values 0)) = inr n ->
  (0 < n)%Z -> fits (2 * n) = true ->
  exists c',
    ring cos sin w angle_start angle_end angles_fine r_values i c
    = (Ok tt, c').
Proof.
  intros H Hn Hf. rewrite ring_eq. cbv zeta. rewrite H.
  destruct (n =? 0)%Z eqn:E0; [apply Z.eqb_eq in E0; lia|].
  destruct (n <? 0)%Z eqn:E1; [apply Z.ltb_lt in E1; lia|].
  rewrite (refusal_fits _ (fits_le _ n Hf ltac:(lia))), (refusal_fits _ Hf).
  eauto.
Qed.




(** A loop that completes: every iteration completed. *)
Lemma for_range_from_ok_inv (body : nat -> M F unit) (P : nat -> Prop) k :
  (forall i c c', body i c = (Ok tt, c') ->
                  P i /\ length c' = (length c + k)%nat) ->
  forall n i c c',
    for_range_from i n body c = (Ok tt, c') ->
    (forall j, (i <= j < i + n)%nat -> P j)
    /\ length c' = (length c + k * n)%nat.
Proof.
  intros Hbody. induction n as [|n IH]; intros i c c' H.
  - injection H as <-. split; [intros j Hj; lia | lia].
  - simpl in H. unfold bind in H.
    destruct (body i c) as [[[]|e1] c1] eqn:E; [|discriminate].
    apply Hbody in E. destruct E as [Pi Hl].
    apply IH in H. destruct H as [Hall Hlen].
    split.
    + intros j Hj. destruct (Nat.eq_dec j i) as [->|Hne]; [assumption|].
      apply Hall. lia.
    + rewrite Hlen, Hl. lia.
Qed.

(** A loop all of whose iterations complete on every canvas completes. *)
Lemma for_range_from_ok_intro (body : nat -> M F unit) :
  forall n i c,
    (forall j, (i <= j < i + n)%nat ->
               forall c0, exists c1, body j c0 = (Ok tt, c1)) ->
    exists c', for_range_from i n body c = (Ok tt, c').
Proof.
  induction n as [|n IH]; intros i c H.
  - exists c. reflexivity.
  - simpl. unfold bind.
    destruct (H i ltac:(lia) c) as [c1 ->].
    apply IH. intros j Hj. apply H. lia.
Qed.

(** The call once the angle range is valid and the radii are there. *)
Lemma plot_lattice_hex_loop r_in r_out h w angle_start angle_end c r_values :
  (angle_start >=? angle_end) = false ->
  prepare_radii r_in r_out h c = (Ok r_values, c) ->
  plot_lattice_hex cos sin r_in r_out h w angle_start angle_end c
  = for_range (length r_values - 1)
      (ring cos sin w angle_start angle_end
            (linspace_samples angle_start angle_end 300 true) r_values) c.
Proof.
  intros Ha Hp. unfold plot_lattice_hex. rewrite Ha.
  unfold bind at 1. rewrite Hp.
  unfold bind. rewrite linspace_ok by (try apply fits_small; cbv; congruence).
  reflexivity.
Qed.


End PlotLatticeHexFacts.

(** ** binary64 arithmetic *)

Module B64Facts.

Import B64.
Local Open Scope float_scope.

Lemma SFeqb_refl x : SF_finite x = true -> SFeqb x x = true.
Proof.
  destruct x as [s|s| |s m e]; simpl; try discriminate; auto.
  intros _. unfold SFeqb, SFcompare.
  destruct s; rewrite Z.compare_refl, Pos.compare_cont_refl; reflexivity.
Qed.

Lemma SFeqb_zero_r x z : SF_zero z = true -> SFeqb x z = SF_zero x.
Proof.
  destruct z; try discriminate. intros _.
  destruct x as [s'|s'| |s' m e]; try reflexivity.
  - destruct s'; reflexivity.
  - unfold SFeqb; simpl. destruct s'; reflexivity.
Qed.

Lemma eqb_zero x : (x =? 0) = SF_zero (Prim2SF x).
Proof. rewrite eqb_spec. apply SFeqb_zero_r. reflexivity. Qed.

Lemma SFeqb_finite_inv a b :
  SF_finite a = true -> SFeqb b a = true ->
  (SF_zero a = true /\ SF_zero b = true) \/ (SF_zero a = false /\ b = a).
Proof.
  destruct a as [s|s| |s m e]; try discriminate; intros _.
  - rewrite SFeqb_zero_r by reflexivity. auto.
  - destruct b as [s'|s'| |s' m' e']; unfold SFeqb; simpl;
      try discriminate; try (destruct s'; destruct s; discriminate).
    right. split; [reflexivity|].
    destruct s', s; try discriminate;
      destruct (Z.compare_spec e' e); try discriminate; subst;
      destruct (Pos.compare_cont Eq m' m) eqn:E; try discriminate;
      apply Pcompare_Eq_eq in E; subst; reflexivity.
Qed.

Lemma SFsub_diag a : SF_finite a = true -> SF_zero (SF64sub a a) = true.
Proof.
  destruct a as [s|s| |s m e]; try discriminate; intros _.
  - destruct s; reflexivity.
  - unfold SF64sub, SFsub. rewrite Z.sub_diag. reflexivity.
Qed.


Lemma SFltb_zero_r x z : SF_zero z = true -> SFltb x z = SF_neg x.
Proof.
  destruct z; try discriminate. intros _.
  destruct x as [s'|s'| |s' m e]; unfold SFltb; simpl; try reflexivity;
    destruct s'; reflexivity.
Qed.

Lemma ltb_zero x : (x <? 0) = SF_neg (Prim2SF x).
Proof. rewrite ltb_spec. apply SFltb_zero_r. reflexivity. Qed.

Lemma SFleb_zero_r x z : SF_zero z = true -> SFleb x z = SF_neg x || SF_zero x.
Proof.
  destruct z; try discriminate. intros _.
  destruct x as [s'|s'| |s' m e]; unfold SFleb; simpl; try reflexivity;
    destruct s'; reflexivity.
Qed.

Lemma leb_zero x : (x <=? 0) = SF_neg (Prim2SF x) || SF_zero (Prim2SF x).
Proof. rewrite leb_spec. apply SFleb_zero_r. reflexivity. Qed.

(** The result of the rounding step carries the sign it is given. *)
Lemma binary_round_aux_sign s m e l :
  let r := binary_round_aux prec emax s m e l in
  r = S754_nan \/ r = S754_zero s \/ r = S754_infinity s
  \/ exists m' e', r = S754_finite s m' e'.
Proof.
  cbv zeta. unfold binary_round_aux.
  destruct (shr_fexp _ _ _ _ _) as [mrs' e'].
  destruct (shr_fexp _ _ _ _ _) as [mrs'' e''].
  destruct (shr_m mrs'') as [|p|p].
  - right; left; reflexivity.
  - destruct (Z.leb _ _).
    + right; right; right. eauto.
    + right; right; left. reflexivity.
  - left; reflexivity.
Qed.

Lemma SFmul_zero_l z y :
  SF_zero z = true -> SF_finite y = true -> SF_zero (SF64mul z y) = true.
Proof. destruct z, y; try discriminate; reflexivity. Qed.

Lemma SFmul_zero_r y z :
  SF_zero z = true -> SF_finite y = true -> SF_zero (SF64mul y z) = true.
Proof. destruct z, y; try discriminate; reflexivity. Qed.

Lemma SFadd_zero_r a z :
  SF_finite a = true -> SF_zero z = true -> SFeqb (SF64add a z) a = true.
Proof.
  destruct z as [sz| | |]; try discriminate.
  destruct a as [s|s| |s m e]; try discriminate; intros _ _.
  - destruct s, sz; reflexivity.
  - simpl. apply SFeqb_refl. reflexivity.
Qed.

Lemma SFsub_eq_zero a b c :
  SF_finite a = true -> SFeqb b a = true -> SFeqb c a = true ->
  SF_zero (SF64sub b c) = true.
Proof.
  intros Ha Hb Hc.
  destruct (SFeqb_finite_inv _ _ Ha Hb) as [[Za Zb]|[Za ->]];
    destruct (SFeqb_finite_inv _ _ Ha Hc) as [[Za' Zc]|[Za' ->]];
    try congruence.
  - destruct b as [[]| | |], c as [[]| | |]; try discriminate; reflexivity.
  - now apply SFsub_diag.
Qed.

Lemma SFdiv_zero_l z p :
  SF_zero z = true -> SF_zero p = false -> SF_nan p = false ->
  SF_zero (SF64div z p) = true.
Proof. destruct z, p; try discriminate; reflexivity. Qed.

Lemma SFdiv_zero_r a p :
  SF_zero p = true -> SF_finite (SF64div a p) = false.
Proof. destruct p, a; try discriminate; reflexivity. Qed.

(** A quotient is positive and finite only if both operands are finite,
    non-zero and of the same sign. *)
Lemma SFdiv_posfin x y :
  SF_posfin (SF64div x y) = true ->
  exists sx mx ex sy my ey,
    x = S754_finite sx mx ex /\ y = S754_finite sy my ey /\ xorb sx sy = false.
Proof.
  destruct x as [sx|sx| |sx mx ex], y as [sy|sy| |sy my ey];
    try (simpl; discriminate).
  unfold SF64div, SFdiv.
  destruct (SFdiv_core_binary _ _ _ _ _ _) as [[mz ez] lz].
  intros H. exists sx, mx, ex, sy, my, ey. do 2 (split; [reflexivity|]).
  destruct (binary_round_aux_sign (xorb sx sy) mz ez lz)
    as [E|[E|[E|(m' & e' & E)]]]; rewrite E in H; try discriminate.
  destruct (xorb sx sy); [discriminate | reflexivity].
Qed.

Lemma floor_spec_pos q k :
  floor_spec q = inr k -> (0 < k)%Z -> SF_posfin q = true.
Proof.
  destruct q as [s|s| |s m e]; simpl; try discriminate.
  - intros H; injection H as <-. lia.
  - intros H; injection H as <-. destruct s; [|reflexivity].
    simpl. intros Hk. exfalso.
    assert (0 <= Z.shiftl (Z.neg m) e)%Z as H0 by lia.
    apply Z.shiftl_nonneg in H0. lia.
Qed.

Lemma binary_round_sign s m e :
  let r := binary_round prec emax s m e in
  r = S754_nan \/ r = S754_zero s \/ r = S754_infinity s
  \/ exists m' e', r = S754_finite s m' e'.
Proof.
  cbv zeta. unfold binary_round.
  destruct (shl_align _ _ _) as [mz ez].
  apply binary_round_aux_sign.
Qed.

Lemma binary_normalize_nonneg z e sz :
  (0 <= z)%Z -> SF_neg (binary_normalize prec emax z e sz) = false.
Proof.
  destruct z as [|p|p]; intros Hz; [reflexivity| |lia].
  simpl.
  destruct (binary_round_sign false p e) as [E|[E|[E|(m' & e' & E)]]];
    rewrite E; reflexivity.
Qed.

Lemma SFadd_neg x y :
  SF_neg (SF64add x y) = true -> SF_neg x = true \/ SF_neg y = true.
Proof.
  destruct x as [[]|[]| |[] mx ex], y as [[]|[]| |[] my ey];
    try (left; reflexivity); try (right; reflexivity);
    try (simpl; discriminate).
  unfold SF64add, SFadd. rewrite binary_normalize_nonneg; [discriminate|].
  simpl. lia.
Qed.

Lemma SFmul_posfin_neg x y :
  SF_posfin x = true -> SF_neg (SF64mul x y) = true -> SF_neg y = true.
Proof.
  destruct x as [sx|sx| |[] mx ex]; try discriminate. intros _.
  destruct y as [sy|sy| |sy my ey]; [simpl; auto ..|].
  unfold SF64mul, SFmul.
  destruct (binary_round_aux_sign (xorb false sy) (Z.pos (mx * my)) (ex + ey)
              loc_Exact) as [E|[E|[E|(m' & e' & E)]]];
    rewrite E; simpl; destruct sy; auto.
Qed.

(** *** Order and subtraction of valid floats *)

Lemma digits2_size m : digits2_pos m = Pos.size m.
Proof. induction m; simpl; congruence. Qed.

Lemma valid_bounds m e :
  bounded prec emax m e = true ->
  (Z.pos m < 2 ^ 53 /\ -1074 <= e
   /\ (-1074 < e -> 2 ^ 52 <= Z.pos m))%Z.
Proof.
  unfold bounded, canonical_mantissa, fexp, emin, prec, emax.
  intros H. apply andb_prop in H. destruct H as [H _].
  apply Z.eqb_eq in H. rewrite digits2_size in H.
  pose proof (Pos.size_gt m) as Hgt. pose proof (Pos.size_le m) as Hle.
  assert (Hgt' : (Z.pos m < 2 ^ Z.pos (Pos.size m))%Z).
  { rewrite <- Pos2Z.inj_pow. now apply Pos2Z.pos_lt_pos. }
  assert (Hle' : (2 ^ Z.pos (Pos.size m) <= 2 * Z.pos m)%Z).
  { rewrite <- Pos2Z.inj_pow. change (2 * Z.pos m)%Z with (Z.pos m~0).
    now apply Pos2Z.pos_le_pos. }
  set (d := Z.pos (Pos.size m)) in *.
  assert (0 < d)%Z by (subst d; lia).
  split; [|split].
  - assert (d <= 53)%Z by lia.
    apply Z.lt_le_trans with (1 := Hgt').
    apply Z.pow_le_mono_r; lia.
  - lia.
  - intros He. assert (d = 53)%Z as Hd by lia. rewrite Hd in Hle'.
    change (2 ^ 53)%Z with (2 * 2 ^ 52)%Z in Hle'. lia.
Qed.

Lemma iter_xO m d : Z.pos (Pos.iter xO m d) = (Z.pos m * 2 ^ Z.pos d)%Z.
Proof.
  revert m. induction d using Pos.peano_ind; intros m.
  - simpl Pos.iter. rewrite Pos2Z.inj_xO. change (2 ^ 1)%Z with 2%Z. ring.
  - rewrite Pos.iter_succ, Pos2Z.inj_succ, Z.pow_succ_r by lia.
    rewrite Pos2Z.inj_xO, IHd. ring.
Qed.

Lemma shl_align_fst m e ez :
  (ez <= e)%Z -> Z.pos (fst (shl_align m e ez)) = (Z.pos m * 2 ^ (e - ez))%Z.
Proof.
  intros H. unfold shl_align.
  destruct (ez - e)%Z as [|p|p] eqn:E; try lia.
  - replace (e - ez)%Z with 0%Z by lia. cbn [fst]. rewrite Z.pow_0_r. ring.
  - cbn [fst]. rewrite iter_xO. f_equal. f_equal. lia.
Qed.

Lemma pow2_ge_2 k : (0 < k)%Z -> (2 <= 2 ^ k)%Z.
Proof.
  intros Hk. change 2%Z with (2 ^ 1)%Z at 1. apply Z.pow_le_mono_r; lia.
Qed.

(** On valid finite floats [SFcompare] agrees with the order of the
    mantissas once aligned on the smaller exponent. *)
Lemma SFcompare_lt_aligned sa ma ea sb mb eb :
  bounded prec emax ma ea = true -> bounded prec emax mb eb = true ->
  SFcompare (S754_finite sa ma ea) (S754_finite sb mb eb) = Some Lt ->
  (cond_Zopp sa (Z.pos (fst (shl_align ma ea (Z.min eb ea))))
   < cond_Zopp sb (Z.pos (fst (shl_align mb eb (Z.min eb ea)))))%Z.
Proof.
  intros Va Vb H.
  apply valid_bounds in Va, Vb.
  destruct Va as (Ha1 & Ha2 & Ha3), Vb as (Hb1 & Hb2 & Hb3).
  rewrite !shl_align_fst by lia.
  assert (Pa : (0 < 2 ^ (ea - Z.min eb ea))%Z) by (apply Z.pow_pos_nonneg; lia).
  assert (Pb : (0 < 2 ^ (eb - Z.min eb ea))%Z) by (apply Z.pow_pos_nonneg; lia).
  simpl in H.
  destruct sa, sb; cbv [cond_Zopp]; try discriminate.
  - (* both negative *)
    destruct (Z.compare_spec ea eb) as [E|E|E]; try discriminate.
    + subst eb. rewrite Z.min_id, Z.sub_diag, Z.pow_0_r.
      change (Pos.compare_cont Eq ma mb) with (ma ?= mb)%positive in H.
      destruct (Pos.compare_spec ma mb); simpl in H; try discriminate. lia.
    + rewrite Z.min_l by lia. rewrite Z.sub_diag, Z.pow_0_r.
      pose proof (pow2_ge_2 (ea - eb)) as P2. specialize (Ha3 ltac:(lia)).
      change (2 ^ 53)%Z with (2 * 2 ^ 52)%Z in Hb1.
      assert (2 * Z.pos ma <= Z.pos ma * 2 ^ (ea - eb))%Z by nia.
      lia.
  - assert (0 < Z.pos ma * 2 ^ (ea - Z.min eb ea))%Z by nia.
    assert (0 < Z.pos mb * 2 ^ (eb - Z.min eb ea))%Z by nia.
    lia.
  - (* both positive *)
    destruct (Z.compare_spec ea eb) as [E|E|E]; try discriminate.
    + subst eb. rewrite Z.min_id, Z.sub_diag, Z.pow_0_r.
      change (Pos.compare_cont Eq ma mb) with (ma ?= mb)%positive in H.
      destruct (Pos.compare_spec ma mb); simpl in H; try discriminate. lia.
    + rewrite Z.min_r by lia. rewrite Z.sub_diag, Z.pow_0_r.
      pose proof (pow2_ge_2 (eb - ea)) as P2. specialize (Hb3 ltac:(lia)).
      change (2 ^ 53)%Z with (2 * 2 ^ 52)%Z in Ha1.
      assert (2 * Z.pos mb <= Z.pos mb * 2 ^ (eb - ea))%Z by nia.
      lia.
Qed.

(** If [a < b] then [b - a] is not negative (it may be rounded, never
    past zero). *)
Lemma SFsub_lt_not_neg a b :
  valid_binary a = true -> valid_binary b = true ->
  SFltb a b = true -> SF_neg (SF64sub b a) = false.
Proof.
  intros Va Vb H. unfold SFltb in H.
  destruct a as [sa|sa| |sa ma ea], b as [sb|sb| |sb mb eb];
    simpl in H; try discriminate;
    try (destruct sa; try discriminate; destruct sb; try discriminate;
         reflexivity);
    try (destruct sa; try discriminate; reflexivity);
    try (destruct sb; try discriminate; reflexivity).
  unfold SF64sub, SFsub. apply binary_normalize_nonneg.
  assert (SFcompare (S754_finite sa ma ea) (S754_finite sb mb eb) = Some Lt)
    as Hc.
  { simpl. destruct sa, sb; try discriminate; try reflexivity;
      destruct (ea ?= eb)%Z; try discriminate; try reflexivity;
      destruct (Pos.compare_cont Eq ma mb); try discriminate; reflexivity. }
  pose proof (SFcompare_lt_aligned _ _ _ _ _ _ Va Vb Hc). lia.
Qed.

Lemma sub_lt_not_neg a b : (a <? b) = true -> (b - a <? 0) = false.
Proof.
  rewrite ltb_spec, ltb_zero, sub_spec.
  apply SFsub_lt_not_neg; apply Prim2SF_valid.
Qed.

(** A quotient is negative and finite only if both operands are finite,
    non-zero and of opposite signs. *)
Lemma SFdiv_negfin x y :
  SF_negfin (SF64div x y) = true ->
  exists sx mx ex sy my ey,
    x = S754_finite sx mx ex /\ y = S754_finite sy my ey /\ xorb sx sy = true.
Proof.
  destruct x as [sx|sx| |sx mx ex], y as [sy|sy| |sy my ey];
    try (simpl; discriminate).
  unfold SF64div, SFdiv.
  destruct (SFdiv_core_binary _ _ _ _ _ _) as [[mz ez] lz].
  intros H. exists sx, mx, ex, sy, my, ey. do 2 (split; [reflexivity|]).
  destruct (binary_round_aux_sign (xorb sx sy) mz ez lz)
    as [E|[E|[E|(m' & e' & E)]]]; rewrite E in H; try discriminate.
  destruct (xorb sx sy); [reflexivity | discriminate].
Qed.

Lemma floor_spec_neg q k :
  floor_spec q = inr k -> (k < 0)%Z -> SF_negfin q = true.
Proof.
  destruct q as [s|s| |s m e]; simpl; try discriminate.
  - intros H; injection H as <-. lia.
  - intros H; injection H as <-. destruct s; [reflexivity|].
    simpl. intros Hk. exfalso.
    assert (0 <= Z.shiftl (Z.pos m) e)%Z; [|lia].
    apply Z.shiftl_nonneg. lia.
Qed.

(** *** The same facts on primitive floats *)

Lemma of_Z_0 : of_Z 0 = 0.
Proof. reflexivity. Qed.

Lemma of_Z_1 : of_Z 1 = 1.
Proof. reflexivity. Qed.

Lemma finite_eqb_refl x : finite x = true -> (x =? x) = true.
Proof. rewrite eqb_spec. apply SFeqb_refl. Qed.

Lemma eqb_finite a b : finite a = true -> (b =? a) = true -> finite b = true.
Proof.
  unfold finite. rewrite eqb_spec. intros Ha Hb.
  destruct (SFeqb_finite_inv _ _ Ha Hb) as [[_ Zb]|[_ ->]]; [|assumption].
  destruct (Prim2SF b); try discriminate; reflexivity.
Qed.

Lemma mul_zero_l z y :
  (z =? 0) = true -> finite y = true -> (z * y =? 0) = true.
Proof.
  rewrite !eqb_zero, mul_spec. intros; now apply SFmul_zero_l.
Qed.

Lemma mul_zero_r y z :
  finite y = true -> (z =? 0) = true -> (y * z =? 0) = true.
Proof.
  rewrite !eqb_zero, mul_spec. intros; now apply SFmul_zero_r.
Qed.

Lemma add_zero_r a z :
  finite a = true -> (z =? 0) = true -> (a + z =? a) = true.
Proof.
  rewrite eqb_zero, eqb_spec, add_spec. intros; now apply SFadd_zero_r.
Qed.

Lemma sub_eqb_zero a b c :
  finite a = true -> (b =? a) = true -> (c =? a) = true ->
  (b - c =? 0) = true.
Proof.
  rewrite eqb_zero, !eqb_spec, sub_spec. apply SFsub_eq_zero.
Qed.

(** [x + 0 * y] is [x]: the first sample of an interpolation. *)
Lemma add_zero_mul x y :
  finite x = true -> finite y = true -> (x + 0 * y =? x) = true.
Proof.
  intros Hx Hy. apply add_zero_r; [assumption|].
  apply mul_zero_l; [reflexivity | assumption].
Qed.

Lemma floor_div_zero z p :
  (z =? 0) = true -> (p =? 0) = false -> (p =? p) = true ->
  floor_int (z / p) = inr 0%Z.
Proof.
  rewrite !eqb_zero. rewrite eqb_spec. unfold floor_int. rewrite div_spec.
  intros Hz Hp Hn.
  assert (SF_zero (SF64div (Prim2SF z) (Prim2SF p)) = true) as H.
  { apply SFdiv_zero_l; [assumption..|].
    destruct (Prim2SF p); try reflexivity; discriminate. }
  destruct (SF64div _ _); try discriminate. reflexivity.
Qed.

(** Division by zero never gives a finite quotient: the integer conversion
    raises. *)
Lemma floor_div_by_zero a p :
  (p =? 0) = true -> exists e, floor_int (a / p) = inl e.
Proof.
  rewrite eqb_zero. unfold floor_int. rewrite div_spec. intros Hp.
  pose proof (SFdiv_zero_r (Prim2SF a) _ Hp) as H.
  destruct (SF64div _ _); try discriminate; simpl; eauto.
Qed.

Lemma floor_not_posfin q k :
  SF_posfin (Prim2SF q) = false -> floor_int q = inr k -> (k <= 0)%Z.
Proof.
  unfold floor_int. intros Hq Hk.
  destruct (Z_le_gt_dec k 0) as [|Hpos]; [assumption|].
  rewrite (floor_spec_pos _ _ Hk) in Hq by lia. discriminate.
Qed.

(** A non-negative dividend over a negative divisor. *)
Lemma div_nonneg_neg a b :
  (a <? 0) = false -> (b <? 0) = true -> SF_posfin (Prim2SF (a / b)) = false.
Proof.
  rewrite !ltb_zero, div_spec. intros Ha Hb.
  destruct (SF_posfin _) eqn:E; [|reflexivity].
  apply SFdiv_posfin in E.
  destruct E as (sx & mx & ex & sy & my & ey & Ex & Ey & Hs).
  rewrite Ex in Ha. rewrite Ey in Hb. simpl in Ha, Hb.
  destruct sx, sy; discriminate.
Qed.

(** A non-positive dividend over a non-negative divisor. *)
Lemma div_nonpos_nonneg w r :
  (w <=? 0) = true -> (r <? 0) = false -> SF_posfin (Prim2SF (w / r)) = false.
Proof.
  rewrite leb_zero, ltb_zero, div_spec. intros Hw Hr.
  destruct (SF_posfin _) eqn:E; [|reflexivity].
  apply SFdiv_posfin in E.
  destruct E as (sx & mx & ex & sy & my & ey & Ex & Ey & Hs).
  rewrite Ex in Hw. rewrite Ey in Hr. simpl in Hw, Hr.
  destruct sx, sy; discriminate.
Qed.

(** A non-negative dividend over a divisor that is not positive finite. *)
Lemma div_nonneg_not_posfin R d :
  (R <? 0) = false -> SF_posfin (Prim2SF d) = false ->
  SF_posfin (Prim2SF (R / d)) = false.
Proof.
  rewrite ltb_zero, div_spec. intros HR Hd.
  destruct (SF_posfin (SF64div _ _)) eqn:E; [|reflexivity].
  apply SFdiv_posfin in E.
  destruct E as (sx & mx & ex & sy & my & ey & Ex & Ey & Hs).
  rewrite Ex in HR. rewrite Ey in Hd. simpl in HR, Hd.
  destruct sx, sy; discriminate.
Qed.

(** A non-negative dividend over a positive divisor floors to a
    non-negative integer. *)
Lemma floor_div_nonneg a b k :
  (a <? 0) = false -> (0 <? b) = true ->
  floor_int (a / b) = inr k -> (0 <= k)%Z.
Proof.
  rewrite ltb_zero, ltb_spec. unfold floor_int. rewrite div_spec.
  change (Prim2SF 0) with (S754_zero false).
  intros Ha Hb Hk.
  destruct (Z_lt_ge_dec k 0) as [Hneg|]; [|lia].
  apply (floor_spec_neg _ _ Hk) in Hneg. apply SFdiv_negfin in Hneg.
  destruct Hneg as (sx & mx & ex & sy & my & ey & Ex & Ey & Hs).
  rewrite Ex in Ha. rewrite Ey in Hb. unfold SFltb in Hb. simpl in Ha, Hb.
  destruct sx, sy; discriminate.
Qed.

Lemma pos_not_zero b : (0 <? b) = true -> (b =? 0) = false.
Proof.
  rewrite ltb_spec, eqb_zero. change (Prim2SF 0) with (S754_zero false).
  unfold SFltb. destruct (Prim2SF b) as [s|s| |s m e]; simpl;
    try discriminate; reflexivity.
Qed.

(** The mean radius of two non-negative radii is not negative. *)
Lemma mean_not_neg r1 r2 :
  (r1 <? 0) = false -> (r2 <? 0) = false ->
  (0.5 * (r1 + r2) <? 0) = false.
Proof.
  rewrite !ltb_zero, mul_spec, add_spec. intros H1 H2.
  destruct (SF_neg (SF64mul _ _)) eqn:E; [|reflexivity].
  apply SFmul_posfin_neg in E; [|reflexivity].
  apply SFadd_neg in E. destruct E; congruence.
Qed.

End B64Facts.

(** ** Division in binary64 is correctly rounded, hence monotone *)

Module Round64Facts.

Import B64 B64Facts Round64.
Local Open Scope Z_scope.

(** ** Rounding to nearest, ties to even, of a fraction *)

Lemma shr_1_m rec :
  0 <= shr_m rec -> shr_m (shr_1 rec) = shr_m rec / 2.
Proof.
  destruct rec as [m r s]. simpl. intros Hm.
  destruct m as [|[p|p|]|p]; simpl; try lia; try reflexivity.
  - rewrite Pos2Z.inj_xI. symmetry.
    replace (2 * Z.pos p + 1) with (1 + Z.pos p * 2) by ring.
    rewrite Z.div_add by lia. reflexivity.
  - rewrite Pos2Z.inj_xO. symmetry.
    replace (2 * Z.pos p) with (Z.pos p * 2) by ring.
    apply Z.div_mul. lia.
Qed.

Lemma shr_1_r rec :
  0 <= shr_m rec -> shr_r (shr_1 rec) = Z.odd (shr_m rec).
Proof.
  destruct rec as [m r s]. simpl. intros Hm.
  destruct m as [|[p|p|]|p]; simpl; try lia; reflexivity.
Qed.

Lemma shr_1_s rec :
  0 <= shr_m rec -> shr_s (shr_1 rec) = shr_r rec || shr_s rec.
Proof.
  destruct rec as [m r s]. simpl. intros Hm.
  destruct m as [|[p|p|]|p]; simpl; try lia; reflexivity.
Qed.

Lemma shr_1_located A B rec :
  0 <= A -> 0 < B -> located A B rec -> located A (B * 2) (shr_1 rec).
Proof.
  intros HA HB (Hm & Hr & Hs).
  assert (Hq : 0 <= A / B) by (apply Z.div_pos; lia).
  assert (Hm0 : 0 <= shr_m rec) by lia.
  pose proof (Z.mod_pos_bound A B HB) as Hrho.
  pose proof (Z.mod_pos_bound (A / B) 2 ltac:(lia)) as Hbit.
  assert (Hmod : A mod (B * 2) = A mod B + B * ((A / B) mod 2))
    by (apply Z.rem_mul_r; lia).
  assert (Hodd : Z.odd (A / B) = ((A / B) mod 2 =? 1)).
  { rewrite Zmod_odd. destruct (Z.odd (A / B)); reflexivity. }
  unfold located.
  rewrite shr_1_m, shr_1_r, shr_1_s by assumption.
  rewrite Hm, Hr, Hs, Hmod, Hodd.
  assert (Hcase : (A / B) mod 2 = 0 \/ (A / B) mod 2 = 1) by lia.
  split; [|split].
  - apply Z.div_div; lia.
  - destruct Hcase as [E|E]; rewrite E; simpl Z.eqb;
      match goal with |- _ = (?a <=? ?b) => destruct (Z.leb_spec a b) end;
      try reflexivity; exfalso; lia.
  - destruct Hcase as [E|E]; rewrite E;
      repeat match goal with
        | |- context [?a <=? ?b] => destruct (Z.leb_spec a b)
        | |- context [?a =? ?b] => destruct (Z.eqb_spec a b)
        end;
      simpl; try reflexivity; exfalso; lia.
Qed.

Lemma iter_shr_located p :
  forall A B rec,
    0 <= A -> 0 < B -> located A B rec ->
    located A (B * 2 ^ Z.pos p) (iter_pos shr_1 p rec).
Proof.
  induction p as [p IH|p IH|]; intros A B rec HA HB H; simpl iter_pos.
  - assert (H1 : located A (B * 2) (shr_1 rec)) by now apply shr_1_located.
    assert (P : 0 < 2 ^ Z.pos p) by (apply Z.pow_pos_nonneg; lia).
    apply IH in H1; [|lia|lia]. apply IH in H1; [|lia|nia].
    replace (B * 2 ^ Z.pos p~1) with (B * 2 * 2 ^ Z.pos p * 2 ^ Z.pos p);
      [exact H1|].
    rewrite (Pos2Z.inj_xI p).
    replace (2 * Z.pos p + 1) with (1 + Z.pos p + Z.pos p) by ring.
    rewrite !Z.pow_add_r by lia. ring.
  - assert (P : 0 < 2 ^ Z.pos p) by (apply Z.pow_pos_nonneg; lia).
    apply IH in H; [|lia|lia]. apply IH in H; [|lia|nia].
    replace (B * 2 ^ Z.pos p~0) with (B * 2 ^ Z.pos p * 2 ^ Z.pos p);
      [exact H|].
    rewrite (Pos2Z.inj_xO p).
    replace (2 * Z.pos p) with (Z.pos p + Z.pos p) by ring.
    rewrite !Z.pow_add_r by lia. ring.
  - now apply shr_1_located.
Qed.

Lemma new_location_located N D :
  0 < D ->
  located N D (shr_record_of_loc (N / D) (new_location D (N mod D))).
Proof.
  intros HD.
  pose proof (Z.mod_pos_bound N D HD) as Hr.
  assert (Hodd : Z.even D = false -> 2 * (N mod D) <> D).
  { intros Ev E. rewrite <- E in Ev. rewrite Z.even_mul in Ev.
    discriminate. }
  unfold located, new_location, new_location_even, new_location_odd.
  set (r := N mod D) in *.
  destruct (Z.even D) eqn:Ev; [|specialize (Hodd eq_refl)];
    (destruct (Z.eqb_spec r 0) as [E|E];
     [|match goal with
       | |- context [?a ?= ?b] => destruct (Z.compare_spec a b)
       end]);
    cbn [shr_record_of_loc shr_m shr_r shr_s];
    (split; [reflexivity|]);
    destruct (Z.leb_spec D (2 * r));
    destruct (Z.eqb_spec r 0);
    destruct (Z.eqb_spec (2 * r) D);
    cbn [negb orb]; split; try reflexivity; exfalso; lia.
Qed.

Lemma round_located A B rec :
  0 < B -> located A B rec ->
  round_nearest_even (shr_m rec) (loc_of_shr_record rec) = rne A B.
Proof.
  intros HB (Hm & Hr & Hs).
  pose proof (Z.mod_pos_bound A B HB) as Hrho.
  destruct rec as [m r s]. cbn [shr_m shr_r shr_s] in *. subst m r s.
  unfold rne. set (rho := A mod B) in *.
  destruct (Z.leb_spec B (2 * rho));
    destruct (Z.eqb_spec rho 0);
    destruct (Z.eqb_spec (2 * rho) B);
    cbn [negb orb loc_of_shr_record round_nearest_even];
    destruct (Z.ltb_spec (2 * rho) B);
    destruct (Z.ltb_spec B (2 * rho));
    try reflexivity; exfalso; lia.
Qed.

Lemma rne_bounds A B : A / B <= rne A B <= A / B + 1.
Proof.
  unfold rne.
  destruct (2 * (A mod B) <? B); [lia|].
  destruct (B <? 2 * (A mod B)); [lia|].
  destruct (Z.even (A / B)); lia.
Qed.

Lemma div_le_cross A1 B1 A2 B2 :
  0 < B1 -> 0 < B2 -> A2 * B1 <= A1 * B2 -> A2 / B2 <= A1 / B1.
Proof.
  intros H1 H2 H.
  pose proof (Z.div_mod A1 B1 ltac:(lia)) as E1.
  pose proof (Z.div_mod A2 B2 ltac:(lia)) as E2.
  pose proof (Z.mod_pos_bound A1 B1 H1) as R1.
  pose proof (Z.mod_pos_bound A2 B2 H2) as R2.
  destruct (Z_le_gt_dec (A2 / B2) (A1 / B1)) as [|Hgt]; [assumption|].
  exfalso.
  assert ((A1 / B1 + 1) * B2 <= A2) by nia.
  assert (A1 < (A1 / B1 + 1) * B1) by nia.
  assert ((A1 / B1 + 1) * B2 * B1 <= A2 * B1) by nia.
  assert (A1 * B2 < (A1 / B1 + 1) * B1 * B2) by nia.
  nia.
Qed.

(** Rounding to nearest even is monotone in the fraction. *)
Lemma rne_mono A1 B1 A2 B2 :
  0 < B1 -> 0 < B2 -> A2 * B1 <= A1 * B2 -> rne A2 B2 <= rne A1 B1.
Proof.
  intros H1 H2 H.
  pose proof (div_le_cross _ _ _ _ H1 H2 H) as Hq.
  pose proof (rne_bounds A1 B1) as Hb1.
  pose proof (rne_bounds A2 B2) as Hb2.
  destruct (Z.eq_dec (A2 / B2) (A1 / B1)) as [E|E]; [|lia].
  pose proof (Z.div_mod A1 B1 ltac:(lia)) as E1.
  pose proof (Z.div_mod A2 B2 ltac:(lia)) as E2.
  pose proof (Z.mod_pos_bound A1 B1 H1) as R1.
  pose proof (Z.mod_pos_bound A2 B2 H2) as R2.
  assert (Hr : (A2 mod B2) * B1 <= (A1 mod B1) * B2).
  { rewrite E in E2. nia. }
  unfold rne. rewrite E.
  set (q := A1 / B1) in *. set (r1 := A1 mod B1) in *.
  set (r2 := A2 mod B2) in *.
  destruct (Z.ltb_spec (2 * r2) B2); destruct (Z.ltb_spec B2 (2 * r2));
    destruct (Z.ltb_spec (2 * r1) B1); destruct (Z.ltb_spec B1 (2 * r1));
    destruct (Z.even q); try lia; exfalso; nia.
Qed.

Lemma rne_ext A1 B1 A2 B2 :
  0 < B1 -> 0 < B2 -> A2 * B1 = A1 * B2 -> rne A2 B2 = rne A1 B1.
Proof.
  intros H1 H2 H.
  pose proof (rne_mono A1 B1 A2 B2 H1 H2 ltac:(lia)).
  pose proof (rne_mono A2 B2 A1 B1 H2 H1 ltac:(lia)).
  lia.
Qed.

(** ** The rounding step of the specification *)

Lemma Zdigits2_bounds m :
  0 < m -> 0 < Zdigits2 m /\ 2 ^ (Zdigits2 m - 1) <= m < 2 ^ Zdigits2 m.
Proof.
  destruct m as [|p|p]; try lia. intros _.
  unfold Zdigits2. rewrite digits2_size.
  pose proof (Pos.size_gt p) as Hgt. pose proof (Pos.size_le p) as Hle.
  assert (Hgt' : Z.pos p < 2 ^ Z.pos (Pos.size p)).
  { rewrite <- Pos2Z.inj_pow. now apply Pos2Z.pos_lt_pos. }
  assert (Hle' : 2 ^ Z.pos (Pos.size p) <= 2 * Z.pos p).
  { rewrite <- Pos2Z.inj_pow. rewrite <- (Pos2Z.inj_xO p).
    now apply Pos2Z.pos_le_pos. }
  split; [lia|]. split; [|assumption].
  replace (Z.pos (Pos.size p)) with (1 + (Z.pos (Pos.size p) - 1)) in Hle'
    by ring.
  rewrite Z.pow_add_r in Hle' by lia. lia.
Qed.

Lemma Zdigits2_le m d :
  0 <= d -> 0 <= m < 2 ^ d -> Zdigits2 m <= d.
Proof.
  intros Hd Hm. destruct (Z.eq_dec m 0) as [->|Hz]; [simpl; lia|].
  destruct (Zdigits2_bounds m ltac:(lia)) as (Hp & Hl & _).
  destruct (Z_le_gt_dec (Zdigits2 m) d) as [|Hgt]; [assumption|exfalso].
  assert (2 ^ d <= 2 ^ (Zdigits2 m - 1)) by (apply Z.pow_le_mono_r; lia).
  lia.
Qed.

Lemma Zdigits2_ge m d :
  0 <= d -> 2 ^ d <= m -> d < Zdigits2 m.
Proof.
  intros Hd Hm.
  assert (0 < 2 ^ d) by (apply Z.pow_pos_nonneg; lia).
  destruct (Zdigits2_bounds m ltac:(lia)) as (Hp & _ & Hu).
  destruct (Z_lt_ge_dec d (Zdigits2 m)) as [|Hge]; [assumption|exfalso].
  assert (2 ^ Zdigits2 m <= 2 ^ d) by (apply Z.pow_le_mono_r; lia).
  lia.
Qed.

Lemma fexp_eq e : fexp prec emax e = Z.max (e - 53) (-1074).
Proof. reflexivity. Qed.

Lemma div_pow2_bounds q a b :
  0 <= b <= a -> 2 ^ a <= q -> 2 ^ (a - b) <= q / 2 ^ b.
Proof.
  intros Hab Hq.
  assert (0 < 2 ^ b) by (apply Z.pow_pos_nonneg; lia).
  apply Z.div_le_lower_bound; [lia|].
  rewrite <- Z.pow_add_r by lia. now replace (b + (a - b)) with a by ring.
Qed.

Lemma div_pow2_lt q a b :
  0 <= b <= a -> 0 <= q < 2 ^ a -> q / 2 ^ b < 2 ^ (a - b).
Proof.
  intros Hab Hq.
  assert (0 < 2 ^ b) by (apply Z.pow_pos_nonneg; lia).
  apply Z.div_lt_upper_bound; [lia|].
  rewrite <- Z.pow_add_r by lia. now replace (b + (a - b)) with a by ring.
Qed.

Lemma canonical_after_shift q e :
  0 <= q -> (e <= -1074 \/ 2 ^ 52 <= q) ->
  let k := Z.max (Zdigits2 q + e - 53) (-1074) - e in
  0 <= k /\ canonical (q / 2 ^ k) (e + k).
Proof.
  intros Hq Pre. cbv zeta.
  destruct (Z.eq_dec q 0) as [->|Hz].
  - simpl Zdigits2. destruct Pre as [He|Hc]; [|simpl in Hc; lia].
    rewrite Z.max_r by lia. split; [lia|].
    left. rewrite Z.div_0_l by (apply Z.pow_nonzero; lia).
    split; [lia|]. split; [lia|]. apply Z.pow_pos_nonneg; lia.
  - destruct (Zdigits2_bounds q ltac:(lia)) as (Hd & Hl & Hu).
    set (d := Zdigits2 q) in *.
    assert (Hd53 : 2 ^ 52 <= q -> 53 <= d).
    { intros H. pose proof (Zdigits2_ge q 52 ltac:(lia) H). lia. }
    destruct (Z_le_gt_dec (-1074) (d + e - 53)) as [Hn|Hs].
    + rewrite Z.max_l by lia.
      assert (Hk : 0 <= d + e - 53 - e) by (destruct Pre; [lia|]; auto with zarith; specialize (Hd53 H); lia).
      split; [exact Hk|].
      replace (d + e - 53 - e) with (d - 53) in * by ring.
      pose proof (div_pow2_bounds q (d - 1) (d - 53) ltac:(lia) Hl) as L.
      pose proof (div_pow2_lt q d (d - 53) ltac:(lia) ltac:(lia)) as U.
      replace (d - 1 - (d - 53)) with 52 in L by ring.
      replace (d - (d - 53)) with 53 in U by ring.
      replace (e + (d - 53)) with (d + e - 53) by ring.
      destruct (Z.eq_dec (d + e - 53) (-1074)) as [E|E].
      * left. split; [exact E|]. split; [|exact U].
        apply Z.div_pos; [lia | apply Z.pow_pos_nonneg; lia].
      * right. split; [lia|]. split; assumption.
    + rewrite Z.max_r by lia.
      assert (Hk : 0 <= -1074 - e).
      { destruct Pre as [|H]; [lia|]. specialize (Hd53 H). lia. }
      split; [exact Hk|].
      replace (e + (-1074 - e)) with (-1074) by ring.
      left. split; [reflexivity|]. split.
      * apply Z.div_pos; [lia | apply Z.pow_pos_nonneg; lia].
      * destruct (Z_le_gt_dec (-1074 - e) d) as [Hle|Hgt].
        -- pose proof (div_pow2_lt q d (-1074 - e) ltac:(lia) ltac:(lia)) as U.
           eapply Z.lt_le_trans; [exact U|].
           apply Z.pow_le_mono_r; lia.
        -- rewrite Z.div_small.
           ++ apply Z.pow_pos_nonneg; lia.
           ++ split; [lia|]. eapply Z.lt_le_trans; [exact Hu|].
              apply Z.pow_le_mono_r; lia.
Qed.

(** The first shift puts the fraction at its canonical exponent. *)
Lemma first_phase N D e :
  0 <= N -> 0 < D -> (e <= -1074 \/ 2 ^ 52 <= N / D) ->
  exists K,
    0 <= K
    /\ located N (D * 2 ^ K)
         (fst (shr_fexp prec emax (N / D) e (new_location D (N mod D))))
    /\ snd (shr_fexp prec emax (N / D) e (new_location D (N mod D))) = e + K
    /\ canonical (N / (D * 2 ^ K)) (e + K).
Proof.
  intros HN HD Pre.
  assert (Hq : 0 <= N / D) by (apply Z.div_pos; lia).
  destruct (canonical_after_shift (N / D) e Hq Pre) as [Hk Hc].
  unfold shr_fexp. rewrite fexp_eq.
  set (k := Z.max (Zdigits2 (N / D) + e - 53) (-1074) - e) in *.
  exists k. split; [exact Hk|].
  rewrite <- Z.div_div by (try apply Z.pow_pos_nonneg; lia).
  pose proof (new_location_located N D HD) as Hloc.
  unfold shr. destruct k as [|p|p] eqn:Ek; try lia; cbn [fst snd].
  - rewrite Z.pow_0_r, Z.mul_1_r in *.
    split; [exact Hloc|]. split; [lia|exact Hc].
  - split; [|split; [reflexivity|exact Hc]].
    apply iter_shr_located; assumption.
Qed.

(** The second shift renormalises a mantissa that rounding has carried
    to 2^53, and changes nothing else. *)
Lemma second_phase m1 m2 E :
  canonical m1 E -> m1 <= m2 <= m1 + 1 ->
  let res := shr_fexp prec emax m2 E loc_Exact in
  canonical (shr_m (fst res)) (snd res)
  /\ shr_m (fst res) * 2 ^ (snd res + 1074) = m2 * 2 ^ (E + 1074).
Proof.
  intros Hc Hm. cbv zeta.
  assert (HE : -1074 <= E) by (destruct Hc; lia).
  assert (Hm1 : 0 <= m1 < 2 ^ 53) by (destruct Hc; lia).
  unfold shr_fexp. rewrite fexp_eq.
  destruct (Z_lt_ge_dec m2 (2 ^ 53)) as [Hlt|Hge].
  - pose proof (Zdigits2_le m2 53 ltac:(lia) ltac:(lia)) as Hd.
    set (n := Z.max (Zdigits2 m2 + E - 53) (-1074) - E).
    assert (Hn : n <= 0) by (subst n; lia).
    unfold shr. destruct n as [|p|p]; try lia; cbn [fst snd shr_record_of_loc shr_m].
    + split; [|reflexivity]. destruct Hc as [[? ?]|[? ?]]; [left|right]; lia.
    + split; [|reflexivity]. destruct Hc as [[? ?]|[? ?]]; [left|right]; lia.
  - assert (m2 = 2 ^ 53) as -> by lia.
    change (Zdigits2 (2 ^ 53)) with 54.
    replace (Z.max (54 + E - 53) (-1074) - E) with 1 by lia.
    cbn [shr iter_pos shr_record_of_loc].
    change (shr_1 {| shr_m := 2 ^ 53; shr_r := false; shr_s := false |})
      with {| shr_m := 2 ^ 52; shr_r := false; shr_s := false |}.
    cbn [fst snd shr_m]. split.
    + right. lia.
    + replace (E + 1 + 1074) with (1 + (E + 1074)) by ring.
      rewrite Z.pow_add_r by lia.
      change (2 ^ 53) with (2 ^ 52 * 2 ^ 1). ring.
Qed.

(** [binary_round_aux] on the quotient [N / D] located by its remainder:
    the fraction is brought to its canonical exponent [e + K], rounded to
    nearest even there, and renormalised. *)
Lemma round_aux_spec N D e :
  0 <= N -> 0 < D -> (e <= -1074 \/ 2 ^ 52 <= N / D) ->
  exists K m3 E3,
    0 <= K
    /\ canonical (N / (D * 2 ^ K)) (e + K)
    /\ canonical m3 E3
    /\ m3 * 2 ^ (E3 + 1074) = rne N (D * 2 ^ K) * 2 ^ (e + K + 1074)
    /\ binary_round_aux prec emax false (N / D) e
         (new_location D (N mod D)) = assemble m3 E3.
Proof.
  intros HN HD Pre.
  destruct (first_phase N D e HN HD Pre) as (K & HK & Hloc & HE & Hc).
  unfold binary_round_aux.
  destruct (shr_fexp prec emax (N / D) e (new_location D (N mod D)))
    as [rec' E'] eqn:E1.
  cbn [fst snd] in Hloc, HE. subst E'.
  assert (HB : 0 < D * 2 ^ K).
  { apply Z.mul_pos_pos; [lia | apply Z.pow_pos_nonneg; lia]. }
  rewrite (round_located N (D * 2 ^ K) rec' HB Hloc).
  pose proof (rne_bounds N (D * 2 ^ K)) as Hb.
  destruct (second_phase _ (rne N (D * 2 ^ K)) (e + K) Hc Hb) as [Hc3 Hv].
  destruct (shr_fexp prec emax (rne N (D * 2 ^ K)) (e + K) loc_Exact)
    as [rec'' E''] eqn:E2.
  cbn [fst snd] in Hc3, Hv.
  exists K, (shr_m rec''), E''.
  repeat split; try assumption.
Qed.

(** ** Division of positive finite floats *)

Lemma shift_match m s :
  0 <= s ->
  match s with
  | 0 => m
  | Z.pos _ => Z.shiftl m s
  | Z.neg _ => 0
  end = m * 2 ^ s.
Proof.
  intros Hs. destruct s as [|p|p]; try lia.
  rewrite Z.shiftl_mul_pow2 by lia. reflexivity.
Qed.

Lemma SFdiv_core_eq mx ex my ey :
  let e' := Z.min (fexp prec emax (Zdigits2 (Z.pos mx) + ex
                                   - (Zdigits2 (Z.pos my) + ey)))
                  (ex - ey) in
  let N := Z.pos mx * 2 ^ (ex - ey - e') in
  SFdiv_core_binary prec emax (Z.pos mx) ex (Z.pos my) ey
  = (N / Z.pos my, e', new_location (Z.pos my) (N mod Z.pos my)).
Proof.
  cbv zeta. unfold SFdiv_core_binary.
  set (e' := Z.min _ _).
  assert (Hs : 0 <= ex - ey - e') by (subst e'; lia).
  rewrite (shift_match _ _ Hs).
  unfold Z.div, Z.modulo.
  destruct (Z.div_eucl (Z.pos mx * 2 ^ (ex - ey - e')) (Z.pos my)) as [q r].
  reflexivity.
Qed.

(** The quotient of two positive finite floats: a fraction [A / B] at a
    canonical exponent [E], rounded to nearest even; [A / B * 2 ^ E] is the
    exact quotient of the operands. *)
Lemma SFdiv_value mx ex my ey :
  bounded prec emax mx ex = true -> bounded prec emax my ey = true ->
  exists A B E m3 E3,
    0 <= A /\ 0 < B
    /\ canonical (A / B) E
    /\ canonical m3 E3
    /\ m3 * 2 ^ (E3 + 1074) = rne A B * 2 ^ (E + 1074)
    /\ A * (Z.pos my * 2 ^ (ey + 1074)) * 2 ^ (E + 1074)
       = B * (Z.pos mx * 2 ^ (ex + 1074)) * 2 ^ 1074
    /\ SF64div (S754_finite false mx ex) (S754_finite false my ey)
       = assemble m3 E3.
Proof.
  intros Vx Vy.
  apply valid_bounds in Vx, Vy.
  destruct Vx as (Hx1 & Hx2 & Hx3), Vy as (Hy1 & Hy2 & Hy3).
  unfold SF64div, SFdiv.
  rewrite SFdiv_core_eq.
  set (e' := Z.min _ _).
  set (s := ex - ey - e').
  assert (Hs : 0 <= s) by (subst s e'; lia).
  assert (Ps : 0 < 2 ^ s) by (apply Z.pow_pos_nonneg; lia).
  set (N := Z.pos mx * 2 ^ s).
  assert (HN : 0 <= N) by (subst N; nia).
  assert (Pre : e' <= -1074 \/ 2 ^ 52 <= N / Z.pos my).
  { destruct (Z_le_gt_dec e' (-1074)) as [|Hgt]; [left; assumption|right].
    destruct (Zdigits2_bounds (Z.pos mx) ltac:(lia)) as (Hd1 & Hl1 & Hu1).
    destruct (Zdigits2_bounds (Z.pos my) ltac:(lia)) as (Hd2 & Hl2 & Hu2).
    set (d1 := Zdigits2 (Z.pos mx)) in *.
    set (d2 := Zdigits2 (Z.pos my)) in *.
    assert (He : e' <= d1 + ex - (d2 + ey) - 53).
    { subst e'. rewrite fexp_eq in *. fold d1 d2 in Hgt |- *. lia. }
    assert (Hs' : d2 + 52 <= d1 - 1 + s) by (subst s; lia).
    apply Z.div_le_lower_bound; [lia|].
    assert (H1 : 2 ^ (d2 + 52) <= 2 ^ (d1 - 1 + s))
      by (apply Z.pow_le_mono_r; lia).
    rewrite Z.pow_add_r in H1 by lia.
    rewrite (Z.pow_add_r 2 (d1 - 1) s) in H1 by lia.
    assert (P52 : 0 < 2 ^ 52) by (apply Z.pow_pos_nonneg; lia).
    subst N. nia. }
  destruct (round_aux_spec N (Z.pos my) e' HN ltac:(lia) Pre)
    as (K & m3 & E3 & HK & Hc & Hc3 & Hv & Hr).
  exists N, (Z.pos my * 2 ^ K), (e' + K), m3, E3.
  assert (PK : 0 < 2 ^ K) by (apply Z.pow_pos_nonneg; lia).
  split; [assumption|]. split; [nia|].
  split; [assumption|]. split; [assumption|]. split; [assumption|].
  split; [|exact Hr].
  assert (HE : -1074 <= e' + K) by (destruct Hc as [[? _]|[? _]]; lia).
  subst N.
  replace (Z.pos mx * 2 ^ s * (Z.pos my * 2 ^ (ey + 1074)) * 2 ^ (e' + K + 1074))
    with (Z.pos mx * Z.pos my * (2 ^ s * 2 ^ (ey + 1074) * 2 ^ (e' + K + 1074)))
    by ring.
  replace (Z.pos my * 2 ^ K * (Z.pos mx * 2 ^ (ex + 1074)) * 2 ^ 1074)
    with (Z.pos mx * Z.pos my * (2 ^ K * 2 ^ (ex + 1074) * 2 ^ 1074))
    by ring.
  f_equal.
  rewrite <- !Z.pow_add_r by lia.
  f_equal. subst s. ring.
Qed.

(** Rounding at the canonical exponent is monotone in the exact value. *)
Lemma rounded_mono A1 B1 E1 A2 B2 E2 :
  0 <= A1 -> 0 < B1 -> 0 <= A2 -> 0 < B2 ->
  canonical (A1 / B1) E1 -> canonical (A2 / B2) E2 ->
  A2 * B1 * 2 ^ (E2 + 1074) <= A1 * B2 * 2 ^ (E1 + 1074) ->
  rne A2 B2 * 2 ^ (E2 + 1074) <= rne A1 B1 * 2 ^ (E1 + 1074).
Proof.
  intros HA1 HB1 HA2 HB2 C1 C2 H.
  assert (HE1 : -1074 <= E1) by (destruct C1 as [[? _]|[? _]]; lia).
  assert (HE2 : -1074 <= E2) by (destruct C2 as [[? _]|[? _]]; lia).
  assert (P1 : 0 < 2 ^ (E1 + 1074)) by (apply Z.pow_pos_nonneg; lia).
  assert (P2 : 0 < 2 ^ (E2 + 1074)) by (apply Z.pow_pos_nonneg; lia).
  pose proof (rne_bounds A1 B1) as R1.
  pose proof (rne_bounds A2 B2) as R2.
  assert (U1 : A1 / B1 < 2 ^ 53) by (destruct C1 as [[_ ?]|[_ ?]]; lia).
  assert (U2 : A2 / B2 < 2 ^ 53) by (destruct C2 as [[_ ?]|[_ ?]]; lia).
  assert (Q1 : 0 <= A1 / B1) by (apply Z.div_pos; lia).
  assert (Q2 : 0 <= A2 / B2) by (apply Z.div_pos; lia).
  destruct (Z.lt_trichotomy E1 E2) as [Hlt|[Heq|Hgt]].
  - (* the second value is at least 2^52 ulps of a larger exponent *)
    exfalso.
    assert (L2 : 2 ^ 52 <= A2 / B2) by (destruct C2 as [[? _]|[_ ?]]; lia).
    assert (HA2' : 2 ^ 52 * B2 <= A2).
    { pose proof (Z.mul_div_le A2 B2 HB2). nia. }
    assert (HA1' : A1 < 2 ^ 53 * B1).
    { pose proof (Z.div_mod A1 B1 ltac:(lia)).
      pose proof (Z.mod_pos_bound A1 B1 HB1). nia. }
    assert (HP : 2 * 2 ^ (E1 + 1074) <= 2 ^ (E2 + 1074)).
    { replace (2 * 2 ^ (E1 + 1074)) with (2 ^ (E1 + 1 + 1074)).
      - apply Z.pow_le_mono_r; lia.
      - replace (E1 + 1 + 1074) with (1 + (E1 + 1074)) by ring.
        rewrite Z.pow_add_r by lia. reflexivity. }
    change (2 ^ 53) with (2 * 2 ^ 52) in HA1'.
    assert (P52 : 0 < 2 ^ 52) by (apply Z.pow_pos_nonneg; lia).
    set (p52 := 2 ^ 52) in *. set (p1 := 2 ^ (E1 + 1074)) in *.
    set (p2 := 2 ^ (E2 + 1074)) in *.
    assert (S1 : p52 * B2 * B1 * p2 <= A2 * B1 * p2).
    { apply Z.mul_le_mono_nonneg_r; [lia|].
      apply Z.mul_le_mono_nonneg_r; lia. }
    assert (S2 : A1 * B2 * p1 < 2 * p52 * B1 * B2 * p1).
    { apply Z.mul_lt_mono_pos_r; [lia|].
      apply Z.mul_lt_mono_pos_r; lia. }
    assert (S3 : 2 * p52 * B1 * B2 * p1 <= p52 * B2 * B1 * p2).
    { replace (2 * p52 * B1 * B2 * p1) with (p52 * B2 * B1 * (2 * p1)) by ring.
      apply Z.mul_le_mono_nonneg_l; [|lia].
      apply Z.mul_nonneg_nonneg; [|lia].
      apply Z.mul_nonneg_nonneg; lia. }
    lia.
  - subst E2.
    apply Z.mul_le_mono_nonneg_r; [lia|].
    apply rne_mono; try assumption.
    apply (Z.mul_le_mono_pos_r _ _ (2 ^ (E1 + 1074))); assumption.
  - assert (L1 : 2 ^ 52 <= A1 / B1) by (destruct C1 as [[? _]|[_ ?]]; lia).
    assert (HP : 2 * 2 ^ (E2 + 1074) <= 2 ^ (E1 + 1074)).
    { replace (2 * 2 ^ (E2 + 1074)) with (2 ^ (E2 + 1 + 1074)).
      - apply Z.pow_le_mono_r; lia.
      - replace (E2 + 1 + 1074) with (1 + (E2 + 1074)) by ring.
        rewrite Z.pow_add_r by lia. reflexivity. }
    change (2 ^ 53) with (2 * 2 ^ 52) in U2.
    assert (P52 : 0 < 2 ^ 52) by (apply Z.pow_pos_nonneg; lia).
    set (p52 := 2 ^ 52) in *. set (p1 := 2 ^ (E1 + 1074)) in *.
    set (p2 := 2 ^ (E2 + 1074)) in *.
    assert (S1 : rne A2 B2 * p2 <= 2 * p52 * p2).
    { apply Z.mul_le_mono_nonneg_r; lia. }
    assert (S2 : p52 * p1 <= rne A1 B1 * p1).
    { apply Z.mul_le_mono_nonneg_r; lia. }
    assert (S3 : 2 * p52 * p2 <= p52 * p1).
    { replace (2 * p52 * p2) with (p52 * (2 * p2)) by ring.
      apply Z.mul_le_mono_nonneg_l; lia. }
    lia.
Qed.

Lemma SFV_assemble m E :
  canonical m E -> SFV (assemble m E) = Z.min (m * 2 ^ (E + 1074)) (2 ^ 2098).
Proof.
  intros C.
  assert (HE : -1074 <= E) by (destruct C as [[? _]|[? _]]; lia).
  assert (Hm : 0 <= m < 2 ^ 53) by (destruct C as [[_ ?]|[_ ?]]; lia).
  assert (P : 0 < 2 ^ (E + 1074)) by (apply Z.pow_pos_nonneg; lia).
  assert (T : 2 ^ 2098 = 2 ^ 53 * 2 ^ 2045) by (rewrite <- Z.pow_add_r; [reflexivity|lia..]).
  assert (T' : 2 ^ 2098 = 2 ^ 52 * 2 ^ 2046) by (rewrite <- Z.pow_add_r; [reflexivity|lia..]).
  assert (P52 : 0 < 2 ^ 52) by (apply Z.pow_pos_nonneg; lia).
  destruct m as [|p|p]; [| |lia].
  - cbn [assemble SFV]. rewrite Z.mul_0_l.
    assert (0 < 2 ^ 2098) by (apply Z.pow_pos_nonneg; lia). lia.
  - cbn [assemble]. destruct (Z.leb_spec E 971) as [Hle|Hgt].
    + cbn [SFV].
      assert (2 ^ (E + 1074) <= 2 ^ 2045) by (apply Z.pow_le_mono_r; lia).
      rewrite T.
      set (p53 := 2 ^ 53) in *. set (pe := 2 ^ (E + 1074)) in *.
      set (pt := 2 ^ 2045) in *.
      assert (Z.pos p * pe < p53 * pt).
      { apply Z.le_lt_trans with (Z.pos p * pt).
        - apply Z.mul_le_mono_nonneg_l; lia.
        - apply Z.mul_lt_mono_pos_r; lia. }
      lia.
    + cbn [SFV].
      assert (L : 2 ^ 52 <= Z.pos p) by (destruct C as [[? _]|[_ ?]]; lia).
      assert (2 ^ 2046 <= 2 ^ (E + 1074)) by (apply Z.pow_le_mono_r; lia).
      rewrite T'.
      set (p52 := 2 ^ 52) in *. set (pe := 2 ^ (E + 1074)) in *.
      set (pt := 2 ^ 2046) in *.
      assert (p52 * pt <= Z.pos p * pe).
      { apply Z.le_trans with (p52 * pe).
        - apply Z.mul_le_mono_nonneg_l; lia.
        - apply Z.mul_le_mono_nonneg_r; lia. }
      lia.
Qed.

(** Division of positive finite floats is antitone in the divisor. *)
Lemma SFdiv_antitone mx ex my1 ey1 my2 ey2 :
  bounded prec emax mx ex = true ->
  bounded prec emax my1 ey1 = true -> bounded prec emax my2 ey2 = true ->
  SFV (S754_finite false my1 ey1) <= SFV (S754_finite false my2 ey2) ->
  SFV (SF64div (S754_finite false mx ex) (S754_finite false my2 ey2))
  <= SFV (SF64div (S754_finite false mx ex) (S754_finite false my1 ey1)).
Proof.
  intros Vx V1 V2 Hy. cbn [SFV] in Hy.
  destruct (SFdiv_value mx ex my1 ey1 Vx V1)
    as (A1 & B1 & E1 & m1 & F1 & HA1 & HB1 & C1 & D1 & W1 & R1 & ->).
  destruct (SFdiv_value mx ex my2 ey2 Vx V2)
    as (A2 & B2 & E2 & m2 & F2 & HA2 & HB2 & C2 & D2 & W2 & R2 & ->).
  rewrite !SFV_assemble by assumption.
  rewrite W1, W2.
  apply Z.min_le_compat_r.
  apply rounded_mono; try assumption.
  apply valid_bounds in Vx, V1, V2.
  assert (HE1 : -1074 <= E1) by (destruct C1 as [[? _]|[? _]]; lia).
  assert (HE2 : -1074 <= E2) by (destruct C2 as [[? _]|[? _]]; lia).
  assert (P1 : 0 < 2 ^ (E1 + 1074)) by (apply Z.pow_pos_nonneg; lia).
  assert (P2 : 0 < 2 ^ (E2 + 1074)) by (apply Z.pow_pos_nonneg; lia).
  assert (Px : 0 < 2 ^ (ex + 1074)) by (apply Z.pow_pos_nonneg; lia).
  assert (Py1 : 0 < 2 ^ (ey1 + 1074)) by (apply Z.pow_pos_nonneg; lia).
  assert (Py2 : 0 < 2 ^ (ey2 + 1074)) by (apply Z.pow_pos_nonneg; lia).
  assert (Pc : 0 < 2 ^ 1074) by (apply Z.pow_pos_nonneg; lia).
  set (p1 := 2 ^ (E1 + 1074)) in *. set (p2 := 2 ^ (E2 + 1074)) in *.
  set (vx := Z.pos mx * 2 ^ (ex + 1074)) in *.
  set (v1 := Z.pos my1 * 2 ^ (ey1 + 1074)) in *.
  set (v2 := Z.pos my2 * 2 ^ (ey2 + 1074)) in *.
  set (c := 2 ^ 1074) in *.
  assert (Hvx : 0 < vx) by (subst vx; apply Z.mul_pos_pos; lia).
  assert (Hv1 : 0 < v1) by (subst v1; apply Z.mul_pos_pos; lia).
  apply (Z.mul_le_mono_pos_r _ _ (vx * c)); [apply Z.mul_pos_pos; lia|].
  replace (A2 * B1 * p2 * (vx * c)) with (A2 * p2 * (B1 * vx * c)) by ring.
  replace (A1 * B2 * p1 * (vx * c)) with (A1 * p1 * (B2 * vx * c)) by ring.
  rewrite <- R1, <- R2.
  replace (A2 * p2 * (A1 * v1 * p1)) with (A1 * A2 * p1 * p2 * v1) by ring.
  replace (A1 * p1 * (A2 * v2 * p2)) with (A1 * A2 * p1 * p2 * v2) by ring.
  apply Z.mul_le_mono_nonneg_l; [|assumption].
  repeat apply Z.mul_nonneg_nonneg; lia.
Qed.

(** ** Order and floor through the value *)

Lemma SFV_nonneg x : 0 <= SFV x.
Proof.
  destruct x as [s|[|]| |[|] m e]; cbn [SFV]; lia.
Qed.

Lemma SFV_finite_lt m e :
  bounded prec emax m e = true -> SFV (S754_finite false m e) < 2 ^ 2098.
Proof.
  intros V.
  assert (C : canonical (Z.pos m) e).
  { apply valid_bounds in V. destruct V as (H1 & H2 & H3).
    unfold canonical. destruct (Z.eq_dec e (-1074)); [left|right]; lia. }
  assert (He : e <= 971).
  { unfold bounded in V. apply andb_prop in V. destruct V as [_ V].
    apply Z.leb_le in V. exact V. }
  pose proof (SFV_assemble _ _ C) as H.
  cbn [assemble] in H.
  destruct (Z.leb_spec e 971) as [_|]; [|lia].
  apply valid_bounds in V. destruct V as (H1 & H2 & H3).
  assert (P : 0 < 2 ^ (e + 1074)) by (apply Z.pow_pos_nonneg; lia).
  assert (2 ^ (e + 1074) <= 2 ^ 2045) by (apply Z.pow_le_mono_r; lia).
  assert (T : 2 ^ 2098 = 2 ^ 53 * 2 ^ 2045)
    by (rewrite <- Z.pow_add_r; [reflexivity|lia..]).
  rewrite T. cbn [SFV].
  set (p53 := 2 ^ 53) in *. set (pe := 2 ^ (e + 1074)) in *.
  set (pt := 2 ^ 2045) in *.
  apply Z.le_lt_trans with (Z.pos m * pt).
  - apply Z.mul_le_mono_nonneg_l; lia.
  - apply Z.mul_lt_mono_pos_r; lia.
Qed.

Lemma SFleb_SFV y1 y2 :
  valid_binary y1 = true -> valid_binary y2 = true ->
  SF_pos y1 = true -> SFleb y1 y2 = true ->
  SF_pos y2 = true /\ SFV y1 <= SFV y2.
Proof.
  intros V1 V2 P1 H. unfold SFleb in H.
  destruct y1 as [s1|s1| |s1 m1 e1]; try discriminate;
    destruct s1; try discriminate;
    destruct y2 as [s2|s2| |s2 m2 e2]; try discriminate;
    try (destruct s2; discriminate).
  - destruct s2; [discriminate|]. split; [reflexivity|]. simpl. lia.
  - destruct s2; [discriminate|]. split; [reflexivity|].
    simpl in V1. pose proof (SFV_finite_lt _ _ V1) as Hlt.
    change (SFV (S754_infinity false)) with (2 ^ 2098). lia.
  - destruct s2; [discriminate|]. split; [reflexivity|].
    simpl in V1, V2. apply valid_bounds in V1, V2.
    destruct V1 as (Ha1 & Ha2 & Ha3), V2 as (Hb1 & Hb2 & Hb3).
    cbn [SFV]. simpl in H.
    destruct (Z.compare_spec e1 e2) as [E|Hlt|Hgt]; [| |discriminate].
    + subst e2.
      assert (Hm : Z.pos m1 <= Z.pos m2).
      { change (PosDef.Pos.compare_cont Eq m1 m2) with (Pos.compare m1 m2) in H.
        destruct (Pos.compare_spec m1 m2) as [E|Hlt|Hgt];
          try discriminate; lia. }
      apply Z.mul_le_mono_nonneg_r; [|exact Hm].
      apply Z.pow_nonneg; lia.
    + assert (P1' : 0 < 2 ^ (e1 + 1074)) by (apply Z.pow_pos_nonneg; lia).
      assert (HP : 2 * 2 ^ (e1 + 1074) <= 2 ^ (e2 + 1074)).
      { replace (2 * 2 ^ (e1 + 1074)) with (2 ^ (1 + (e1 + 1074)))
          by (rewrite Z.pow_add_r by lia; reflexivity).
        apply Z.pow_le_mono_r; lia. }
      assert (L2 : 2 ^ 52 <= Z.pos m2) by (apply Hb3; lia).
      change (2 ^ 53) with (2 * 2 ^ 52) in Ha1.
      assert (P52 : 0 < 2 ^ 52) by (apply Z.pow_pos_nonneg; lia).
      set (p52 := 2 ^ 52) in *. set (pa := 2 ^ (e1 + 1074)) in *.
      set (pb := 2 ^ (e2 + 1074)) in *.
      apply Z.le_trans with (2 * p52 * pa).
      * apply Z.mul_le_mono_nonneg_r; lia.
      * apply Z.le_trans with (p52 * pb).
        -- replace (2 * p52 * pa) with (p52 * (2 * pa)) by ring.
           apply Z.mul_le_mono_nonneg_l; lia.
        -- apply Z.mul_le_mono_nonneg_r; lia.
Qed.

(** A quotient by a positive divisor is negative only if the dividend is. *)
Lemma SFdiv_pos_not_neg x y :
  SF_neg x = false -> SF_pos y = true -> SF_neg (SF64div x y) = false.
Proof.
  intros Hx Hy.
  destruct x as [sx|sx| |sx mx ex], y as [sy|sy| |sy my ey];
    try discriminate; destruct sy; try discriminate;
    try (destruct sx; try discriminate; reflexivity); try reflexivity.
  destruct sx; [discriminate|].
  unfold SF64div, SFdiv.
  destruct (SFdiv_core_binary _ _ _ _ _ _) as [[mz ez] lz].
  destruct (binary_round_aux_sign (xorb false false) mz ez lz)
    as [E|[E|[E|(m' & e' & E)]]]; rewrite E; reflexivity.
Qed.

(** A finite quotient by a divisor that is not negative has a positive
    divisor. *)
Lemma SFdiv_finite_divisor x y :
  SF_neg y = false -> SF_finite (SF64div x y) = true -> SF_pos y = true.
Proof.
  intros Hy H.
  destruct y as [sy|sy| |sy my ey]; try discriminate;
    try (destruct sy; try discriminate; reflexivity).
  - destruct x as [sx|sx| |sx mx ex]; discriminate.
  - destruct x as [sx|sx| |sx mx ex]; discriminate.
Qed.

Lemma floor_SFV z n :
  valid_binary z = true -> SF_neg z = false ->
  floor_spec z = inr n -> n = SFV z / 2 ^ 1074.
Proof.
  intros V Hz H.
  destruct z as [s|s| |s m e]; try discriminate.
  - injection H as <-. destruct s; reflexivity.
  - destruct s; [discriminate|].
    injection H as <-. cbn [cond_Zopp SFV].
    simpl in V. apply valid_bounds in V. destruct V as (H1 & H2 & H3).
    destruct (Z_le_gt_dec 0 e) as [Hpos|Hneg].
    + rewrite Z.shiftl_mul_pow2 by lia.
      rewrite Z.pow_add_r by lia. rewrite Z.mul_assoc.
      rewrite Z.div_mul; [reflexivity|].
      apply Z.pow_nonzero; lia.
    + rewrite Z.shiftl_div_pow2 by lia.
      replace 1074 with ((- e) + (e + 1074)) at 2 by ring.
      rewrite (Z.pow_add_r 2 (- e) (e + 1074)) by lia.
      rewrite Z.div_mul_cancel_r; [reflexivity| |];
        apply Z.pow_nonzero; lia.
Qed.

(** Division by a positive divisor is antitone in the divisor, for every
    dividend that is not negative. *)
Lemma SFdiv_antitone_pos x y1 y2 :
  valid_binary x = true -> valid_binary y1 = true -> valid_binary y2 = true ->
  SF_neg x = false -> SF_pos y1 = true -> SF_pos y2 = true ->
  SFV y1 <= SFV y2 ->
  SFV (SF64div x y2) <= SFV (SF64div x y1).
Proof.
  intros Vx V1 V2 Hx P1 P2 H.
  destruct y1 as [s1|s1| |s1 m1 e1]; try discriminate;
    destruct s1; try discriminate;
    destruct y2 as [s2|s2| |s2 m2 e2]; try discriminate;
    destruct s2; try discriminate.
  - destruct x as [sx|sx| |sx mx ex]; cbn [SF64div SFdiv]; lia.
  - exfalso. simpl in V2. pose proof (SFV_finite_lt _ _ V2) as Hlt.
    change (SFV (S754_infinity false)) with (2 ^ 2098) in H. lia.
  - destruct x as [sx|sx| |sx mx ex];
      try (cbn [SF64div SFdiv xorb SFV]; lia).
    + destruct sx; [discriminate|]. cbn [SF64div SFdiv xorb SFV].
      apply Z.pow_nonneg; lia.
    + change (SF64div (S754_finite sx mx ex) (S754_infinity false))
        with (S754_zero (xorb sx false)).
      cbn [SFV]. apply SFV_nonneg.
  - destruct x as [sx|sx| |sx mx ex];
      try (cbn [SF64div SFdiv xorb SFV]; lia).
    destruct sx; [discriminate|].
    apply SFdiv_antitone; assumption.
Qed.

Local Open Scope float_scope.

Lemma ltb_zero_pos x : (0 <? x) = true -> SF_pos (Prim2SF x) = true.
Proof.
  rewrite ltb_spec. change (Prim2SF 0) with (S754_zero false).
  unfold SFltb.
  destruct (Prim2SF x) as [s|s| |s m e]; simpl; try discriminate;
    destruct s; try discriminate; reflexivity.
Qed.

Lemma SF_pos_not_neg x : SF_pos x = true -> SF_neg x = false.
Proof. destruct x as [s|s| |s m e]; try discriminate; destruct s; easy. Qed.

Lemma floor_spec_finite z n : floor_spec z = inr n -> SF_finite z = true.
Proof. destruct z; try discriminate; reflexivity. Qed.

(** In binary64 the strut count grows with the mean radius. *)
Lemma n_arc_monotone (w angle_start angle_end r_mid1 r_mid2 : float) :
  (0 <? w) = true -> (0 <? r_mid1) = true -> (r_mid1 <=? r_mid2) = true ->
  (angle_start <? angle_end) = true ->
  forall n1 n2,
    n_arc w angle_start angle_end r_mid1 = inr n1 ->
    n_arc w angle_start angle_end r_mid2 = inr n2 ->
    (n1 <= n2)%Z.
Proof.
  intros Hw Hr1 Hr Ha n1 n2.
  unfold n_arc. cbn [int_floor arith sub div]. unfold floor_int.
  rewrite !div_spec.
  apply ltb_zero_pos in Hw, Hr1.
  rewrite leb_spec in Hr.
  destruct (SFleb_SFV _ _ (Prim2SF_valid r_mid1) (Prim2SF_valid r_mid2) Hr1 Hr)
    as [Hr2 Hle].
  apply sub_lt_not_neg in Ha. rewrite ltb_zero in Ha.
  set (X := Prim2SF (angle_end - angle_start)) in *.
  assert (VX : valid_binary X = true) by apply Prim2SF_valid.
  assert (VD1 : valid_binary (SF64div (Prim2SF w) (Prim2SF r_mid1)) = true)
    by (rewrite <- div_spec; apply Prim2SF_valid).
  assert (VD2 : valid_binary (SF64div (Prim2SF w) (Prim2SF r_mid2)) = true)
    by (rewrite <- div_spec; apply Prim2SF_valid).
  pose proof (SFdiv_pos_not_neg _ _ (SF_pos_not_neg _ Hw) Hr1) as ND1.
  pose proof (SFdiv_pos_not_neg _ _ (SF_pos_not_neg _ Hw) Hr2) as ND2.
  pose proof (SFdiv_antitone_pos _ _ _ (Prim2SF_valid w)
                (Prim2SF_valid r_mid1) (Prim2SF_valid r_mid2)
                (SF_pos_not_neg _ Hw) Hr1 Hr2 Hle) as HD.
  set (D1 := SF64div (Prim2SF w) (Prim2SF r_mid1)) in *.
  set (D2 := SF64div (Prim2SF w) (Prim2SF r_mid2)) in *.
  intros H1 H2.
  pose proof (SFdiv_finite_divisor _ _ ND1 (floor_spec_finite _ _ H1)) as PD1.
  pose proof (SFdiv_finite_divisor _ _ ND2 (floor_spec_finite _ _ H2)) as PD2.
  pose proof (SFdiv_antitone_pos X D2 D1 VX VD2 VD1 Ha PD2 PD1 HD) as HQ.
  assert (VQ1 : valid_binary (SF64div X D1) = true).
  { subst X D1. rewrite <- !div_spec. apply Prim2SF_valid. }
  assert (VQ2 : valid_binary (SF64div X D2) = true).
  { subst X D2. rewrite <- !div_spec. apply Prim2SF_valid. }
  rewrite (floor_SFV _ _ VQ1 (SFdiv_pos_not_neg _ _ Ha PD1) H1).
  rewrite (floor_SFV _ _ VQ2 (SFdiv_pos_not_neg _ _ Ha PD2) H2).
  apply Z.div_le_mono; [|exact HQ].
  apply Z.pow_pos_nonneg; lia.
Qed.

End Round64Facts.

(** * The claims *)

Section ZigzagClaims.

Context {F : Type} {AF : Arith F} {MEM : Memory}.
Variable hypot : F -> F -> F.
Local Open Scope arith_scope.

Local Abbreviation pt := (@point F).

(** A call with a half-cycle count, a connector of non-zero length and
    room for the arrays draws the one polyline [full_path]. *)
Lemma draw_zigzag_draws (start end_ : pt) pitch fraction_zigzag amplitude n c :
  n_half hypot start end_ pitch fraction_zigzag = inr n ->
  (L_total hypot start end_ == 0) = false ->
  fits (n + 9) = true ->
  let p := full_path hypot start end_ fraction_zigzag amplitude n in
  draw_zigzag hypot start end_ pitch fraction_zigzag amplitude c
  = (Ok tt, c ++ [Plot (fst p) (snd p)]).
Proof.
  intros Hn HL Hf. cbv zeta.
  rewrite draw_zigzag_eq, Hn, HL.
  rewrite (refusal_fits _ (fits_le _ (n + 1) Hf ltac:(lia))).
  rewrite (refusal_fits _ Hf). reflexivity.
Qed.







End ZigzagClaims.

Section LatticeClaims.

Context {F : Type} {AF : Arith F} {MEM : Memory}.
Variables cos sin : F -> F.
Local Open Scope arith_scope.

(** C3. Whenever [angle_start >= angle_end] the call raises [ValueError],
    whatever the other arguments are, and the canvas is as it was: the
    check comes before any computation or drawing. *)
Theorem invalid_angle_range_raises_first
        r_in r_out h w angle_start angle_end c :
  (angle_start >=? angle_end) = true ->
  plot_lattice_hex cos sin r_in r_out h w angle_start angle_end c
    = (Raise ValueError, c).
Proof.
  intros H. unfold plot_lattice_hex. rewrite H. reflexivity.
Qed.

End LatticeClaims.

(** ** Claims read in binary64 *)

Module B64Claims.

Import B64 B64Facts.
Local Open Scope float_scope.

(** *** Connectors along the x axis

    On a horizontal connector both lengths are [hypot(x, 0)], which every
    [hypot] computes exactly. *)

Lemma abs_zero x : (x =? 0) = true -> (abs x =? 0) = true.
Proof.
  rewrite !eqb_zero, abs_spec.
  destruct (Prim2SF x); try discriminate; reflexivity.
Qed.

Lemma axis_hypot_zero hypot :
  exact_on_axis hypot ->
  forall x y, (x =? 0) = true -> (y =? 0) = true -> (hypot x y =? 0) = true.
Proof.
  intros Hax x y Hx Hy. rewrite (Hax x y Hy). now apply abs_zero.
Qed.

Lemma draw_zigzag_on_axis {MEM : Memory} hypot (start end_ : point)
      pitch fraction_zigzag amplitude c :
  exact_on_axis hypot ->
  (snd end_ - snd start =? 0) = true ->
  (snd (p_zig_end start end_ fraction_zigzag)
   - snd (p_zig_start start end_ fraction_zigzag) =? 0) = true ->
  draw_zigzag hypot start end_ pitch fraction_zigzag amplitude c
  = draw_zigzag (fun x _ => abs x) start end_ pitch fraction_zigzag
                amplitude c.
Proof.
  intros Hax Hy Hz. apply draw_zigzag_ext.
  - unfold L_total. now apply Hax.
  - unfold L_zig. now apply Hax.
Qed.

Lemma n_half_on_axis hypot (start end_ : point) pitch fraction_zigzag :
  exact_on_axis hypot ->
  (snd (p_zig_end start end_ fraction_zigzag)
   - snd (p_zig_start start end_ fraction_zigzag) =? 0) = true ->
  n_half hypot start end_ pitch fraction_zigzag
  = n_half (fun x _ => abs x) start end_ pitch fraction_zigzag.
Proof.
  intros Hax Hz. apply n_half_ext. unfold L_zig. now apply Hax.
Qed.

Lemma L_total_on_axis hypot (start end_ : point) :
  exact_on_axis hypot ->
  (snd end_ - snd start =? 0) = true ->
  L_total hypot start end_ = abs (fst end_ - fst start).
Proof. intros Hax Hy. unfold L_total. now apply Hax. Qed.

Lemma L_zig_on_axis hypot (start end_ : point) fraction_zigzag :
  exact_on_axis hypot ->
  (snd (p_zig_end start end_ fraction_zigzag)
   - snd (p_zig_start start end_ fraction_zigzag) =? 0) = true ->
  L_zig hypot start end_ fraction_zigzag
  = abs (fst (p_zig_end start end_ fraction_zigzag)
         - fst (p_zig_start start end_ fraction_zigzag)).
Proof. intros Hax Hz. unfold L_zig. now apply Hax. Qed.

Lemma invalid_angle_range_witness :
  (0.5 <=? 1) = true
  /\ forall (MEM : Memory) cos sin,
       plot_lattice_hex cos sin 1 2 0.3 0.1 1 0.5 []
         = (Raise ValueError, []).
Proof.
  split; [reflexivity|].
  intros MEM cos sin.
  apply (invalid_angle_range_raises_first cos sin 1 2 0.3 0.1 1 0.5 []).
  reflexivity.
Defined.



(** *** C4: the baseline of the zigzag region *)

(** C4 (amended). When [floor(L_zig / pitch)] converts to the integer [k],
    the connector has non-zero length and the arrays fit, the half-cycle
    count is [n_half = max(1, k)] and the call draws a path whose zigzag
    sub-path, the [n_half + 1] points after the four of the lead-in, is
    the baseline of [n_half + 1] points after displacement.  For
    start = (0,0), end = (1,0), pitch = 0.25, fraction_zigzag = 0.5 and
    amplitude = 0.05 the region spans x in [0.25, 0.75], its length is 0.5,
    [n_half = 2], the three baseline points are at x = 0.25, 0.5, 0.75 and
    the zigzag sub-path drawn is (0.25, 0), (0.5, 0.05), (0.75, 0). *)
Theorem baseline_has_n_half_plus_1_points :
  (forall (F : Type) (AF : Arith F) (MEM : Memory) (hypot : F -> F -> F)
          (start end_ : point) (pitch fraction_zigzag amplitude : F)
          (k : Z) c,
      int_floor (L_zig hypot start end_ fraction_zigzag / pitch)%A = inr k ->
      (L_total hypot start end_ == 0)%A = false ->
      let n := Z.max 1 k in
      fits (n + 9) = true ->
      n_half hypot start end_ pitch fraction_zigzag = inr n
      /\ exists xs ys,
           draw_zigzag hypot start end_ pitch fraction_zigzag amplitude c
             = (Ok tt, c ++ [Plot xs ys])
           /\ zigzag_part (xs, ys) n
              = points (zigzag hypot start end_ fraction_zigzag amplitude n)
           /\ Z.of_nat (length (zigzag_part (xs, ys) n)) = (n + 1)%Z
           /\ Z.of_nat
                (length (points (baseline start end_ fraction_zigzag n)))
              = (n + 1)%Z)
  /\ (forall (MEM : Memory) hypot,
         exact_on_axis hypot ->
         p_zig_start (0, 0) (1, 0) 0.5 = (0.25, 0)
         /\ p_zig_end (0, 0) (1, 0) 0.5 = (0.75, 0)
         /\ L_zig hypot (0, 0) (1, 0) 0.5 = 0.5
         /\ n_half hypot (0, 0) (1, 0) 0.25 0.5 = inr 2%Z
         /\ points (baseline (0, 0) (1, 0) 0.5 2)
            = [(0.25, 0); (0.5, 0); (0.75, 0)]
         /\ exists xs ys,
              draw_zigzag hypot (0, 0) (1, 0) 0.25 0.5 0.05 []
                = (Ok tt, [Plot xs ys])
              /\ zigzag_part (xs, ys) 2
                 = [(0.25, 0); (0.5, 0.05); (0.75, 0)]).
Proof.
  split.
  - intros F AF MEM hypot start end_ pitch fraction_zigzag amplitude k c
           Hk HL n Hf.
    assert (Hn : n_half hypot start end_ pitch fraction_zigzag = inr n)
      by now apply n_half_max.
    split; [exact Hn|].
    exists (fst (full_path hypot start end_ fraction_zigzag amplitude n)),
           (snd (full_path hypot start end_ fraction_zigzag amplitude n)).
    split; [now apply draw_zigzag_draws|].
    rewrite zigzag_part_full_path by (subst n; lia).
    split; [reflexivity|].
    pose proof (length_baseline start end_ fraction_zigzag n) as [Hx Hy].
    pose proof (length_zigzag hypot start end_ fraction_zigzag amplitude n)
      as [Hzx Hzy].
    rewrite !length_points, Hx, Hy, Hzx, Hzy. subst n. lia.
  - intros MEM hypot Hax.
    split; [reflexivity|]. split; [reflexivity|].
    split.
    { rewrite (L_zig_on_axis hypot) by (assumption || reflexivity).
      reflexivity. }
    split.
    { rewrite (n_half_on_axis hypot) by (assumption || reflexivity).
      reflexivity. }
    split; [reflexivity|].
    rewrite (draw_zigzag_on_axis hypot) by (assumption || reflexivity).
    do 2 eexists. split; vm_compute; reflexivity.
Qed.

Lemma baseline_count_witness :
  on_every_machine (fun MEM => forall_hypot (fun hypot =>
    int_floor (L_zig hypot (0, 0) (1, 0) 0.5 / 0.25) = inr 2%Z
    /\ (L_total hypot (0, 0) (1, 0) =? 0) = false
    /\ fits (Z.max 1 2 + 9) = true
    /\ n_half hypot (0, 0) (1, 0) 0.25 0.5 = inr 2%Z
    /\ exists xs ys,
         draw_zigzag hypot (0, 0) (1, 0) 0.25 0.5 0.05 []
           = (Ok tt, [Plot xs ys])
         /\ Z.of_nat (length (zigzag_part (xs, ys) 2)) = 3%Z)).
Proof.
  intros MEM hypot Hax.
  assert (Hk : int_floor (L_zig hypot (0, 0) (1, 0) 0.5 / 0.25)%A
               = inr 2%Z).
  { rewrite (L_zig_on_axis hypot) by (assumption || reflexivity).
    reflexivity. }
  assert (HL : (L_total hypot (0, 0) (1, 0) == 0)%A = false).
  { rewrite (L_total_on_axis hypot) by (assumption || reflexivity).
    reflexivity. }
  assert (Hf : fits (Z.max 1 2 + 9) = true) by reflexivity.
  split; [exact Hk|]. split; [exact HL|]. split; [exact Hf|].
  destruct (proj1 baseline_has_n_half_plus_1_points float arith MEM hypot
              (0, 0) (1, 0) 0.25 0.5 0.05 2%Z [] Hk HL Hf)
    as (Hn & xs & ys & Hd & _ & Hlen & _).
  split; [exact Hn|]. exists xs, ys. split; [exact Hd | exact Hlen].
Defined.

(** With the smallest positive pitch the quotient [L_zig / pitch]
    overflows: [int(np.floor(inf))] raises [OverflowError] and there is
    no path. *)
Lemma tiny_pitch_has_no_zigzag :
  ~ (exists (MEM : Memory) hypot,
        exact_on_axis hypot
        /\ zigzag_has_n_half_plus_1_points hypot (0, 0) (1, 0)
             0x1p-1074 0.5 0.05).
Proof.
  intros (MEM & hypot & Hax & H).
  assert (HL : (L_total hypot (0, 0) (1, 0) == 0)%A = false).
  { rewrite (L_total_on_axis hypot) by (assumption || reflexivity).
    reflexivity. }
  destruct (H HL eq_refl []) as (k & xs & ys & Hk & _).
  rewrite (L_zig_on_axis hypot) in Hk by (assumption || reflexivity).
  vm_compute in Hk. discriminate.
Qed.

(** *** C1: the two ends of the path *)

Lemma first_point_exact {MEM : Memory} hypot (start end_ : point)
      pitch fraction_zigzag amplitude n c :
  n_half hypot start end_ pitch fraction_zigzag = inr n ->
  (L_total hypot start end_ =? 0) = false ->
  fits (n + 9) = true ->
  finite (fst start) = true -> finite (snd start) = true ->
  finite (fst (p_zig_start start end_ fraction_zigzag) - fst start) = true ->
  finite (snd (p_zig_start start end_ fraction_zigzag) - snd start) = true ->
  let pze := p_zig_end start end_ fraction_zigzag in
  exists xs ys p,
    draw_zigzag hypot start end_ pitch fraction_zigzag amplitude c
      = (Ok tt, c ++ [Plot xs ys])
    /\ first_point (xs, ys) = Some p /\ point_eqb p start = true
    /\ last_point (xs, ys)
       = Some (fst pze + 1 * (fst end_ - fst pze),
               snd pze + 1 * (snd end_ - snd pze)).
Proof.
  intros Hn HL Hf Fx Fy Fdx Fdy pze.
  destruct (@linspace_5 float arith) as (t0 & t1 & t2 & t3 & Ht & Ht0).
  assert (t0 = 0) as -> by (destruct Ht0 as [-> | ->]; reflexivity).
  destruct (full_path_ends hypot start end_ fraction_zigzag amplitude n
              _ _ _ _ Ht) as [Hfirst Hlast].
  pose proof (draw_zigzag_draws hypot start end_ pitch fraction_zigzag
                amplitude n c Hn HL Hf) as Hd. cbv zeta in Hd.
  destruct (full_path hypot start end_ fraction_zigzag amplitude n)
    as [xs ys] eqn:Ep.
  exists xs, ys. eexists.
  split; [exact Hd|].
  split; [exact Hfirst|].
  split; [|exact Hlast].
  unfold point_eqb. cbn [fst snd].
  apply andb_true_intro. split; now apply add_zero_mul.
Qed.

(** From (-3, 0) to (0.1, 0) the last point plotted has abscissa
    0.09999999999999998: [p_zig_end + 1 * (end - p_zig_end)] with a
    rounded difference. *)
Lemma last_point_misses_end :
  ~ (exists (MEM : Memory) hypot,
        exact_on_axis hypot
        /\ endpoints_exact hypot (-3, 0) (0.1, 0) 0.25 0.5 0.05).
Proof.
  intros (MEM & hypot & Hax & H).
  assert (exists xs ys,
             draw_zigzag hypot (-3, 0) (0.1, 0) 0.25 0.5 0.05 []
               = (Ok tt, [] ++ [Plot xs ys])
             /\ last_point (xs, ys) = Some (0.099999999999999978, 0))
    as (xs & ys & Hd & Hl).
  { rewrite (draw_zigzag_on_axis hypot) by (assumption || reflexivity).
    do 2 eexists. split; vm_compute; reflexivity. }
  destruct (H [] xs ys Hd) as (p & q & _ & Hq & _ & Hend).
  rewrite Hl in Hq. injection Hq as <-.
  vm_compute in Hend. discriminate.
Qed.

(** *** C2: the ring boundaries *)

Lemma radii_of_valid_range {MEM : Memory} r_in r_out h n c :
  (r_in <? r_out) = true -> (0 <? h) = true ->
  floor_int ((r_out - r_in) / h) = inr n ->
  fits (n + 2) = true ->
  (0 <= n)%Z
  /\ prepare_radii r_in r_out h c = (Ok (radii r_in r_out h n), c)
  /\ radii r_in r_out h n
     = map (fun k => r_in + of_Z k * h) (arange_values (n + 1))
       ++ (if r_in + of_Z n * h <? r_out then [r_out] else [])
  /\ final_radius (radii r_in r_out h n)
     = Some (if r_in + of_Z n * h <? r_out then r_out
             else r_in + of_Z n * h).
Proof.
  intros Hr Hh Hn Hf.
  assert (H0 : (0 <= n)%Z).
  { apply (floor_div_nonneg (r_out - r_in) h); auto.
    now apply sub_lt_not_neg. }
  split; [exact H0|]. split; [|split].
  - apply prepare_radii_fits; auto. now apply pos_not_zero.
  - rewrite radii_app. reflexivity.
  - rewrite (final_radius_radii r_in r_out h n H0). reflexivity.
Qed.

(** With r_in = 0, r_out = 3.9, h = 1.3 the boundaries are
    [0, 1.3, 2.6, 3.9000000000000004]: three times 1.3 rounds above 3.9,
    nothing is appended, and the outermost arc lies beyond [r_out]. *)
Lemma final_radius_exceeds_r_out :
  ~ (exists MEM : Memory, final_radius_is_r_out 0 3.9 1.3).
Proof.
  intros (MEM & H).
  assert (prepare_radii 0 3.9 1.3 []
          = (Ok [0; 1.3; 2.6; 3.9000000000000004], [])) as Hp
    by reflexivity.
  destruct (H [] _ Hp) as (r & Hr & Heq).
  vm_compute in Hr. injection Hr as <-.
  vm_compute in Heq. discriminate.
Qed.

(** *** C9: the zero-length connector *)

(** C9 (amended). With [start == end] the call returns normally and the
    canvas is as it was provided the coordinates are finite, the straight
    share of the connector is finite, the pitch is neither zero nor NaN,
    and [hypot] maps two zeros to zero: then [L_total == 0] holds and the
    function returns before the perpendicular direction, the only
    division by [L_total], is computed. *)
Theorem zero_length_draws_nothing
        (MEM : Memory) (hypot : float -> float -> float)
        (start end_ : point) pitch fraction_zigzag amplitude c :
  (forall x y, (x =? 0) = true -> (y =? 0) = true ->
               (hypot x y =? 0) = true) ->
  finite (fst start) = true -> finite (snd start) = true ->
  (fst end_ =? fst start) = true -> (snd end_ =? snd start) = true ->
  finite (straight_frac fraction_zigzag) = true ->
  finite (1 - straight_frac fraction_zigzag) = true ->
  (pitch =? 0) = false -> (pitch =? pitch) = true ->
  draw_zigzag hypot start end_ pitch fraction_zigzag amplitude c = (Ok tt, c)
  /\ (L_total hypot start end_ =? 0) = true.
Proof.
  destruct start as [xs ys], end_ as [xe ye]. cbn [fst snd].
  intros Hhyp Fx Fy Ex Ey Fs Fs' Hp0 Hpn.
  assert (Dx : (xe - xs =? 0) = true)
    by (apply (sub_eqb_zero xs); auto using finite_eqb_refl).
  assert (Dy : (ye - ys =? 0) = true)
    by (apply (sub_eqb_zero ys); auto using finite_eqb_refl).
  assert (HL : (L_total hypot (xs, ys) (xe, ye) =? 0) = true)
    by (apply Hhyp; assumption).
  assert (HZ : (L_zig hypot (xs, ys) (xe, ye) fraction_zigzag =? 0) = true).
  { unfold L_zig, p_zig_start, p_zig_end. cbn [fst snd].
    apply Hhyp.
    - apply (sub_eqb_zero xs); auto; apply add_zero_r; auto;
        apply mul_zero_r; auto.
    - apply (sub_eqb_zero ys); auto; apply add_zero_r; auto;
        apply mul_zero_r; auto. }
  split; [|exact HL].
  rewrite draw_zigzag_eq. unfold n_half.
  change (int_floor (L_zig hypot (xs, ys) (xe, ye) fraction_zigzag / pitch)%A)
    with (floor_int (L_zig hypot (xs, ys) (xe, ye) fraction_zigzag / pitch)).
  rewrite (floor_div_zero _ _ HZ Hp0 Hpn).
  change (L_total hypot (xs, ys) (xe, ye) == 0)%A
    with (L_total hypot (xs, ys) (xe, ye) =? 0).
  rewrite HL. reflexivity.
Qed.

Lemma zero_length_witness :
  on_every_machine (fun MEM => forall_hypot (fun hypot =>
    draw_zigzag hypot (1, 1) (1, 1) 0.1 0.5 0.05 [] = (Ok tt, [])
    /\ (L_total hypot (1, 1) (1, 1) =? 0) = true)).
Proof.
  intros MEM hypot Hax.
  apply (zero_length_draws_nothing MEM hypot (1, 1) (1, 1) 0.1 0.5 0.05 []);
    try reflexivity.
  now apply axis_hypot_zero.
Defined.

(** With [start == end] and [pitch = 0] the quotient [L_zig / pitch] is
    0/0: [int(np.floor(nan))] raises [ValueError] at line 42, before the
    test on [L_total]. *)
Lemma zero_length_zero_pitch_raises :
  ~ (exists (MEM : Memory) hypot,
        exact_on_axis hypot
        /\ zero_length_is_noop hypot (1, 1) 0 0.5 0.05).
Proof.
  intros (MEM & hypot & Hax & H).
  specialize (H []).
  rewrite (draw_zigzag_on_axis hypot) in H by (assumption || reflexivity).
  vm_compute in H. discriminate.
Qed.

(** *** C7: a pitch or an arc width that is not positive *)

Lemma negative_pitch_is_clamped {MEM : Memory}
      (hypot : float -> float -> float) (start end_ : point)
      pitch fraction_zigzag amplitude k c :
  (pitch <? 0) = true ->
  (L_zig hypot start end_ fraction_zigzag <? 0) = false ->
  floor_int (L_zig hypot start end_ fraction_zigzag / pitch) = inr k ->
  (L_total hypot start end_ =? 0) = false ->
  let p := full_path hypot start end_ fraction_zigzag amplitude 1 in
  n_half hypot start end_ pitch fraction_zigzag = inr 1%Z
  /\ draw_zigzag hypot start end_ pitch fraction_zigzag amplitude c
     = (Ok tt, c ++ [Plot (fst p) (snd p)]).
Proof.
  intros Hp HZ Hk HL p.
  assert (Hk0 : (k <= 0)%Z).
  { apply (floor_not_posfin _ _ (div_nonneg_neg _ _ HZ Hp) Hk). }
  assert (Hn : n_half hypot start end_ pitch fraction_zigzag = inr 1%Z).
  { unfold n_half.
    change (int_floor (L_zig hypot start end_ fraction_zigzag / pitch)%A)
      with (floor_int (L_zig hypot start end_ fraction_zigzag / pitch)).
    rewrite Hk. f_equal.
    destruct (k <? 1)%Z eqn:E; [reflexivity | apply Z.ltb_ge in E; lia]. }
  split; [exact Hn|].
  apply draw_zigzag_draws; [exact Hn | exact HL | reflexivity].
Qed.

(** Whenever the integer conversion of [L_zig / pitch] raises, the call
    raises the same exception and the canvas is as it was. *)
Lemma failed_conversion_raises_first {MEM : Memory}
      (hypot : float -> float -> float) (start end_ : point)
      pitch fraction_zigzag amplitude e c :
  floor_int (L_zig hypot start end_ fraction_zigzag / pitch) = inl e ->
  draw_zigzag hypot start end_ pitch fraction_zigzag amplitude c
  = (Raise e, c).
Proof.
  intros He. rewrite draw_zigzag_eq. unfold n_half.
  change (int_floor (L_zig hypot start end_ fraction_zigzag / pitch)%A)
    with (floor_int (L_zig hypot start end_ fraction_zigzag / pitch)).
  rewrite He. reflexivity.
Qed.

Lemma zero_pitch_raises {MEM : Memory}
      (hypot : float -> float -> float) (start end_ : point)
      pitch fraction_zigzag amplitude :
  (pitch =? 0) = true ->
  fails_fast (draw_zigzag hypot start end_ pitch fraction_zigzag amplitude).
Proof.
  intros Hp c.
  destruct (floor_div_by_zero (L_zig hypot start end_ fraction_zigzag)
              pitch Hp) as [e He].
  exists e. now apply failed_conversion_raises_first.
Qed.

(** With [w <= 0] the strut count of a ring of non-negative radii is an
    exception, zero or negative: the iteration raises, and by then its two
    arcs are on the canvas. *)
Lemma nonpositive_w_raises_after_arcs {MEM : Memory}
      (cos sin : float -> float) w angle_start angle_end
      angles_fine r_values i c :
  (w <=? 0) = true ->
  (nth i r_values 0 <? 0) = false ->
  (nth (i + 1) r_values 0 <? 0) = false ->
  (angle_start <? angle_end) = true ->
  exists e,
    ring cos sin w angle_start angle_end angles_fine r_values i c
    = (Raise e, c ++ [arc cos sin angles_fine (nth i r_values 0);
                      arc cos sin angles_fine (nth (i + 1) r_values 0)]).
Proof.
  intros Hw H1 H2 Ha.
  destruct (ring cos sin w angle_start angle_end angles_fine r_values i c)
    as [[[]|e] c'] eqn:H.
  2:{ exists e. f_equal. now apply ring_raise in H. }
  exfalso.
  apply ring_ok_inv in H. destruct H as [(n & Hn & En) _].
  change (nth i r_values 0%A) with (nth i r_values 0) in En.
  change (nth (i + 1) r_values 0%A) with (nth (i + 1) r_values 0) in En.
  assert (Hle : (n <= 0)%Z).
  { unfold n_arc in En.
    refine (floor_not_posfin _ _ _ En).
    apply div_nonneg_not_posfin; [now apply sub_lt_not_neg|].
    apply div_nonpos_nonneg; [assumption|].
    now apply mean_not_neg. }
  lia.
Qed.

(** [a < b] excludes [b <= a]: the guard on the angle range passes. *)
Lemma SFcompare_antisym a b :
  SFcompare b a = option_map CompOpp (SFcompare a b).
Proof.
  destruct a as [[]|[]| |[] ma ea], b as [[]|[]| |[] mb eb];
    try reflexivity; cbn [SFcompare option_map];
    rewrite (Z.compare_antisym ea eb);
    destruct (ea ?= eb)%Z; cbn [CompOpp]; try reflexivity;
    change (PosDef.Pos.compare_cont Eq mb ma) with (Pos.compare mb ma);
    change (PosDef.Pos.compare_cont Eq ma mb) with (Pos.compare ma mb);
    rewrite (Pos.compare_antisym ma mb);
    destruct (ma ?= mb)%positive; reflexivity.
Qed.

Lemma ltb_not_ge a b : (a <? b) = true -> (b <=? a) = false.
Proof.
  rewrite ltb_spec, leb_spec. unfold SFltb, SFleb.
  rewrite (SFcompare_antisym (Prim2SF a) (Prim2SF b)).
  destruct (SFcompare (Prim2SF a) (Prim2SF b)) as [[]|];
    try discriminate; reflexivity.
Qed.

(** The first boundary [r_in + 0 * h] compares like [r_in]. *)
Lemma first_radius_ltb r_in r_out h :
  (0 <? h) = true -> finite h = true ->
  (r_in + of_Z 0 * h <? r_out) = (r_in <? r_out).
Proof.
  unfold finite.
  rewrite !ltb_spec, add_spec, mul_spec, of_Z_0.
  change (Prim2SF 0) with (S754_zero false).
  destruct (Prim2SF h) as [sh|sh| |[] mh eh]; try discriminate; intros _ _.
  change (SF64mul (S754_zero false) (S754_finite false mh eh))
    with (S754_zero false).
  destruct (Prim2SF r_in) as [[]|[]| |[] m e]; reflexivity.
Qed.

Lemma first_radius_not_neg r_in h :
  (r_in <? 0) = false -> (r_in + of_Z 0 * h <? 0) = false.
Proof.
  rewrite !ltb_zero, add_spec, mul_spec, of_Z_0.
  change (Prim2SF 0) with (S754_zero false).
  intros Hr.
  destruct (SF_neg (SF64add (Prim2SF r_in)
                            (SF64mul (S754_zero false) (Prim2SF h))))
    eqn:E; [|reflexivity].
  apply SFadd_neg in E. destruct E as [E|E]; [congruence|].
  destruct (Prim2SF h) as [[]|[]| |[] mh eh]; discriminate.
Qed.

Lemma second_radius_not_neg r_in h :
  (r_in <? 0) = false -> (0 <? h) = true ->
  (r_in + of_Z 1 * h <? 0) = false.
Proof.
  rewrite !ltb_zero, ltb_spec, add_spec, mul_spec, of_Z_1.
  change (Prim2SF 0) with (S754_zero false).
  intros Hr Hh.
  destruct (SF_neg (SF64add (Prim2SF r_in)
                            (SF64mul (Prim2SF 1) (Prim2SF h))))
    eqn:E; [|reflexivity].
  apply SFadd_neg in E. destruct E as [E|E]; [congruence|].
  apply SFmul_posfin_neg in E; [|reflexivity].
  destruct (Prim2SF h) as [[]|[]| |[] mh eh]; discriminate.
Qed.

Lemma above_not_neg a b :
  (a <? 0) = false -> (a <? b) = true -> (b <? 0) = false.
Proof.
  rewrite !ltb_zero, ltb_spec.
  destruct (Prim2SF a) as [[]|[]| |[] ma ea],
           (Prim2SF b) as [[]|[]| |[] mb eb];
    try discriminate; reflexivity.
Qed.

(** The first two ring boundaries of a valid range. *)
Lemma first_two_radii r_in r_out h n :
  (0 <= n)%Z ->
  (r_in + of_Z 0 * h <? r_out) = true ->
  (2 <= length (radii r_in r_out h n))%nat
  /\ nth 0 (radii r_in r_out h n) 0 = r_in + of_Z 0 * h
  /\ (nth 1 (radii r_in r_out h n) 0 = r_in + of_Z 1 * h
      \/ nth 1 (radii r_in r_out h n) 0 = r_out).
Proof.
  intros Hn Hlt.
  destruct (Z.eq_dec n 0) as [->|Hne].
  - unfold radii, last_regular, regular_radii.
    change (of_int 0%Z) with (of_Z 0).
    change ((r_in + of_Z 0 * h)%A <? r_out)%A
      with (r_in + of_Z 0 * h <? r_out).
    rewrite Hlt. cbn. repeat split; auto.
  - assert (exists rest, arange_values (n + 1) = 0%Z :: 1%Z :: rest)
      as [rest Hr].
    { unfold arange_values.
      destruct (Z.to_nat (n + 1)) as [|[|k]] eqn:E; [lia | lia |].
      eexists. reflexivity. }
    rewrite radii_app. unfold regular_radii. rewrite Hr.
    cbn [map app nth length]. repeat split; auto. lia.
Qed.

(** With [w <= 0], a valid angle range, [0 <= r_in < r_out], a finite
    [h > 0], a ring count that converts and radii that fit, the call
    raises in the first iteration of the ring loop: the two arcs of the
    first ring are drawn, and nothing else. *)
Lemma nonpositive_w_raises_in_first_ring {MEM : Memory}
      (cos sin : float -> float) r_in r_out h w angle_start angle_end n c :
  (w <=? 0) = true ->
  (angle_start <? angle_end) = true ->
  (r_in <? 0) = false -> (r_in <? r_out) = true ->
  (0 <? h) = true -> finite h = true ->
  floor_int ((r_out - r_in) / h) = inr n ->
  fits (n + 2) = true ->
  let angles_fine := linspace_samples angle_start angle_end 300 true in
  let r_values := radii r_in r_out h n in
  exists e,
    plot_lattice_hex cos sin r_in r_out h w angle_start angle_end c
    = (Raise e, c ++ [arc cos sin angles_fine (nth 0 r_values 0);
                      arc cos sin angles_fine (nth 1 r_values 0)]).
Proof.
  intros Hw Ha Hr0 Hr Hh Fh Hn Hf angles_fine r_values.
  destruct (radii_of_valid_range r_in r_out h n c Hr Hh Hn Hf)
    as (H0 & Hp & _).
  assert (Hlt : (r_in + of_Z 0 * h <? r_out) = true)
    by (rewrite first_radius_ltb; assumption).
  destruct (first_two_radii r_in r_out h n H0 Hlt) as (Hlen & E0 & E1).
  fold r_values in Hp, Hlen, E0, E1.
  assert (N0 : (nth 0 r_values 0 <? 0) = false)
    by (rewrite E0; now apply first_radius_not_neg).
  assert (N1 : (nth 1 r_values 0 <? 0) = false).
  { destruct E1 as [-> | ->];
      [now apply second_radius_not_neg | now apply (above_not_neg r_in)]. }
  assert (Hge : (angle_start >=? angle_end)%A = false).
  { change ((angle_end <=? angle_start) = false). now apply ltb_not_ge. }
  rewrite (plot_lattice_hex_loop cos sin _ _ _ _ _ _ _ _ Hge Hp).
  destruct (nonpositive_w_raises_after_arcs cos sin w angle_start angle_end
              angles_fine r_values 0 c Hw N0 N1 Ha) as [e He].
  exists e. unfold for_range.
  destruct (length r_values - 1)%nat as [|m] eqn:El; [lia|].
  cbn [for_range_from]. unfold bind at 1.
  fold angles_fine. rewrite He. reflexivity.
Qed.

(** A negative pitch is accepted without any error. *)
Lemma negative_pitch_draws :
  ~ (exists (MEM : Memory) hypot,
        exact_on_axis hypot
        /\ fails_fast (draw_zigzag hypot (0, 0) (1, 0) (-0.25) 0.5 0.05)).
Proof.
  intros (MEM & hypot & Hax & H). destruct (H []) as [e He].
  rewrite (draw_zigzag_on_axis hypot) in He by (assumption || reflexivity).
  vm_compute in He. discriminate.
Qed.

(** *** C8: drawing and failing *)


(** *** C6: struts and mean radius *)

(** Over the full circle with w = 1 a ring of mean radius 1 gets 6 struts
    and a ring of mean radius 2 gets 12. *)
Lemma larger_ring_has_more_struts : ~ struts_decrease 1 0 twopi 1 2.
Proof.
  intros H.
  assert (H1 : n_arc 1 0 twopi 1 = inr 6%Z) by reflexivity.
  assert (H2 : n_arc 1 0 twopi 2 = inr 12%Z) by reflexivity.
  specialize (H _ _ H1 H2). lia.
Qed.

(** *** C5: the displacement in binary64 *)


End B64Claims.

(** ** Claims read in exact arithmetic *)

Module ExactClaims.

Import Exact.
Local Open Scope Q_scope.

Lemma exact_ops (x y : Q) :
  add x y = x + y /\ sub x y = x - y /\ mul x y = x * y /\ div x y = x / y.
Proof. repeat split; reflexivity. Qed.

(** A call that draws has a half-cycle count and a connector of non-zero
    length, and what it draws is [full_path]. *)
Lemma draw_zigzag_drawn {MEM : Memory} (hypot : Q -> Q -> Q)
      (start end_ : point) pitch fraction_zigzag amplitude c xs ys :
  draw_zigzag hypot start end_ pitch fraction_zigzag amplitude c
    = (Ok tt, c ++ [Plot xs ys]) ->
  exists n,
    n_half hypot start end_ pitch fraction_zigzag = inr n
    /\ ~ L_total hypot start end_ == 0
    /\ xs = fst (full_path hypot start end_ fraction_zigzag amplitude n)
    /\ ys = snd (full_path hypot start end_ fraction_zigzag amplitude n).
Proof.
  intros Hd. rewrite draw_zigzag_eq in Hd.
  destruct (n_half hypot start end_ pitch fraction_zigzag) as [e|n];
    [discriminate|].
  destruct (refusal (n + 1)); [discriminate|].
  destruct (L_total hypot start end_ == 0)%A eqn:HL.
  { exfalso. injection Hd as Hd. apply (f_equal (@length _)) in Hd.
    rewrite length_app in Hd. simpl in Hd. lia. }
  destruct (refusal (n + 9)); [discriminate|].
  cbv zeta in Hd. injection Hd as Hd. apply app_inv_head in Hd.
  injection Hd as Hx Hy.
  exists n. split; [reflexivity|].
  split; [now apply Qeq_bool_neq|].
  split; symmetry; assumption.
Qed.

(** Without rounding every path that is drawn starts at [start] and ends
    at [end_]. *)
Lemma endpoints_exact_in_Q {MEM : Memory} hypot (start end_ : point)
      pitch fraction_zigzag amplitude :
  endpoints_exact hypot start end_ pitch fraction_zigzag amplitude.
Proof.
  intros c xs ys Hd.
  apply draw_zigzag_drawn in Hd. destruct Hd as (n & _ & _ & -> & ->).
  destruct (@linspace_5 Q arith) as (t0 & t1 & t2 & t3 & Ht & Ht0).
  destruct (full_path_ends hypot start end_ fraction_zigzag amplitude n
              _ _ _ _ Ht) as [Hfirst Hlast].
  rewrite <- surjective_pairing.
  do 2 eexists. split; [exact Hfirst|]. split; [exact Hlast|].
  assert (Ht0' : t0 == 0) by (destruct Ht0 as [-> | ->]; reflexivity).
  unfold point_eqb. cbn [fst snd eqb add sub mul of_int arith].
  split; apply andb_true_intro; split; apply Qeq_bool_iff;
    try (rewrite Ht0'; ring);
    change (inject_Z 1) with 1; ring.
Qed.

(** Without rounding the last regular radius never passes [r_out], so the
    outermost boundary is [r_out]. *)
Lemma final_radius_is_r_out_in_Q {MEM : Memory} (r_in r_out h : Q) :
  r_in < r_out -> 0 < h -> final_radius_is_r_out r_in r_out h.
Proof.
  intros Hr Hh c rv Hp.
  apply prepare_radii_ok_inv in Hp.
  destruct Hp as (_ & n & Hn & H0 & ->).
  set (q := (r_out - r_in) / h).
  assert (Hq : Qfloor q = n)
    by exact (f_equal (fun r => match r with inr z => z | inl _ => 0%Z end)
                      Hn).
  clear Hn. subst n.
  set (n := Qfloor q) in *.
  rewrite (final_radius_radii r_in r_out h n H0).
  eexists. split; [reflexivity|].
  cbn [eqb ltb arith].
  destruct (Qle_bool r_out (last_regular r_in h n)) eqn:El; cbn [negb].
  - apply Qeq_bool_iff. apply Qle_bool_iff in El.
    apply Qle_antisym; [|assumption].
    unfold last_regular. cbn [add mul of_int arith].
    assert (inject_Z n * h <= q * h) as Hm.
    { apply Qmult_le_compat_r; [apply Qfloor_le | now apply Qlt_le_weak]. }
    assert (q * h == r_out - r_in) as Hqh.
    { unfold q. field. intros Hz. rewrite Hz in Hh.
      now apply Qlt_irrefl in Hh. }
    rewrite Hqh in Hm.
    apply Qplus_le_r with (z := r_in) in Hm.
    setoid_replace (r_in + (r_out - r_in)) with r_out in Hm by ring.
    exact Hm.
  - apply Qeq_bool_iff. reflexivity.
Qed.

(** Without rounding the strut count [floor(sector / (w / r_mid))] grows
    with the mean radius. *)
Lemma struts_grow_in_Q (w angle_start angle_end r_mid1 r_mid2 : Q) :
  0 < w -> 0 < r_mid1 -> r_mid1 <= r_mid2 -> angle_start <= angle_end ->
  forall n1 n2,
    n_arc w angle_start angle_end r_mid1 = inr n1 ->
    n_arc w angle_start angle_end r_mid2 = inr n2 ->
    (n1 <= n2)%Z.
Proof.
  intros Hw Hr1 Hr Ha n1 n2.
  unfold n_arc. cbn [int_floor arith sub div].
  set (q1 := (angle_end - angle_start) / (w / r_mid1)).
  set (q2 := (angle_end - angle_start) / (w / r_mid2)).
  intros H1 H2.
  assert (n1 = Qfloor q1) as -> by congruence.
  assert (n2 = Qfloor q2) as -> by congruence.
  apply Qfloor_resp_le. subst q1 q2.
  assert (Hr2 : 0 < r_mid2) by (eapply Qlt_le_trans; eassumption).
  assert (Hx : 0 <= angle_end - angle_start).
  { unfold Qminus. rewrite <- Qle_minus_iff. assumption. }
  assert (Hw0 : ~ w == 0).
  { intros E. rewrite E in Hw. now apply Qlt_irrefl in Hw. }
  assert (Hr10 : ~ r_mid1 == 0).
  { intros E. rewrite E in Hr1. now apply Qlt_irrefl in Hr1. }
  assert (Hr20 : ~ r_mid2 == 0).
  { intros E. rewrite E in Hr2. now apply Qlt_irrefl in Hr2. }
  assert (E1 : (angle_end - angle_start) / (w / r_mid1)
               == (angle_end - angle_start) * / w * r_mid1)
    by (field; auto).
  assert (E2 : (angle_end - angle_start) / (w / r_mid2)
               == (angle_end - angle_start) * / w * r_mid2)
    by (field; auto).
  rewrite E1, E2.
  rewrite (Qmult_comm _ r_mid1), (Qmult_comm _ r_mid2).
  apply Qmult_le_compat_r; [assumption|].
  apply Qmult_le_0_compat; [assumption|].
  apply Qlt_le_weak. now apply Qinv_lt_0_compat.
Qed.



End ExactClaims.

(** ** Claims that read differently with and without rounding *)

Section RoundingClaims.

Import B64 Exact B64Facts Round64Facts B64Claims ExactClaims.
Local Open Scope float_scope.

(** C1 (amended). In binary64 a call with [start != end] whose half-cycle
    count is defined and whose arrays fit draws a path whose first point
    equals [start], as long as [start] and the lead-in offset
    [p_zig_start - start] are finite, and whose last point is
    [p_zig_end + 1 * (end - p_zig_end)].  In exact arithmetic every path
    drawn starts at [start] and ends at [end]. *)
Theorem path_ends_at_start_and_end :
  (forall (MEM : Memory) (hypot : float -> float -> float)
          (start end_ : point) (pitch fraction_zigzag amplitude : float) n c,
      n_half hypot start end_ pitch fraction_zigzag = inr n ->
      (L_total hypot start end_ =? 0)%float = false ->
      fits (n + 9) = true ->
      finite (fst start) = true -> finite (snd start) = true ->
      finite (fst (p_zig_start start end_ fraction_zigzag) - fst start)%float
        = true ->
      finite (snd (p_zig_start start end_ fraction_zigzag) - snd start)%float
        = true ->
      let pze := p_zig_end start end_ fraction_zigzag in
      exists xs ys p,
        draw_zigzag hypot start end_ pitch fraction_zigzag amplitude c
          = (Ok tt, c ++ [Plot xs ys])
        /\ first_point (xs, ys) = Some p /\ point_eqb p start = true
        /\ last_point (xs, ys)
           = Some (fst pze + 1 * (fst end_ - fst pze),
                   snd pze + 1 * (snd end_ - snd pze))%float)
  /\ (forall (MEM : Memory) (hypot : Q -> Q -> Q) (start end_ : point)
             (pitch fraction_zigzag amplitude : Q),
         endpoints_exact hypot start end_ pitch fraction_zigzag amplitude).
Proof.
  split.
  - intros MEM. exact first_point_exact.
  - intros MEM. exact endpoints_exact_in_Q.
Qed.

Lemma path_ends_witness :
  on_every_machine (fun MEM => forall_hypot (fun hypot =>
    n_half hypot (0, 0)%float (1, 0)%float 0.25 0.5 = inr 2%Z
    /\ (L_total hypot (0, 0) (1, 0) =? 0) = false
    /\ fits (2 + 9) = true
    /\ exists xs ys p,
         draw_zigzag hypot (0, 0)%float (1, 0)%float 0.25 0.5 0.05 []
           = (Ok tt, [Plot xs ys])
         /\ first_point (xs, ys) = Some p
         /\ point_eqb p (0, 0)%float = true)).
Proof.
  intros MEM hypot Hax.
  assert (Hn : n_half hypot (0, 0)%float (1, 0)%float 0.25 0.5 = inr 2%Z).
  { rewrite (n_half_on_axis hypot) by (assumption || reflexivity).
    reflexivity. }
  assert (HL : (L_total hypot (0, 0) (1, 0) =? 0) = false).
  { rewrite (L_total_on_axis hypot) by (assumption || reflexivity).
    reflexivity. }
  assert (Hf : fits (2 + 9) = true) by reflexivity.
  split; [exact Hn|]. split; [exact HL|]. split; [exact Hf|].
  destruct (proj1 path_ends_at_start_and_end MEM hypot
              (0, 0)%float (1, 0)%float 0.25%float 0.5%float 0.05%float
              2%Z [] Hn HL Hf eq_refl eq_refl eq_refl eq_refl)
    as (xs & ys & p & Hd & Hf1 & Hp & _).
  exists xs, ys, p. repeat split; assumption.
Defined.

(** C2 (amended). In binary64, for [r_in < r_out] and [h > 0] with
    [floor((r_out - r_in) / h)] converting to the integer [n] and radii
    that fit: [n >= 0], the boundaries are [r_in + k * h] for k = 0 .. n
    with [r_out] appended exactly when [r_in + n * h < r_out], and the
    outermost radius is [r_out] when it was appended and [r_in + n * h]
    otherwise.  For r_in = 1.0, r_out = 2.0, h = 0.3 the radii are
    [1.0, 1.3, 1.6, 1.9, 2.0], four rings.  In exact arithmetic the
    outermost radius of the radii computed is always [r_out]. *)
Theorem ring_boundary_radii :
  (forall (MEM : Memory) (r_in r_out h : float) n c,
      (r_in <? r_out)%float = true -> (0 <? h)%float = true ->
      floor_int ((r_out - r_in) / h)%float = inr n ->
      fits (n + 2) = true ->
      (0 <= n)%Z
      /\ prepare_radii r_in r_out h c = (Ok (radii r_in r_out h n), c)
      /\ radii r_in r_out h n
         = map (fun k => r_in + of_Z k * h)%float (arange_values (n + 1))
           ++ (if (r_in + of_Z n * h <? r_out)%float then [r_out] else [])
      /\ final_radius (radii r_in r_out h n)
         = Some (if (r_in + of_Z n * h <? r_out)%float then r_out
                 else (r_in + of_Z n * h)%float))
  /\ (forall MEM : Memory,
         prepare_radii 1 2 0.3 []
           = (Ok [1; 1.3; 1.6; 1.9; 2]%float, [])
         /\ (length [1; 1.3; 1.6; 1.9; 2]%float - 1 = 4)%nat)
  /\ (forall (MEM : Memory) (r_in r_out h : Q),
         (r_in < r_out)%Q -> (0 < h)%Q -> final_radius_is_r_out r_in r_out h).
Proof.
  split; [intros MEM; exact radii_of_valid_range|].
  split; [intros MEM; split; reflexivity|].
  intros MEM. exact final_radius_is_r_out_in_Q.
Qed.

Lemma ring_boundary_radii_witness :
  on_every_machine (fun MEM =>
    (1 <? 2)%float = true /\ (0 <? 0.3)%float = true
    /\ floor_int ((2 - 1) / 0.3)%float = inr 3%Z
    /\ fits (3 + 2) = true
    /\ prepare_radii 1 2 0.3 [] = (Ok (radii 1 2 0.3 3), [])
    /\ final_radius (radii 1 2 0.3 3) = Some 2%float).
Proof.
  intros MEM.
  assert (Hn : floor_int ((2 - 1) / 0.3)%float = inr 3%Z) by reflexivity.
  assert (Hf : fits (3 + 2) = true) by reflexivity.
  do 2 (split; [reflexivity|]). split; [exact Hn|]. split; [exact Hf|].
  destruct (proj1 ring_boundary_radii MEM 1%float 2%float 0.3%float 3%Z []
              eq_refl eq_refl Hn Hf) as (_ & Hp & _ & Hfin).
  split; [exact Hp|]. rewrite Hfin. reflexivity.
Defined.



(** C6 (amended). The strut count is [floor(sector / (w / r_mid))]; it
    grows with the mean radius.  In binary64, for [w > 0] and
    [angle_start < angle_end], of two rings with positive mean radii the
    one with the larger mean radius gets at least as many struts, whenever
    both counts are computed; the same holds in exact arithmetic. *)
Theorem strut_count_grows_with_mean_radius :
  (forall w angle_start angle_end r_mid1 r_mid2 : float,
      (0 <? w) = true -> (0 <? r_mid1) = true ->
      (r_mid1 <=? r_mid2) = true -> (angle_start <? angle_end) = true ->
      forall n1 n2,
        n_arc w angle_start angle_end r_mid1 = inr n1 ->
        n_arc w angle_start angle_end r_mid2 = inr n2 ->
        (n1 <= n2)%Z)
  /\ (forall w angle_start angle_end r_mid1 r_mid2 : Q,
         (0 < w)%Q -> (0 < r_mid1)%Q -> (r_mid1 <= r_mid2)%Q ->
         (angle_start <= angle_end)%Q ->
         forall n1 n2,
           n_arc w angle_start angle_end r_mid1 = inr n1 ->
           n_arc w angle_start angle_end r_mid2 = inr n2 ->
           (n1 <= n2)%Z).
Proof.
  split; [exact n_arc_monotone | exact struts_grow_in_Q].
Qed.

Lemma strut_count_witness :
  n_arc 1 0 twopi 1 = inr 6%Z
  /\ n_arc 1 0 twopi 2 = inr 12%Z
  /\ (6 <= 12)%Z.
Proof.
  assert (H1 : n_arc 1 0 twopi 1 = inr 6%Z) by reflexivity.
  assert (H2 : n_arc 1 0 twopi 2 = inr 12%Z) by reflexivity.
  split; [exact H1|]. split; [exact H2|].
  apply (proj1 strut_count_grows_with_mean_radius 1 0 twopi 1 2);
    try reflexivity; assumption.
Defined.

(** C7 (amended). Neither function validates its pitch or arc width.
    - A negative pitch whose quotient [L_zig / pitch] converts to an
      integer raises nothing: the integer is at most 0, [n_half] is
      clamped to 1 and, for [start != end], the path is drawn.
    - Whenever the integer conversion of [L_zig / pitch] raises (the
      quotient is infinite or NaN), the call raises that exception before
      anything is drawn.
    - A zero pitch always does so.
    - With [w <= 0], a valid angle range, [0 <= r_in < r_out], a finite
      [h > 0], a ring count that converts and radii that fit, the call
      raises in the first iteration of the ring loop, after it has drawn
      the two boundary arcs of the first ring. *)
Theorem nonpositive_pitch_or_width :
  (forall (MEM : Memory) (hypot : float -> float -> float)
          (start end_ : point) pitch fraction_zigzag amplitude k c,
      (pitch <? 0) = true ->
      (L_zig hypot start end_ fraction_zigzag <? 0) = false ->
      floor_int (L_zig hypot start end_ fraction_zigzag / pitch) = inr k ->
      (L_total hypot start end_ =? 0) = false ->
      let p := full_path hypot start end_ fraction_zigzag amplitude 1 in
      n_half hypot start end_ pitch fraction_zigzag = inr 1%Z
      /\ draw_zigzag hypot start end_ pitch fraction_zigzag amplitude c
         = (Ok tt, c ++ [Plot (fst p) (snd p)]))
  /\ (forall (MEM : Memory) (hypot : float -> float -> float)
             (start end_ : point) pitch fraction_zigzag amplitude e c,
         floor_int (L_zig hypot start end_ fraction_zigzag / pitch) = inl e ->
         draw_zigzag hypot start end_ pitch fraction_zigzag amplitude c
         = (Raise e, c))
  /\ (forall (MEM : Memory) (hypot : float -> float -> float)
             (start end_ : point) pitch fraction_zigzag amplitude,
         (pitch =? 0) = true ->
         fails_fast
           (draw_zigzag hypot start end_ pitch fraction_zigzag amplitude))
  /\ (forall (MEM : Memory) (cos sin : float -> float)
             r_in r_out h w angle_start angle_end n c,
         (w <=? 0) = true ->
         (angle_start <? angle_end) = true ->
         (r_in <? 0) = false -> (r_in <? r_out) = true ->
         (0 <? h) = true -> finite h = true ->
         floor_int ((r_out - r_in) / h) = inr n ->
         fits (n + 2) = true ->
         let angles_fine :=
           linspace_samples angle_start angle_end 300 true in
         let r_values := radii r_in r_out h n in
         exists e,
           plot_lattice_hex cos sin r_in r_out h w angle_start angle_end c
           = (Raise e,
              c ++ [arc cos sin angles_fine (nth 0 r_values 0);
                    arc cos sin angles_fine (nth 1 r_values 0)])).
Proof.
  split; [intros MEM; exact negative_pitch_is_clamped|].
  split; [intros MEM; exact failed_conversion_raises_first|].
  split; [intros MEM; exact zero_pitch_raises|].
  intros MEM. exact nonpositive_w_raises_in_first_ring.
Qed.

Lemma nonpositive_pitch_witness :
  on_every_machine (fun MEM => forall_hypot (fun hypot =>
    (-0.25 <? 0) = true
    /\ (L_zig hypot (0, 0) (1, 0) 0.5 <? 0) = false
    /\ floor_int (L_zig hypot (0, 0) (1, 0) 0.5 / -0.25) = inr (-2)%Z
    /\ (L_total hypot (0, 0) (1, 0) =? 0) = false
    /\ n_half hypot (0, 0) (1, 0) (-0.25) 0.5 = inr 1%Z
    /\ exists xs ys,
         draw_zigzag hypot (0, 0) (1, 0) (-0.25) 0.5 0.05 []
         = (Ok tt, [Plot xs ys]))).
Proof.
  intros MEM hypot Hax.
  assert (HZ : L_zig hypot (0, 0) (1, 0) 0.5 = 0.5).
  { rewrite (L_zig_on_axis hypot) by (assumption || reflexivity).
    reflexivity. }
  assert (Hz : (L_zig hypot (0, 0) (1, 0) 0.5 <? 0) = false)
    by (rewrite HZ; reflexivity).
  assert (Hk : floor_int (L_zig hypot (0, 0) (1, 0) 0.5 / -0.25)
               = inr (-2)%Z) by (rewrite HZ; reflexivity).
  assert (HL : (L_total hypot (0, 0) (1, 0) =? 0) = false).
  { rewrite (L_total_on_axis hypot) by (assumption || reflexivity).
    reflexivity. }
  split; [reflexivity|]. split; [exact Hz|]. split; [exact Hk|].
  split; [exact HL|].
  destruct (proj1 nonpositive_pitch_or_width MEM hypot (0, 0) (1, 0)
              (-0.25) 0.5 0.05 (-2)%Z [] eq_refl Hz Hk HL)
    as [Hn Hd].
  split; [exact Hn|]. eauto.
Defined.

End RoundingClaims.

(** ** Atomicity of drawing *)

Section AtomicityClaims.

Import B64.



End AtomicityClaims.

(** * Further properties of the two functions *)

(** ** The ring loop of plot_lattice_hex *)

Section LatticeLoop.

Context {F : Type} {AF : Arith F} {MEM : Memory}.
Variables cos sin : F -> F.
Local Open Scope arith_scope.

(** A ring whose strut count is zero (an arc width wider than the sector
    at that radius): the division of the sector by the count raises, after
    the two arcs. *)
Theorem zero_struts_raise_after_arcs
        w angle_start angle_end angles_fine r_values i c :
  let r1 := nth i r_values 0 in
  let r2 := nth (i + 1) r_values 0 in
  n_arc w angle_start angle_end (half * (r1 + r2)) = inr 0%Z ->
  ring cos sin w angle_start angle_end angles_fine r_values i c
  = (Raise ZeroDivisionError,
     c ++ [arc cos sin angles_fine r1; arc cos sin angles_fine r2]).
Proof.
  cbv zeta. intros H. rewrite ring_eq. cbv zeta. rewrite H. reflexivity.
Qed.

(** A ring with a positive strut count [n] whose strut arrays ([2 * n]
    entries each) fit completes with five plot calls: its two arcs, [n]
    struts from the inner to the outer radius at the angles
    [np.linspace(angle_start, angle_end, n, endpoint=False)], and the two
    closing radii. *)
Theorem ring_with_struts_draws_five_calls
        w angle_start angle_end angles_fine r_values i n c :
  let r1 := nth i r_values 0 in
  let r2 := nth (i + 1) r_values 0 in
  let angles := linspace_samples angle_start angle_end n false in
  n_arc w angle_start angle_end (half * (r1 + r2)) = inr n ->
  (0 < n)%Z ->
  fits (2 * n) = true ->
  length angles = Z.to_nat n
  /\ ring cos sin w angle_start angle_end angles_fine r_values i c
     = (Ok tt,
        c ++ [arc cos sin angles_fine r1;
              arc cos sin angles_fine r2;
              PlotColumns
                [map (fun a => r1 * cos a) angles;
                 map (fun a => r2 * cos a) angles]
                [map (fun a => r1 * sin a) angles;
                 map (fun a => r2 * sin a) angles];
              Plot [r1 * cos angle_start; r2 * cos angle_start]
                   [r1 * sin angle_start; r2 * sin angle_start];
              Plot [r1 * cos angle_end; r2 * cos angle_end]
                   [r1 * sin angle_end; r2 * sin angle_end]]).
Proof.
  cbv zeta. intros H Hn Hf.
  split; [apply length_linspace_samples|].
  rewrite ring_eq. cbv zeta. rewrite H.
  destruct (n =? 0)%Z eqn:E0; [apply Z.eqb_eq in E0; lia|].
  destruct (n <? 0)%Z eqn:E1; [apply Z.ltb_lt in E1; lia|].
  rewrite (refusal_fits _ (fits_le _ n Hf ltac:(lia))), (refusal_fits _ Hf).
  unfold struts, closing_radius, outer_values. cbn [map].
  rewrite !map_map, <- app_assoc. reflexivity.
Qed.

(** A call that returns has drawn every ring in full: the radii were
    computed, every ring's strut count was a positive integer, and the
    canvas has gained five plot calls per ring. *)
Theorem completed_call_draws_five_per_ring
        r_in r_out h w angle_start angle_end c c' :
  plot_lattice_hex cos sin r_in r_out h w angle_start angle_end c
    = (Ok tt, c') ->
  exists r_values,
    prepare_radii r_in r_out h c = (Ok r_values, c)
    /\ (forall i, (i < length r_values - 1)%nat ->
          exists n, (0 < n)%Z
                    /\ n_arc w angle_start angle_end
                         (half * (nth i r_values 0 + nth (i + 1) r_values 0))
                       = inr n)
    /\ length c' = (length c + 5 * (length r_values - 1))%nat.
Proof.
  destruct (angle_start >=? angle_end) eqn:Ha.
  { unfold plot_lattice_hex. rewrite Ha. discriminate. }
  destruct (prepare_radii r_in r_out h c) as [[rv|e1] c1] eqn:Er;
    pose proof (prepare_radii_canvas _ _ _ _ _ _ Er) as ->.
  2:{ unfold plot_lattice_hex. rewrite Ha. unfold bind. rewrite Er.
      discriminate. }
  rewrite (plot_lattice_hex_loop cos sin _ _ _ _ _ _ _ _ Ha Er).
  intros H. exists rv. split; [reflexivity|].
  unfold for_range in H.
  eapply for_range_from_ok_inv in H.
  - destruct H as [Hall Hlen]. split; [|exact Hlen].
    intros i Hi. apply (Hall i). lia.
  - intros i c0 c0' Hr. apply ring_ok_inv in Hr. exact Hr.
Qed.

(** Conversely, with a valid angle range and radii that could be computed,
    the call returns as soon as every ring's strut count is a positive
    integer [n] whose strut arrays ([2 * n] entries each) fit. *)
Theorem positive_strut_counts_complete
        r_in r_out h w angle_start angle_end r_values c :
  (angle_start >=? angle_end) = false ->
  prepare_radii r_in r_out h c = (Ok r_values, c) ->
  (forall i, (i < length r_values - 1)%nat ->
     exists n, (0 < n)%Z /\ fits (2 * n) = true
               /\ n_arc w angle_start angle_end
                    (half * (nth i r_values 0 + nth (i + 1) r_values 0))
                  = inr n) ->
  exists c',
    plot_lattice_hex cos sin r_in r_out h w angle_start angle_end c
      = (Ok tt, c')
    /\ length c' = (length c + 5 * (length r_values - 1))%nat.
Proof.
  intros Ha Hr Hall.
  assert (exists c',
             plot_lattice_hex cos sin r_in r_out h w angle_start angle_end c
             = (Ok tt, c')) as [c' Hc].
  { rewrite (plot_lattice_hex_loop cos sin _ _ _ _ _ _ _ _ Ha Hr).
    apply for_range_from_ok_intro.
    intros j Hj c0. destruct (Hall j ltac:(lia)) as (n & Hn & Hf & En).
    eapply ring_ok_intro; eassumption. }
  exists c'. split; [exact Hc|].
  rewrite (plot_lattice_hex_loop cos sin _ _ _ _ _ _ _ _ Ha Hr) in Hc.
  eapply (for_range_from_ok_inv _ (fun _ => True)) in Hc.
  - apply Hc.
  - intros i c0 c0' H0. apply ring_ok_inv in H0. split; [exact I|apply H0].
Qed.

(** A zero radial spacing raises before anything is drawn. *)
Theorem zero_spacing_raises_first r_in r_out h w angle_start angle_end c :
  (angle_start >=? angle_end) = false ->
  (h == 0) = true ->
  plot_lattice_hex cos sin r_in r_out h w angle_start angle_end c
    = (Raise ZeroDivisionError, c).
Proof.
  intros Ha Hh. unfold plot_lattice_hex. rewrite Ha.
  unfold bind. rewrite prepare_radii_eq, Hh. reflexivity.
Qed.


End LatticeLoop.

(** ** Shapes of the arrays handed to [ax.plot] *)

Section ShapeFacts.

Context {F : Type} {AF : Arith F} {MEM : Memory}.
Local Open Scope arith_scope.

Lemma ring_drawn_well_shaped (cos sin : F -> F)
      w angle_start angle_end angles_fine r_values i c :
  exists drawn,
    snd (ring cos sin w angle_start angle_end angles_fine r_values i c)
    = c ++ drawn
    /\ Forall well_shaped drawn.
Proof.
  rewrite ring_eq. cbv zeta.
  set (r1 := nth i r_values 0). set (r2 := nth (i + 1) r_values 0).
  assert (Ha : Forall well_shaped
                 [arc cos sin angles_fine r1; arc cos sin angles_fine r2]).
  { repeat constructor; simpl; now rewrite !length_map. }
  destruct (n_arc _ _ _ _) as [e|n];
    [eexists; split; [reflexivity | exact Ha]|].
  destruct (n =? 0)%Z; [eexists; split; [reflexivity | exact Ha]|].
  destruct (n <? 0)%Z; [eexists; split; [reflexivity | exact Ha]|].
  destruct (refusal n); [eexists; split; [reflexivity | exact Ha]|].
  destruct (refusal (2 * n)); [eexists; split; [reflexivity | exact Ha]|].
  eexists. cbn [snd]. rewrite <- app_assoc. split; [reflexivity|].
  apply Forall_app. split; [exact Ha|].
  repeat constructor; simpl; now rewrite !length_map.
Qed.

Lemma for_range_from_drawn (body : nat -> M F unit) (P : plot_call F -> Prop) :
  (forall i c, exists drawn, snd (body i c) = c ++ drawn /\ Forall P drawn) ->
  forall n i c,
    exists drawn,
      snd (for_range_from i n body c) = c ++ drawn /\ Forall P drawn.
Proof.
  intros Hbody. induction n as [|n IH]; intros i c.
  - exists []. simpl. now rewrite app_nil_r.
  - simpl. unfold bind.
    destruct (Hbody i c) as (d1 & H1 & P1).
    destruct (body i c) as [[[]|e] c1]; cbn [snd] in H1; subst c1.
    + destruct (IH (S i) (c ++ d1)) as (d2 & H2 & P2).
      exists (d1 ++ d2). rewrite H2, app_assoc. split; [reflexivity|].
      apply Forall_app. now split.
    + exists d1. now split.
Qed.

(** Whatever a call of either function draws, and however it ends, every
    [ax.plot] call it makes receives coordinate arrays of matching shapes:
    [draw_zigzag] draws nothing or one polyline with as many abscissas as
    ordinates; [plot_lattice_hex] draws polylines with as many abscissas
    as ordinates and strut bundles whose two arrays have the same rows. *)
Theorem plot_calls_are_well_shaped :
  (forall (hypot : F -> F -> F) (start end_ : point)
          (pitch fraction_zigzag amplitude : F) c,
      snd (draw_zigzag hypot start end_ pitch fraction_zigzag amplitude c) = c
      \/ exists xs ys,
           snd (draw_zigzag hypot start end_ pitch fraction_zigzag amplitude c)
           = c ++ [Plot xs ys]
           /\ length xs = length ys)
  /\ (forall (cos sin : F -> F) (r_in r_out h w angle_start angle_end : F) c,
         exists drawn,
           snd (plot_lattice_hex cos sin r_in r_out h w angle_start angle_end c)
           = c ++ drawn
           /\ Forall well_shaped drawn).
Proof.
  split.
  - intros hypot start end_ pitch fraction_zigzag amplitude c.
    rewrite draw_zigzag_eq.
    destruct (n_half _ _ _ _ _) as [e|n]; [left; reflexivity|].
    destruct (refusal (n + 1)); [left; reflexivity|].
    destruct (_ == _); [left; reflexivity|].
    destruct (refusal (n + 9)); [left; reflexivity|].
    right. cbv zeta. do 2 eexists. split; [reflexivity|].
    unfold full_path. cbn [fst snd].
    pose proof (length_lead_in start end_ fraction_zigzag) as [Hlx Hly].
    pose proof (length_lead_out start end_ fraction_zigzag) as [Hrx Hry].
    pose proof (length_zigzag hypot start end_ fraction_zigzag amplitude n)
      as [Hzx Hzy].
    rewrite !length_app, !length_removelast, Hlx, Hly, Hzx, Hzy.
    destruct (fst (lead_out start end_ fraction_zigzag)) as [|x0 xr];
      [discriminate|].
    destruct (snd (lead_out start end_ fraction_zigzag)) as [|y0 yr];
      [discriminate|].
    simpl in *. lia.
  - intros cos sin r_in r_out h w angle_start angle_end c.
    destruct (angle_start >=? angle_end) eqn:Ha.
    { unfold plot_lattice_hex. rewrite Ha.
      exists []. simpl. now rewrite app_nil_r. }
    destruct (prepare_radii r_in r_out h c) as [[rv|e1] c1] eqn:Er;
      pose proof (prepare_radii_canvas _ _ _ _ _ _ Er) as ->.
    2:{ unfold plot_lattice_hex. rewrite Ha. unfold bind. rewrite Er.
        exists []. simpl. now rewrite app_nil_r. }
    rewrite (plot_lattice_hex_loop cos sin _ _ _ _ _ _ _ _ Ha Er).
    apply for_range_from_drawn. intros i c0.
    apply ring_drawn_well_shaped.
Qed.

End ShapeFacts.

(** ** Further properties read in binary64 *)

Module B64More.

Import B64 B64Facts Round64 Round64Facts B64Claims.
Local Open Scope float_scope.


(** With a positive arc width, a mean radius that is not negative and
    [angle_start < angle_end], the strut count of a ring is never
    negative: the sampling of the strut angles cannot fail. *)
Theorem strut_count_is_not_negative w angle_start angle_end r_mid n :
  (0 <? w) = true -> (r_mid <? 0) = false ->
  (angle_start <? angle_end) = true ->
  n_arc w angle_start angle_end r_mid = inr n -> (0 <= n)%Z.
Proof.
  intros Hw Hr Ha.
  unfold n_arc. cbn [int_floor arith sub div]. unfold floor_int.
  rewrite !div_spec. intros Hn.
  destruct (Z_lt_ge_dec n 0) as [Hneg|]; [exfalso|lia].
  apply (floor_spec_neg _ _ Hn) in Hneg.
  apply SFdiv_negfin in Hneg.
  destruct Hneg as (sx & mx & ex & sy & my & ey & Ex & Ey & Hs).
  apply sub_lt_not_neg in Ha. rewrite ltb_zero, Ex in Ha.
  destruct sx; [discriminate|]. destruct sy; [|discriminate].
  assert (Hd : SF_negfin (SF64div (Prim2SF w) (Prim2SF r_mid)) = true)
    by (rewrite Ey; reflexivity).
  apply SFdiv_negfin in Hd.
  destruct Hd as (sw & mw & ew & sr & mr & er & Ew & Er & Hs').
  apply ltb_zero_pos in Hw. rewrite Ew in Hw.
  destruct sw; [discriminate|]. destruct sr; [|discriminate].
  rewrite ltb_zero, Er in Hr. discriminate.
Qed.

Lemma SFeqb_not_ltb a b : SFeqb a b = true -> SFltb a b = false.
Proof.
  unfold SFeqb, SFltb. destruct (SFcompare a b) as [[]|]; easy.
Qed.

(** A lattice of zero radial extent ([r_in == r_out]) has a single
    boundary and no ring: the call returns normally and draws nothing. *)
Theorem zero_extent_draws_nothing
        (MEM : Memory) (cos sin : float -> float)
        r_in r_out h w angle_start angle_end c :
  (angle_end <=? angle_start) = false ->
  finite r_in = true -> (r_out =? r_in) = true ->
  finite h = true -> (h =? 0) = false ->
  plot_lattice_hex cos sin r_in r_out h w angle_start angle_end c
  = (Ok tt, c).
Proof.
  intros Ha Fr Er Fh Hh.
  assert (Hl : (last_regular r_in h 0 <? r_out)%A = false).
  { unfold last_regular.
    change (r_in + of_int 0 * h <? r_out)%A with (r_in + 0 * h <? r_out).
    pose proof (add_zero_mul r_in h Fr Fh) as Hx.
    rewrite ltb_spec. rewrite eqb_spec in Hx, Er.
    unfold finite in Fr.
    destruct (SFeqb_finite_inv _ _ Fr Hx) as [[Za Zx]|[Za Ex]];
      destruct (SFeqb_finite_inv _ _ Fr Er) as [[Za' Zo]|[Za' Eo]];
      try congruence.
    - rewrite SFltb_zero_r by assumption.
      destruct (Prim2SF (r_in + 0 * h)) as [s|s| |s m e]; try discriminate.
      reflexivity.
    - rewrite Ex, Eo. apply SFeqb_not_ltb. now apply SFeqb_refl. }
  assert (Hp : prepare_radii r_in r_out h c
               = (Ok (regular_radii r_in h 0), c)).
  { rewrite prepare_radii_eq.
    change (h == 0)%A with (h =? 0). rewrite Hh.
    change (int_floor ((r_out - r_in) / h)%A)
      with (floor_int ((r_out - r_in) / h)).
    rewrite (floor_div_zero (r_out - r_in) h
               (sub_eqb_zero r_in r_out r_in Fr Er (finite_eqb_refl _ Fr))
               Hh (finite_eqb_refl _ Fh)).
    rewrite (refusal_fits _ (fits_small (0 + 1) ltac:(unfold small_array; lia))).
    cbn [Z.ltb Z.compare]. rewrite Hl. reflexivity. }
  change ((angle_start >=? angle_end)%A = false) in Ha.
  rewrite (plot_lattice_hex_loop cos sin _ _ _ _ _ _ _ _ Ha Hp).
  reflexivity.
Qed.

(** Division of positive finite floats is monotone in the dividend. *)
Lemma SFdiv_monotone mx1 ex1 mx2 ex2 my ey :
  bounded prec emax mx1 ex1 = true -> bounded prec emax mx2 ex2 = true ->
  bounded prec emax my ey = true ->
  (SFV (S754_finite false mx1 ex1) <= SFV (S754_finite false mx2 ex2))%Z ->
  (SFV (SF64div (S754_finite false mx1 ex1) (S754_finite false my ey))
   <= SFV (SF64div (S754_finite false mx2 ex2) (S754_finite false my ey)))%Z.
Proof.
  intros V1 V2 Vy Hx. cbn [SFV] in Hx.
  destruct (SFdiv_value mx1 ex1 my ey V1 Vy)
    as (A1 & B1 & E1 & m1 & F1 & HA1 & HB1 & C1 & D1 & W1 & R1 & ->).
  destruct (SFdiv_value mx2 ex2 my ey V2 Vy)
    as (A2 & B2 & E2 & m2 & F2 & HA2 & HB2 & C2 & D2 & W2 & R2 & ->).
  rewrite !SFV_assemble by assumption.
  rewrite W1, W2.
  apply Z.min_le_compat_r.
  apply rounded_mono; try assumption.
  apply valid_bounds in V1, V2, Vy.
  assert (HE1 : (-1074 <= E1)%Z) by (destruct C1 as [[? _]|[? _]]; lia).
  assert (HE2 : (-1074 <= E2)%Z) by (destruct C2 as [[? _]|[? _]]; lia).
  assert (P1 : (0 < 2 ^ (E1 + 1074))%Z) by (apply Z.pow_pos_nonneg; lia).
  assert (P2 : (0 < 2 ^ (E2 + 1074))%Z) by (apply Z.pow_pos_nonneg; lia).
  assert (Py : (0 < 2 ^ (ey + 1074))%Z) by (apply Z.pow_pos_nonneg; lia).
  assert (Pc : (0 < 2 ^ 1074)%Z) by (apply Z.pow_pos_nonneg; lia).
  set (p1 := (2 ^ (E1 + 1074))%Z) in *. set (p2 := (2 ^ (E2 + 1074))%Z) in *.
  set (v1 := (Z.pos mx1 * 2 ^ (ex1 + 1074))%Z) in *.
  set (v2 := (Z.pos mx2 * 2 ^ (ex2 + 1074))%Z) in *.
  set (vy := (Z.pos my * 2 ^ (ey + 1074))%Z) in *.
  set (c := (2 ^ 1074)%Z) in *.
  assert (Hvy : (0 < vy)%Z) by (subst vy; apply Z.mul_pos_pos; lia).
  apply (Z.mul_le_mono_pos_r _ _ vy); [exact Hvy|].
  replace (A1 * B2 * p1 * vy)%Z with (A1 * vy * p1 * B2)%Z by ring.
  replace (A2 * B1 * p2 * vy)%Z with (A2 * vy * p2 * B1)%Z by ring.
  rewrite R1, R2.
  replace (B1 * v1 * c * B2)%Z with (B1 * B2 * c * v1)%Z by ring.
  replace (B2 * v2 * c * B1)%Z with (B1 * B2 * c * v2)%Z by ring.
  apply Z.mul_le_mono_nonneg_l; [|assumption].
  repeat apply Z.mul_nonneg_nonneg; lia.
Qed.

Lemma SFV_div_le_top mx ex my ey :
  bounded prec emax mx ex = true -> bounded prec emax my ey = true ->
  (SFV (SF64div (S754_finite false mx ex) (S754_finite false my ey))
   <= 2 ^ 2098)%Z.
Proof.
  intros Vx Vy.
  destruct (SFdiv_value mx ex my ey Vx Vy)
    as (A & B & E & m & F & _ & _ & _ & D & _ & _ & ->).
  rewrite SFV_assemble by assumption. apply Z.le_min_r.
Qed.

Lemma SFV_finite_pos m e :
  bounded prec emax m e = true -> (0 < SFV (S754_finite false m e))%Z.
Proof.
  intros V. apply valid_bounds in V. destruct V as (_ & He & _).
  cbn [SFV]. apply Z.mul_pos_pos; [lia|]. apply Z.pow_pos_nonneg; lia.
Qed.

(** Division by a positive divisor is monotone in the dividend, for
    dividends that are not negative. *)
Lemma SFdiv_monotone_pos x1 x2 y :
  valid_binary x1 = true -> valid_binary x2 = true -> valid_binary y = true ->
  SF_neg x1 = false -> SF_neg x2 = false -> SF_pos y = true ->
  (SFV x1 <= SFV x2)%Z ->
  (SFV (SF64div x1 y) <= SFV (SF64div x2 y))%Z.
Proof.
  intros V1 V2 Vy N1 N2 Py H.
  assert (T : (0 < 2 ^ 2098)%Z) by (apply Z.pow_pos_nonneg; lia).
  destruct y as [sy|sy| |sy my ey]; try discriminate;
    destruct sy; try discriminate.
  - destruct x1 as [s1|s1| |s1 m1 e1], x2 as [s2|s2| |s2 m2 e2];
      cbn [SF64div SFdiv SFV]; lia.
  - destruct x1 as [s1|s1| |s1 m1 e1].
    + change (SF64div (S754_zero s1) (S754_finite false my ey))
        with (S754_zero (xorb s1 false)).
      cbn [SFV]. apply SFV_nonneg.
    + destruct s1; [discriminate|].
      change (SFV (S754_infinity false)) with (2 ^ 2098)%Z in H.
      destruct x2 as [s2|s2| |s2 m2 e2].
      * cbn [SFV] in H. lia.
      * destruct s2; [discriminate|]. cbn [SF64div SFdiv xorb]. lia.
      * cbn [SFV] in H. lia.
      * destruct s2; [discriminate|].
        simpl in V2. pose proof (SFV_finite_lt _ _ V2). lia.
    + change (SF64div S754_nan (S754_finite false my ey)) with S754_nan.
      cbn [SFV]. apply SFV_nonneg.
    + destruct s1; [discriminate|].
      pose proof (SFV_finite_pos m1 e1 V1) as Hpos.
      destruct x2 as [s2|s2| |s2 m2 e2].
      * cbn [SFV] in H, Hpos. lia.
      * destruct s2; [discriminate|].
        change (SF64div (S754_infinity false) (S754_finite false my ey))
          with (S754_infinity false).
        change (SFV (S754_infinity false)) with (2 ^ 2098)%Z.
        now apply SFV_div_le_top.
      * cbn [SFV] in H, Hpos. lia.
      * destruct s2; [discriminate|].
        apply SFdiv_monotone; assumption.
Qed.

(** A wider arc never gives a ring more struts: for a positive mean
    radius and [angle_start < angle_end], the strut count does not grow
    with the arc width. *)
Theorem wider_arcs_never_give_more_struts
        w1 w2 angle_start angle_end r_mid n1 n2 :
  (0 <? w1) = true -> (w1 <=? w2) = true -> (0 <? r_mid) = true ->
  (angle_start <? angle_end) = true ->
  n_arc w1 angle_start angle_end r_mid = inr n1 ->
  n_arc w2 angle_start angle_end r_mid = inr n2 ->
  (n2 <= n1)%Z.
Proof.
  intros Hw1 Hw Hr Ha.
  unfold n_arc. cbn [int_floor arith sub div]. unfold floor_int.
  rewrite !div_spec.
  apply ltb_zero_pos in Hw1, Hr.
  rewrite leb_spec in Hw.
  destruct (SFleb_SFV _ _ (Prim2SF_valid w1) (Prim2SF_valid w2) Hw1 Hw)
    as [Hw2 Hle].
  apply sub_lt_not_neg in Ha. rewrite ltb_zero in Ha.
  set (X := Prim2SF (angle_end - angle_start)) in *.
  assert (VX : valid_binary X = true) by apply Prim2SF_valid.
  assert (VD1 : valid_binary (SF64div (Prim2SF w1) (Prim2SF r_mid)) = true)
    by (rewrite <- div_spec; apply Prim2SF_valid).
  assert (VD2 : valid_binary (SF64div (Prim2SF w2) (Prim2SF r_mid)) = true)
    by (rewrite <- div_spec; apply Prim2SF_valid).
  pose proof (SFdiv_pos_not_neg _ _ (SF_pos_not_neg _ Hw1) Hr) as ND1.
  pose proof (SFdiv_pos_not_neg _ _ (SF_pos_not_neg _ Hw2) Hr) as ND2.
  pose proof (SFdiv_monotone_pos _ _ _ (Prim2SF_valid w1) (Prim2SF_valid w2)
                (Prim2SF_valid r_mid) (SF_pos_not_neg _ Hw1)
                (SF_pos_not_neg _ Hw2) Hr Hle) as HD.
  set (D1 := SF64div (Prim2SF w1) (Prim2SF r_mid)) in *.
  set (D2 := SF64div (Prim2SF w2) (Prim2SF r_mid)) in *.
  intros H1 H2.
  pose proof (SFdiv_finite_divisor _ _ ND1 (floor_spec_finite _ _ H1)) as PD1.
  pose proof (SFdiv_finite_divisor _ _ ND2 (floor_spec_finite _ _ H2)) as PD2.
  pose proof (SFdiv_antitone_pos X D1 D2 VX VD1 VD2 Ha PD1 PD2 HD) as HQ.
  assert (VQ1 : valid_binary (SF64div X D1) = true).
  { subst X D1. rewrite <- !div_spec. apply Prim2SF_valid. }
  assert (VQ2 : valid_binary (SF64div X D2) = true).
  { subst X D2. rewrite <- !div_spec. apply Prim2SF_valid. }
  rewrite (floor_SFV _ _ VQ1 (SFdiv_pos_not_neg _ _ Ha PD1) H1).
  rewrite (floor_SFV _ _ VQ2 (SFdiv_pos_not_neg _ _ Ha PD2) H2).
  apply Z.div_le_mono; [|exact HQ].
  apply Z.pow_pos_nonneg; lia.
Qed.

End B64More.

(** ** The further properties at concrete inputs *)

Module MoreWitnesses.

Import B64 B64Facts B64More.
Local Open Scope float_scope.

Lemma zero_struts_witness :
  n_arc 10 0 twopi (0.5 * (1 + 2)) = inr 0%Z
  /\ forall (MEM : Memory) cos sin,
       ring cos sin 10 0 twopi [] [1; 2] 0 []
       = (Raise ZeroDivisionError, [arc cos sin [] 1; arc cos sin [] 2]).
Proof.
  assert (H : n_arc 10 0 twopi (0.5 * (1 + 2)) = inr 0%Z) by reflexivity.
  split; [exact H|]. intros MEM cos sin.
  exact (zero_struts_raise_after_arcs cos sin 10 0 twopi [] [1; 2] 0%nat []
           H).
Defined.

Lemma ring_with_struts_witness :
  n_arc 1 0 twopi (0.5 * (1 + 2)) = inr 9%Z
  /\ forall (MEM : Memory),
       fits (2 * 9) = true
       /\ forall cos sin,
            length (linspace_samples 0 twopi 9 false) = 9%nat
            /\ exists c',
                 ring cos sin 1 0 twopi [] [1; 2] 0 [] = (Ok tt, c')
                 /\ length c' = 5%nat.
Proof.
  assert (H : n_arc 1 0 twopi (0.5 * (1 + 2)) = inr 9%Z) by reflexivity.
  split; [exact H|]. intros MEM.
  assert (Hf : fits (2 * 9) = true) by reflexivity.
  split; [exact Hf|]. intros cos sin.
  destruct (ring_with_struts_draws_five_calls cos sin
              1 0 twopi [] [1; 2] 0%nat 9%Z [] H eq_refl Hf) as [Hl Hr].
  split; [exact Hl|].
  eexists. split; [exact Hr | reflexivity].
Defined.

Lemma completed_call_witness :
  on_every_machine (fun MEM => forall_trig
    (fun cos sin =>
       exists c',
         plot_lattice_hex cos sin 1 2 1 1 0 twopi [] = (Ok tt, c')
         /\ length c' = 5%nat)).
Proof.
  intros MEM cos sin.
  destruct (plot_lattice_hex cos sin 1 2 1 1 0 twopi [])
    as [[[]|e] c'] eqn:H.
  2:{ exfalso. vm_compute in H. discriminate. }
  exists c'. split; [reflexivity|].
  destruct (completed_call_draws_five_per_ring cos sin 1 2 1 1 0 twopi
              [] c' H) as (rv & Hp & _ & Hl).
  assert (rv = [1; 2]) as ->.
  { vm_compute in Hp. injection Hp as <-. reflexivity. }
  exact Hl.
Defined.

Lemma positive_strut_counts_witness :
  (twopi <=? 0) = false
  /\ n_arc 1 0 twopi (0.5 * (1 + 2)) = inr 9%Z
  /\ forall (MEM : Memory),
       prepare_radii 1 2 1 [] = (Ok [1; 2], [])
       /\ fits (2 * 9) = true
       /\ forall cos sin,
            exists c',
              plot_lattice_hex cos sin 1 2 1 1 0 twopi [] = (Ok tt, c')
              /\ length c' = 5%nat.
Proof.
  assert (Ha : (twopi <=? 0) = false) by reflexivity.
  assert (Hn : n_arc 1 0 twopi (0.5 * (1 + 2)) = inr 9%Z) by reflexivity.
  split; [exact Ha|]. split; [exact Hn|]. intros MEM.
  assert (Hp : prepare_radii 1 2 1 [] = (Ok [1; 2], [])) by reflexivity.
  assert (Hf : fits (2 * 9) = true) by reflexivity.
  split; [exact Hp|]. split; [exact Hf|].
  intros cos sin.
  apply (positive_strut_counts_complete cos sin 1 2 1 1 0 twopi [1; 2] []);
    [reflexivity | exact Hp |].
  intros i Hi. simpl in Hi.
  assert (i = 0%nat) as -> by lia.
  exists 9%Z. split; [lia|]. split; [exact Hf | exact Hn].
Defined.

Lemma zero_spacing_witness :
  (twopi <=? 0) = false /\ (0 =? 0) = true
  /\ forall (MEM : Memory) cos sin,
       plot_lattice_hex cos sin 1 2 0 1 0 twopi []
       = (Raise ZeroDivisionError, []).
Proof.
  split; [reflexivity|]. split; [reflexivity|]. intros MEM cos sin.
  apply (zero_spacing_raises_first cos sin 1 2 0 1 0 twopi []);
    reflexivity.
Defined.


Lemma strut_count_sign_witness :
  n_arc 1 0 twopi 1.5 = inr 9%Z /\ (0 <= 9)%Z.
Proof.
  assert (H : n_arc 1 0 twopi 1.5 = inr 9%Z) by reflexivity.
  split; [exact H|].
  apply (strut_count_is_not_negative 1 0 twopi 1.5 9%Z);
    [reflexivity | reflexivity | reflexivity | exact H].
Defined.

Lemma zero_extent_witness :
  (1 =? 1) = true
  /\ forall (MEM : Memory) cos sin,
       plot_lattice_hex cos sin 1 1 0.3 1 0 twopi [] = (Ok tt, []).
Proof.
  split; [reflexivity|]. intros MEM cos sin.
  apply (zero_extent_draws_nothing MEM cos sin 1 1 0.3 1 0 twopi []);
    reflexivity.
Defined.

Lemma wider_arcs_witness :
  n_arc 1 0 twopi 1.5 = inr 9%Z
  /\ n_arc 2 0 twopi 1.5 = inr 4%Z
  /\ (4 <= 9)%Z.
Proof.
  assert (H1 : n_arc 1 0 twopi 1.5 = inr 9%Z) by reflexivity.
  assert (H2 : n_arc 2 0 twopi 1.5 = inr 4%Z) by reflexivity.
  split; [exact H1|]. split; [exact H2|].
  apply (wider_arcs_never_give_more_struts 1 2 0 twopi 1.5 9%Z 4%Z);
    [reflexivity | reflexivity | reflexivity | reflexivity
    | exact H1 | exact H2].
Defined.

End MoreWitnesses.
